(** * The handshake pipeline of src/core/handshaker/handshaker.cc

    A shallow embedding of [Handshaker::InvokeOnHandshakeDone] and of
    [HandshakeManager] ([Add], [DoHandshake], [Shutdown],
    [CallNextHandshakerLocked]).  Every member function that takes
    [mu_] is one atomic transition of a [World]: the manager, the event
    engine it posts to, the handshakers that currently hold a
    continuation, and the chronological list of calls made to the
    collaborators.  A failed [CHECK] and undefined behaviour are
    explicit failures of the transition.

    Left out: the reference counts ([Ref()], [self.reset()]), which only
    keep the manager alive, and [GRPC_TRACE_LOG], which changes nothing. *)

From Stdlib Require Import Ascii DecimalString.
From Stdlib Require Import List String Bool Arith ZArith Lia.
Import ListNotations.
Local Open Scope string_scope.
Local Open Scope list_scope.
Local Open Scope nat_scope.

(** ** Collaborator types *)

(** [absl::StatusCode], without [kOk]. *)
Inductive StatusCode :=
| kCancelled | kUnknown | kInvalidArgument | kDeadlineExceeded | kNotFound
| kAlreadyExists | kPermissionDenied | kResourceExhausted
| kFailedPrecondition | kAborted | kOutOfRange | kUnimplemented
| kInternal | kUnavailable | kDataLoss | kUnauthenticated.

(** [absl::Status]: either ok, or a code with a message. *)
Inductive Status :=
| OkStatus
| ErrorStatus (code : StatusCode) (message : string).

Definition ok (s : Status) : bool :=
  match s with OkStatus => true | ErrorStatus _ _ => false end.

(** Modelled from the spec: the macro [GRPC_ERROR_CREATE] of
    src/core/util/status_helper.h is not part of the sources at hand; it
    builds a non-ok status carrying the given description (code
    [kUnknown]). *)
Definition GRPC_ERROR_CREATE (description : string) : Status :=
  ErrorStatus kUnknown description.

(** Modelled from the spec: the class [Handshaker] is declared in
    handshaker.h, which is not part of the sources at hand.  A
    [RefCountedPtr<Handshaker>] is the object's address and its [name()];
    its [DoHandshake] and [Shutdown] are calls recorded as effects. *)
Record Handshaker := { hs_addr : nat; name : string }.

(** An endpoint object, by address; [OrphanablePtr<grpc_endpoint>] is
    [option grpc_endpoint], [None] being the null pointer. *)
Definition grpc_endpoint := nat.

Definition Timestamp := Z.
Definition Duration := Z.
Definition SliceBuffer := list nat.

(** Modelled from the spec: [EventEngine::TaskHandle], the handle that
    [RunAfter] returns; [kInvalid] is the value of a fresh manager. *)
Inductive TaskHandle := kInvalid | Handle (id : nat).

Definition TaskHandle_eqb (a b : TaskHandle) : bool :=
  match a, b with
  | kInvalid, kInvalid => true
  | Handle x, Handle y => Nat.eqb x y
  | _, _ => false
  end.

(** The pointer [EventEngine*]; every non-null pointer denotes the engine
    of the [World]. *)
Inductive EventEnginePtr := the_engine.

(** Modelled from the spec: [ChannelArgs] is declared outside the sources
    at hand.  The snapshot as far as handshaker.cc reads it:
    [GetObject<EventEngine>()] and [GetObjectRef<channelz::BaseNode>()]. *)
Record ChannelArgs := {
  GetObject_EventEngine : option EventEnginePtr;
  GetObjectRef_BaseNode : option nat;
  other_args : list (string * string)
}.

(** Modelled from the spec: [grpc_tcp_server_acceptor] is declared outside
    the sources at hand.  The acceptor as far as [DoHandshake] reads it;
    [pending_data] stands for
    [pending_data->data.raw.slice_buffer] when the pointer is not null. *)
Record grpc_tcp_server_acceptor := {
  external_connection : bool;
  pending_data : option SliceBuffer
}.

(** What the manager streams into the trace node with
    [GRPC_CHANNELZ_LOG]. *)
Inductive LogEntry :=
| LogHandshakeConnection
| LogShutdownCalled (error : Status)
| LogShuttingDownHandshaker (index : nat)
| LogFailedWithError (error : Status)
| LogCallingHandshaker (name : string) (index : nat).

(** Modelled from the spec: [channelz::TraceNode], a sink with [Log] and
    [Commit()]: its entries, whether a channelz node backs it, and whether
    [Commit()] has made it persistent. *)
Record TraceNode := {
  tn_backed : bool;
  tn_entries : list LogEntry;
  tn_committed : bool
}.

Definition TraceNode_default : TraceNode :=
  {| tn_backed := false; tn_entries := []; tn_committed := false |}.

Definition TraceNode_Log (e : LogEntry) (t : TraceNode) : TraceNode :=
  {| tn_backed := tn_backed t;
     tn_entries := tn_entries t ++ [e];
     tn_committed := tn_committed t |}.

Definition TraceNode_Commit (t : TraceNode) : TraceNode :=
  {| tn_backed := tn_backed t;
     tn_entries := tn_entries t;
     tn_committed := true |}.

(** ** HandshakerArgs *)

(** Modelled from the spec: the struct [HandshakerArgs] of handshaker.h,
    with the fields that handshaker.cc reads and writes. *)
Record HandshakerArgs := {
  endpoint : option grpc_endpoint;
  args : ChannelArgs;
  read_buffer : SliceBuffer;
  exit_early : bool;
  event_engine : option EventEnginePtr;
  deadline : Timestamp;
  acceptor : option grpc_tcp_server_acceptor;
  trace_node : TraceNode
}.

Definition HandshakerArgs_default : HandshakerArgs :=
  {| endpoint := None;
     args := {| GetObject_EventEngine := None; GetObjectRef_BaseNode := None;
                other_args := [] |};
     read_buffer := [];
     exit_early := false;
     event_engine := None;
     deadline := 0%Z;
     acceptor := None;
     trace_node := TraceNode_default |}.

Definition set_endpoint (e : option grpc_endpoint) (a : HandshakerArgs) :=
  {| endpoint := e; args := args a; read_buffer := read_buffer a;
     exit_early := exit_early a; event_engine := event_engine a;
     deadline := deadline a; acceptor := acceptor a;
     trace_node := trace_node a |}.

Definition set_trace_node (t : TraceNode) (a : HandshakerArgs) :=
  {| endpoint := endpoint a; args := args a; read_buffer := read_buffer a;
     exit_early := exit_early a; event_engine := event_engine a;
     deadline := deadline a; acceptor := acceptor a;
     trace_node := t |}.

(** ** Callbacks, closures and the event engine *)

(** The terminal callback handed to [HandshakeManager::DoHandshake], by
    identity. *)
Definition DoneCallback := nat.

(** What the terminal callback receives: [absl::StatusOr<HandshakerArgs*>],
    the only pointer ever stored being [&args_]. *)
Inductive StatusOrArgs :=
| ArgsPtr
| StatusError (error : Status).

(** The continuation a handshaker is given: the lambda of
    [CallNextHandshakerLocked], or some other callable. *)
Inductive HandshakeDoneCallback :=
| ManagerContinuation
| OtherCallback (id : nat).

(** The three lambdas that handshaker.cc hands to the event engine. *)
Inductive Closure :=
| InvokeDoneClosure (on_handshake_done : HandshakeDoneCallback)
                    (status : Status)
| OnDoneClosure (on_handshake_done : option DoneCallback)
                (result : StatusOrArgs)
| DeadlineClosure.

(** Modelled from the spec: the event engine is an external scheduler with
    [Run(task)], [RunAfter(delay, task) -> handle] and [Cancel(handle)];
    posted tasks wait in [run_queue], armed timers in [timers]. *)
Record EventEngine := {
  next_handle : nat;
  timers : list (TaskHandle * Closure);
  run_queue : list Closure
}.

Definition EventEngine_Run (c : Closure) (e : EventEngine) : EventEngine :=
  {| next_handle := next_handle e; timers := timers e;
     run_queue := run_queue e ++ [c] |}.

Definition EventEngine_RunAfter (c : Closure) (e : EventEngine)
  : TaskHandle * EventEngine :=
  (Handle (next_handle e),
   {| next_handle := S (next_handle e);
      timers := timers e ++ [(Handle (next_handle e), c)];
      run_queue := run_queue e |}).

Definition armed (h : TaskHandle) (e : EventEngine) : bool :=
  existsb (fun p => TaskHandle_eqb (fst p) h) (timers e).

Definition EventEngine_Cancel (h : TaskHandle) (e : EventEngine)
  : bool * EventEngine :=
  (armed h e,
   {| next_handle := next_handle e;
      timers := filter (fun p => negb (TaskHandle_eqb (fst p) h)) (timers e);
      run_queue := run_queue e |}).

(** ** The manager and the world around it *)

(** Modelled from the spec: the data members of [HandshakeManager], which
    handshaker.h declares; [on_handshake_done_] is [None] when the
    [AnyInvocable] is empty or has been moved from. *)
Record HandshakeManager := {
  handshakers_ : list Handshaker;
  index_ : nat;
  is_shutdown_ : bool;
  args_ : HandshakerArgs;
  on_handshake_done_ : option DoneCallback;
  deadline_timer_handle_ : TaskHandle
}.

(** [HandshakeManager::HandshakeManager()]. *)
Definition HandshakeManager_new : HandshakeManager :=
  {| handshakers_ := [];
     index_ := 0;
     is_shutdown_ := false;
     args_ := HandshakerArgs_default;
     on_handshake_done_ := None;
     deadline_timer_handle_ := kInvalid |}.

(** Calls that leave the manager, and what a running closure does, in the
    order in which they happen. *)
Inductive Effect :=
| HsDoHandshake (h : Handshaker)
| HsShutdown (h : Handshaker) (error : Status)
| EeRunAfter (delay : Duration) (handle : TaskHandle)
| EeCancel (handle : TaskHandle)
| EeRun (c : Closure)
| EndpointReset (old : option grpc_endpoint)
| TnCommit
| ExecCtxEnter
| ExecCtxExit
| CallOnDone (cb : DoneCallback) (result : StatusOrArgs)
| DestroyOnDone (cb : DoneCallback)
| CallHandshakeDone (cb : HandshakeDoneCallback) (status : Status)
| DestroyHandshakeDone (cb : HandshakeDoneCallback).

Record World := {
  mgr : HandshakeManager;
  engine : EventEngine;
  in_progress : list Handshaker;
  effects : list Effect
}.

Definition World_new : World :=
  {| mgr := HandshakeManager_new;
     engine := {| next_handle := 0; timers := []; run_queue := [] |};
     in_progress := [];
     effects := [] |}.

(** ** A state and failure monad over the world *)

Inductive Failure :=
| CheckFailed (what : string)
| UndefinedBehaviour (what : string)
| NotEnabled.

Inductive Result (A : Type) :=
| Done (a : A)
| Crash (f : Failure).
Arguments Done {A} a.
Arguments Crash {A} f.

Definition M (A : Type) := World -> Result (A * World).

Definition ret {A} (a : A) : M A := fun w => Done (a, w).

Definition bind {A B} (m : M A) (k : A -> M B) : M B :=
  fun w => match m w with
           | Done (a, w') => k a w'
           | Crash f => Crash f
           end.

Definition fail {A} (f : Failure) : M A := fun _ => Crash f.

Declare Scope hs_scope.
Delimit Scope hs_scope with hs.
Notation "x <- m ;; k" := (bind m (fun x => k))
  (at level 61, m at next level, right associativity) : hs_scope.
Notation "m ;; k" := (bind m (fun _ => k))
  (at level 61, right associativity) : hs_scope.
Local Open Scope hs_scope.

Definition get_mgr : M HandshakeManager := fun w => Done (mgr w, w).

Definition put_mgr (m : HandshakeManager) : M unit :=
  fun w => Done (tt, {| mgr := m; engine := engine w;
                        in_progress := in_progress w;
                        effects := effects w |}).

Definition emit (e : Effect) : M unit :=
  fun w => Done (tt, {| mgr := mgr w; engine := engine w;
                        in_progress := in_progress w;
                        effects := effects w ++ [e] |}).

Definition CHECK (b : bool) (what : string) : M unit :=
  if b then ret tt else fail (CheckFailed what).

(** Field assignments on [*this]. *)
Definition set_handshakers (l : list Handshaker) : M unit :=
  m <- get_mgr ;;
  put_mgr {| handshakers_ := l; index_ := index_ m;
             is_shutdown_ := is_shutdown_ m; args_ := args_ m;
             on_handshake_done_ := on_handshake_done_ m;
             deadline_timer_handle_ := deadline_timer_handle_ m |}.

Definition set_index (i : nat) : M unit :=
  m <- get_mgr ;;
  put_mgr {| handshakers_ := handshakers_ m; index_ := i;
             is_shutdown_ := is_shutdown_ m; args_ := args_ m;
             on_handshake_done_ := on_handshake_done_ m;
             deadline_timer_handle_ := deadline_timer_handle_ m |}.

Definition set_is_shutdown (b : bool) : M unit :=
  m <- get_mgr ;;
  put_mgr {| handshakers_ := handshakers_ m; index_ := index_ m;
             is_shutdown_ := b; args_ := args_ m;
             on_handshake_done_ := on_handshake_done_ m;
             deadline_timer_handle_ := deadline_timer_handle_ m |}.

Definition set_args (a : HandshakerArgs) : M unit :=
  m <- get_mgr ;;
  put_mgr {| handshakers_ := handshakers_ m; index_ := index_ m;
             is_shutdown_ := is_shutdown_ m; args_ := a;
             on_handshake_done_ := on_handshake_done_ m;
             deadline_timer_handle_ := deadline_timer_handle_ m |}.

Definition set_on_handshake_done (c : option DoneCallback) : M unit :=
  m <- get_mgr ;;
  put_mgr {| handshakers_ := handshakers_ m; index_ := index_ m;
             is_shutdown_ := is_shutdown_ m; args_ := args_ m;
             on_handshake_done_ := c;
             deadline_timer_handle_ := deadline_timer_handle_ m |}.

Definition set_deadline_timer_handle (h : TaskHandle) : M unit :=
  m <- get_mgr ;;
  put_mgr {| handshakers_ := handshakers_ m; index_ := index_ m;
             is_shutdown_ := is_shutdown_ m; args_ := args_ m;
             on_handshake_done_ := on_handshake_done_ m;
             deadline_timer_handle_ := h |}.

(** [GRPC_CHANNELZ_LOG(args_.trace_node) << ...]. *)
Definition channelz_log (e : LogEntry) : M unit :=
  m <- get_mgr ;;
  set_args (set_trace_node (TraceNode_Log e (trace_node (args_ m))) (args_ m)).

(** [args_.trace_node.Commit()]. *)
Definition trace_node_Commit : M unit :=
  m <- get_mgr ;;
  set_args (set_trace_node (TraceNode_Commit (trace_node (args_ m)))
                           (args_ m)) ;;
  emit TnCommit.

(** [args_.endpoint.reset()]: the endpoint, if any, is destroyed and the
    pointer becomes null. *)
Definition endpoint_reset : M unit :=
  m <- get_mgr ;;
  set_args (set_endpoint None (args_ m)) ;;
  emit (EndpointReset (endpoint (args_ m))).

(** Dereferencing [ptr->event_engine]; a null pointer is undefined
    behaviour. *)
Definition deref_engine (p : option EventEnginePtr) : M unit :=
  match p with
  | Some the_engine => ret tt
  | None => fail (UndefinedBehaviour "null event_engine")
  end.

Definition engine_Run (p : option EventEnginePtr) (c : Closure) : M unit :=
  deref_engine p ;;
  (fun w => Done (tt, {| mgr := mgr w;
                         engine := EventEngine_Run c (engine w);
                         in_progress := in_progress w;
                         effects := effects w |})) ;;
  emit (EeRun c).

Definition engine_RunAfter (p : option EventEnginePtr) (delay : Duration)
    (c : Closure) : M TaskHandle :=
  deref_engine p ;;
  h <- (fun w => let r := EventEngine_RunAfter c (engine w) in
                 Done (fst r, {| mgr := mgr w; engine := snd r;
                                 in_progress := in_progress w;
                                 effects := effects w |})) ;;
  emit (EeRunAfter delay h) ;;
  ret h.

Definition engine_Cancel (p : option EventEnginePtr) (h : TaskHandle)
  : M bool :=
  deref_engine p ;;
  b <- (fun w => let r := EventEngine_Cancel h (engine w) in
                 Done (fst r, {| mgr := mgr w; engine := snd r;
                                 in_progress := in_progress w;
                                 effects := effects w |})) ;;
  emit (EeCancel h) ;;
  ret b.

(** [handshakers_[i]]; an index past the end is undefined behaviour. *)
Definition vector_at (l : list Handshaker) (i : nat) : M Handshaker :=
  match nth_error l i with
  | Some h => ret h
  | None => fail (UndefinedBehaviour "handshakers_ index out of range")
  end.

(** [h->DoHandshake(&args_, continuation)]: the handshaker now holds the
    continuation. *)
Definition handshaker_DoHandshake (h : Handshaker) : M unit :=
  (fun w => Done (tt, {| mgr := mgr w; engine := engine w;
                         in_progress := in_progress w ++ [h];
                         effects := effects w |})) ;;
  emit (HsDoHandshake h).

(** [h->Shutdown(error)]. *)
Definition handshaker_Shutdown (h : Handshaker) (error : Status) : M unit :=
  emit (HsShutdown h error).

(** ** Handshaker::InvokeOnHandshakeDone *)

Definition InvokeOnHandshakeDone (args : HandshakerArgs)
    (on_handshake_done : HandshakeDoneCallback) (status : Status) : M unit :=
  engine_Run (event_engine args) (InvokeDoneClosure on_handshake_done status).

(** ** HandshakeManager *)

(** [HandshakeManager::Add]. *)
Definition Add (handshaker : Handshaker) : M unit :=
  m <- get_mgr ;;
  set_handshakers (handshakers_ m ++ [handshaker]).

(** [HandshakeManager::Shutdown]. *)
Definition Shutdown (error : Status) : M unit :=
  m <- get_mgr ;;
  if negb (is_shutdown_ m) then
    channelz_log (LogShutdownCalled error) ;;
    set_is_shutdown true ;;
    if 0 <? index_ m then
      channelz_log (LogShuttingDownHandshaker (index_ m - 1)) ;;
      h <- vector_at (handshakers_ m) (index_ m - 1) ;;
      handshaker_Shutdown h error
    else ret tt
  else ret tt.

(** [HandshakeManager::CallNextHandshakerLocked].  [index_] is a [size_t];
    it is incremented only where [index_ < handshakers_.size()], so the
    increment cannot wrap and [nat] is exact. *)
Definition CallNextHandshakerLocked (error : Status) : M unit :=
  m <- get_mgr ;;
  CHECK (index_ m <=? List.length (handshakers_ m))
        "index_ <= handshakers_.size()" ;;
  if negb (ok error) || is_shutdown_ m || exit_early (args_ m)
     || (index_ m =? List.length (handshakers_ m)) then
    error <- (if ok error && is_shutdown_ m then
                endpoint_reset ;;
                ret (GRPC_ERROR_CREATE "handshaker shutdown")
              else ret error) ;;
    (if negb (ok error) then channelz_log (LogFailedWithError error)
     else ret tt) ;;
    trace_node_Commit ;;
    engine_Cancel (event_engine (args_ m)) (deadline_timer_handle_ m) ;;
    set_is_shutdown true ;;
    let result := if negb (ok error) then StatusError error else ArgsPtr in
    set_on_handshake_done None ;;
    engine_Run (event_engine (args_ m))
               (OnDoneClosure (on_handshake_done_ m) result)
  else
    handshaker <- vector_at (handshakers_ m) (index_ m) ;;
    channelz_log (LogCallingHandshaker (name handshaker) (index_ m)) ;;
    set_index (S (index_ m)) ;;
    handshaker_DoHandshake handshaker.

(** The trace node built by [DoHandshake]: a fresh child of the channelz
    node of the channel args, or a default node when there is none. *)
Definition new_trace_node (channel_args : ChannelArgs) : TraceNode :=
  match GetObjectRef_BaseNode channel_args with
  | None => TraceNode_default
  | Some _ => {| tn_backed := true; tn_entries := [LogHandshakeConnection];
                 tn_committed := false |}
  end.

(** The [grpc_slice_buffer_swap] of [DoHandshake]: when the acceptor is an
    external connection with pending data, the read buffer and the pending
    data change places. *)
Definition swap_pending_data (read_buffer : SliceBuffer)
    (acceptor : option grpc_tcp_server_acceptor)
  : SliceBuffer * option grpc_tcp_server_acceptor :=
  match acceptor with
  | Some acc =>
      match external_connection acc, pending_data acc with
      | true, Some pending =>
          (pending,
           Some {| external_connection := true;
                   pending_data := Some read_buffer |})
      | _, _ => (read_buffer, acceptor)
      end
  | None => (read_buffer, acceptor)
  end.

(** [HandshakeManager::DoHandshake]; [now] is what [Timestamp::Now()]
    returns. *)
Definition DoHandshake (endpoint : option grpc_endpoint)
    (channel_args : ChannelArgs) (deadline now : Timestamp)
    (acceptor : option grpc_tcp_server_acceptor)
    (on_handshake_done : DoneCallback) : M unit :=
  m <- get_mgr ;;
  CHECK (index_ m =? 0) "index_ == 0u" ;;
  set_on_handshake_done (Some on_handshake_done) ;;
  let a := args_ m in
  let swapped := swap_pending_data (read_buffer a) acceptor in
  set_args {| endpoint := endpoint;
              args := channel_args;
              read_buffer := fst swapped;
              exit_early := exit_early a;
              event_engine := GetObject_EventEngine channel_args;
              deadline := deadline;
              acceptor := snd swapped;
              trace_node := new_trace_node channel_args |} ;;
  let time_to_deadline := (deadline - now)%Z in
  handle <- engine_RunAfter (GetObject_EventEngine channel_args)
                            time_to_deadline DeadlineClosure ;;
  set_deadline_timer_handle handle ;;
  CallNextHandshakerLocked OkStatus.

(** ** Running the closures on the executor *)

(** Calling an [absl::AnyInvocable<void(absl::Status)>]: the manager's
    continuation takes [mu_] and calls [CallNextHandshakerLocked]. *)
Definition call_handshake_done (cb : HandshakeDoneCallback)
    (status : Status) : M unit :=
  emit (CallHandshakeDone cb status) ;;
  match cb with
  | ManagerContinuation => CallNextHandshakerLocked status
  | OtherCallback _ => ret tt
  end.

Definition run_closure (c : Closure) : M unit :=
  match c with
  | InvokeDoneClosure on_handshake_done status =>
      emit ExecCtxEnter ;;
      call_handshake_done on_handshake_done status ;;
      emit (DestroyHandshakeDone on_handshake_done) ;;
      emit ExecCtxExit
  | OnDoneClosure on_handshake_done result =>
      emit ExecCtxEnter ;;
      match on_handshake_done with
      | Some cb =>
          emit (CallOnDone cb result) ;;
          emit (DestroyOnDone cb) ;;
          emit ExecCtxExit
      | None => fail (UndefinedBehaviour "empty AnyInvocable called")
      end
  | DeadlineClosure =>
      emit ExecCtxEnter ;;
      Shutdown (GRPC_ERROR_CREATE "Handshake timed out") ;;
      emit ExecCtxExit
  end.

(** ** The environment: callers, handshakers and the executor *)

(** What the handshaker in progress has stored through [HandshakerArgs*]
    by the time it completes. *)
Record HandshakerWrite := {
  wr_endpoint : option grpc_endpoint;
  wr_args : ChannelArgs;
  wr_read_buffer : SliceBuffer;
  wr_exit_early : bool
}.

Definition apply_write (wr : HandshakerWrite) (a : HandshakerArgs)
  : HandshakerArgs :=
  {| endpoint := wr_endpoint wr; args := wr_args wr;
     read_buffer := wr_read_buffer wr; exit_early := wr_exit_early wr;
     event_engine := event_engine a; deadline := deadline a;
     acceptor := acceptor a; trace_node := trace_node a |}.

Definition Handshaker_eqb (a b : Handshaker) : bool :=
  Nat.eqb (hs_addr a) (hs_addr b) && String.eqb (name a) (name b).

Fixpoint remove_first (h : Handshaker) (l : list Handshaker)
  : option (list Handshaker) :=
  match l with
  | [] => None
  | x :: l' => if Handshaker_eqb x h then Some l'
               else option_map (cons x) (remove_first h l')
  end.

Fixpoint remove_nth {A} (i : nat) (l : list A) : list A :=
  match l, i with
  | [], _ => []
  | _ :: l', 0 => l'
  | x :: l', S j => x :: remove_nth j l'
  end.

(** The handshaker [h] gives up the continuation it holds, having written
    [wr] into the args. *)
Definition handshaker_completes (h : Handshaker) (wr : HandshakerWrite)
  : M unit :=
  fun w => match remove_first h (in_progress w) with
           | None => Crash NotEnabled
           | Some l =>
               (m <- get_mgr ;; set_args (apply_write wr (args_ m)))
                 {| mgr := mgr w; engine := engine w; in_progress := l;
                    effects := effects w |}
           end.

Definition take_timer (h : TaskHandle) : M Closure :=
  fun w => match find (fun p => TaskHandle_eqb (fst p) h)
                      (timers (engine w)) with
           | None => Crash NotEnabled
           | Some p =>
               Done (snd p,
                     {| mgr := mgr w;
                        engine := snd (EventEngine_Cancel h (engine w));
                        in_progress := in_progress w;
                        effects := effects w |})
           end.

Definition take_posted (i : nat) : M Closure :=
  fun w => match nth_error (run_queue (engine w)) i with
           | None => Crash NotEnabled
           | Some c =>
               Done (c,
                     {| mgr := mgr w;
                        engine :=
                          {| next_handle := next_handle (engine w);
                             timers := timers (engine w);
                             run_queue :=
                               remove_nth i (run_queue (engine w)) |};
                        in_progress := in_progress w;
                        effects := effects w |})
           end.

(** One atomic transition of the world: a call of a public member function,
    a timer or a posted closure started by the event engine, or the
    completion of a handshaker, which calls its continuation directly
    ([EvHandshakerDone]) or through [InvokeOnHandshakeDone]
    ([EvHandshakerInvokeDone]).  A handshaker calls the continuation it was
    given once: its completion is enabled only while it holds one.  A timer
    task that had already started when [Cancel] was called is covered by
    [EvShutdown]. *)
Inductive Event :=
| EvAdd (h : Handshaker)
| EvDoHandshake (endpoint : option grpc_endpoint) (channel_args : ChannelArgs)
                (deadline now : Timestamp)
                (acceptor : option grpc_tcp_server_acceptor)
                (on_handshake_done : DoneCallback)
| EvShutdown (error : Status)
| EvTimerFire (handle : TaskHandle)
| EvExecutorRun (i : nat)
| EvHandshakerDone (h : Handshaker) (wr : HandshakerWrite) (status : Status)
| EvHandshakerInvokeDone (h : Handshaker) (wr : HandshakerWrite)
                         (status : Status).

Definition transition (ev : Event) : M unit :=
  match ev with
  | EvAdd h => Add h
  | EvDoHandshake ep ca dl now acc cb => DoHandshake ep ca dl now acc cb
  | EvShutdown error => Shutdown error
  | EvTimerFire handle => c <- take_timer handle ;; run_closure c
  | EvExecutorRun i => c <- take_posted i ;; run_closure c
  | EvHandshakerDone h wr status =>
      handshaker_completes h wr ;;
      CallNextHandshakerLocked status
  | EvHandshakerInvokeDone h wr status =>
      handshaker_completes h wr ;;
      m <- get_mgr ;;
      InvokeOnHandshakeDone (args_ m) ManagerContinuation status
  end.

Definition step (w : World) (ev : Event) : Result World :=
  match transition ev w with
  | Done (_, w') => Done w'
  | Crash f => Crash f
  end.

Fixpoint run (w : World) (evs : list Event) : Result World :=
  match evs with
  | [] => Done w
  | ev :: evs' => match step w ev with
                  | Done w' => run w' evs'
                  | Crash f => Crash f
                  end
  end.

(** Worlds that arise from a newly constructed manager. *)
Definition reachable (w : World) : Prop :=
  exists evs, run World_new evs = Done w.

(** ** Observations on effects and worlds *)

Definition is_DoHandshake_call (e : Effect) : bool :=
  match e with HsDoHandshake _ => true | _ => false end.

Definition is_Shutdown_call (e : Effect) : bool :=
  match e with HsShutdown _ _ => true | _ => false end.

Definition is_handshaker_call (e : Effect) : bool :=
  is_DoHandshake_call e || is_Shutdown_call e.

Definition is_on_done_run (e : Effect) : bool :=
  match e with EeRun (OnDoneClosure _ _) => true | _ => false end.

Definition is_on_done_call (e : Effect) : bool :=
  match e with CallOnDone _ _ => true | _ => false end.

Definition is_commit (e : Effect) : bool :=
  match e with TnCommit => true | _ => false end.

Definition is_on_done_closure (c : Closure) : bool :=
  match c with OnDoneClosure _ _ => true | _ => false end.

Definition is_continuation_closure (c : Closure) : bool :=
  match c with InvokeDoneClosure ManagerContinuation _ => true | _ => false end.

Definition count {A} (p : A -> bool) (l : list A) : nat :=
  List.length (filter p l).

(** Continuations of the manager that have not run yet: held by a
    handshaker, or posted to the executor by [InvokeOnHandshakeDone]. *)
Definition in_flight (w : World) : nat :=
  List.length (in_progress w)
  + count is_continuation_closure (run_queue (engine w)).

(** How often the terminal callback has been posted, has been called, and
    is waiting on the executor. *)
Definition scheduled (w : World) : nat := count is_on_done_run (effects w).
Definition invoked (w : World) : nat := count is_on_done_call (effects w).
Definition queued (w : World) : nat :=
  count is_on_done_closure (run_queue (engine w)).

(** * Definitions used in the statements *)

(** ** The branches of [CallNextHandshakerLocked] *)

(** The condition under which [CallNextHandshakerLocked] finishes the
    handshake, in the words of the specification. *)
Definition terminal (error : Status) (m : HandshakeManager) : Prop :=
  ok error = false \/ is_shutdown_ m = true \/ exit_early (args_ m) = true
  \/ index_ m = List.length (handshakers_ m).

(** The status that the terminal branch reports, and the result it hands
    to the terminal callback. *)
Definition terminal_status (error : Status) (m : HandshakeManager) : Status :=
  if ok error && is_shutdown_ m then GRPC_ERROR_CREATE "handshaker shutdown"
  else error.

Definition terminal_result (error : Status) (m : HandshakeManager)
  : StatusOrArgs :=
  if ok (terminal_status error m) then ArgsPtr
  else StatusError (terminal_status error m).

(** The calls that the terminal branch makes, in order. *)
Definition terminal_effects (error : Status) (m : HandshakeManager)
  : list Effect :=
  (if ok error && is_shutdown_ m then [EndpointReset (endpoint (args_ m))]
   else []) ++
  [TnCommit; EeCancel (deadline_timer_handle_ m);
   EeRun (OnDoneClosure (on_handshake_done_ m) (terminal_result error m))].

(** The preconditions under which [CallNextHandshakerLocked] is called:
    the cursor is in range and [DoHandshake] has stored the event engine. *)
Definition ready (w : World) : Prop :=
  index_ (mgr w) <= List.length (handshakers_ (mgr w)) /\
  event_engine (args_ (mgr w)) = Some the_engine.

(** An effect that is not a call on a handshaker. *)
Definition quiet (e : Effect) : Prop := is_handshaker_call e = false.

(** What can be seen of the terminal branch: possibly the endpoint reset,
    then the commit, the cancelling of the deadline timer and the posting
    of the terminal callback; the cursor stays and the latch is set. *)
Definition took_terminal_branch (w w' : World) : Prop :=
  exists pre r,
    effects w' = effects w ++ pre ++
      [TnCommit; EeCancel (deadline_timer_handle_ (mgr w));
       EeRun (OnDoneClosure (on_handshake_done_ (mgr w)) r)] /\
    Forall quiet pre /\
    run_queue (engine w') =
      run_queue (engine w) ++ [OnDoneClosure (on_handshake_done_ (mgr w)) r] /\
    index_ (mgr w') = index_ (mgr w) /\
    in_progress w' = in_progress w /\
    is_shutdown_ (mgr w') = true.

(** What can be seen of the other branch: [handshakers_[index_]] is read,
    the cursor moves by one and that handshaker's [DoHandshake] is
    called. *)
Definition called_next_handshaker (w w' : World) : Prop :=
  exists h,
    nth_error (handshakers_ (mgr w)) (index_ (mgr w)) = Some h /\
    effects w' = effects w ++ [HsDoHandshake h] /\
    index_ (mgr w') = S (index_ (mgr w)) /\
    in_progress w' = in_progress w ++ [h] /\
    engine w' = engine w /\
    is_shutdown_ (mgr w') = is_shutdown_ (mgr w).

(** ** Invariants of the reachable worlds *)

(** Which posted closures may be run: an empty [AnyInvocable] must never
    be called. *)
Definition callable (c : Closure) : bool :=
  match c with OnDoneClosure None _ => false | _ => true end.

Definition is_deadline_timer (p : TaskHandle * Closure) : bool :=
  match snd p with DeadlineClosure => true | _ => false end.

(** Only [DoHandshake] arms timers, and only with the deadline lambda. *)
Definition timers_ok (w : World) : Prop :=
  forallb is_deadline_timer (timers (engine w)) = true.

Definition Inv (w : World) : Prop :=
  index_ (mgr w) <= List.length (handshakers_ (mgr w)) /\
  in_flight w <= 1 /\
  (in_flight w = 1 ->
   0 < index_ (mgr w) /\ on_handshake_done_ (mgr w) <> None /\
   event_engine (args_ (mgr w)) = Some the_engine) /\
  (forall h, In h (in_progress w) ->
             nth_error (handshakers_ (mgr w)) (index_ (mgr w) - 1) = Some h) /\
  forallb callable (run_queue (engine w)) = true /\
  scheduled w = invoked w + queued w.

Definition is_DoHandshake_event (ev : Event) : bool :=
  match ev with EvDoHandshake _ _ _ _ _ _ => true | _ => false end.

Definition is_callback_effect (e : Effect) : bool :=
  match e with
  | CallHandshakeDone _ _ | DestroyHandshakeDone _
  | CallOnDone _ _ | DestroyOnDone _ | ExecCtxEnter | ExecCtxExit => true
  | _ => false
  end.

(** The callback that a step may post: the one stored in the manager, or
    the one that [DoHandshake] is just storing. *)
Definition expected_callback (w : World) (ev : Event) : option DoneCallback :=
  match ev with
  | EvDoHandshake _ _ _ _ _ cb => Some cb
  | _ => on_handshake_done_ (mgr w)
  end.

Definition Good (w : World) : Prop :=
  timers_ok w /\ Inv w /\
  index_ (mgr w) = count is_DoHandshake_call (effects w) /\
  (0 < scheduled w -> is_shutdown_ (mgr w) = true) /\
  (is_shutdown_ (mgr w) = false -> count is_Shutdown_call (effects w) = 0) /\
  count is_Shutdown_call (effects w) <= 1.

(** Nothing is called on a handshaker after the terminal callback has
    been posted. *)
Definition quiet_after_done (w : World) : Prop :=
  forall pre e post,
    effects w = pre ++ e :: post -> is_on_done_run e = true ->
    Forall quiet post.

(** ** One handshake, from [DoHandshake] to the terminal callback *)

(** Within a list of effects: the deadline timer [h] is cancelled, then
    the terminal callback [cb] is posted with result [r]; nothing else in
    the list posts a terminal callback. *)
Inductive Scheduled (h : TaskHandle) (cb : option DoneCallback)
  : list Effect -> Prop :=
| Scheduled_here r post :
    count is_on_done_run post = 0 ->
    Scheduled h cb (EeCancel h :: EeRun (OnDoneClosure cb r) :: post)
| Scheduled_later e d :
    is_on_done_run e = false -> Scheduled h cb d -> Scheduled h cb (e :: d).

(** The state of the handshake started by a [DoHandshake] call with
    callback [cb] whose deadline timer is [h], in a world whose effects were
    [L0] and whose executor held [q0] terminal callbacks before the call:
    either a continuation is in flight and nothing has been posted, or
    nothing is in flight and the callback has been posted once, after the
    timer was cancelled. *)
Definition handshake_state (h : TaskHandle) (cb : DoneCallback)
    (L0 : list Effect) (q0 : nat) (w : World) : Prop :=
  deadline_timer_handle_ (mgr w) = h /\
  exists delta,
    effects w = L0 ++ delta /\
    (exists d rest, delta = EeRunAfter d h :: rest) /\
    count is_on_done_call delta + queued w =
      q0 + count is_on_done_run delta /\
    ((in_flight w = 1 /\ on_handshake_done_ (mgr w) = Some cb /\
      count is_on_done_run delta = 0) \/
     (in_flight w = 0 /\ Scheduled h (Some cb) delta)).

(** ** Example data *)

Definition ex_h1 : Handshaker := {| hs_addr := 1; name := "proxy" |}.
Definition ex_h2 : Handshaker := {| hs_addr := 2; name := "security" |}.

Definition ex_channel_args : ChannelArgs :=
  {| GetObject_EventEngine := Some the_engine;
     GetObjectRef_BaseNode := Some 7;
     other_args := [] |}.

Definition ex_write : HandshakerWrite :=
  {| wr_endpoint := Some 5; wr_args := ex_channel_args;
     wr_read_buffer := []; wr_exit_early := false |}.

Definition ex_start : Event :=
  EvDoHandshake (Some 5) ex_channel_args 100%Z 10%Z None 42.

Definition world_after (evs : list Event) : World :=
  match run World_new evs with Done w => w | Crash _ => World_new end.

Definition ex_added : World := Eval cbv in world_after [EvAdd ex_h1].
Definition ex_started : World :=
  Eval cbv in world_after [EvAdd ex_h1; ex_start].
Definition ex_cancelled : World :=
  Eval cbv in
    world_after [EvAdd ex_h1; ex_start;
                 EvShutdown (ErrorStatus kCancelled "cancel")].

Definition ex_completed : World :=
  Eval cbv in
    world_after [EvAdd ex_h1; ex_start;
                 EvHandshakerDone ex_h1 ex_write OkStatus].

Definition ex_happy_path : list Event :=
  [EvAdd ex_h1; EvAdd ex_h2; ex_start;
   EvHandshakerDone ex_h1 ex_write OkStatus;
   EvHandshakerDone ex_h2 ex_write OkStatus].

Definition ex_null_endpoint : list Event :=
  [EvDoHandshake None ex_channel_args 100%Z 10%Z None 42].

(** ** Further observations on the handshake pipeline *)

(** The handshakers whose [DoHandshake] has been called, in call order. *)
Fixpoint invoked_handshakers (l : list Effect) : list Handshaker :=
  match l with
  | [] => []
  | HsDoHandshake h :: l' => h :: invoked_handshakers l'
  | _ :: l' => invoked_handshakers l'
  end.

(** A posted terminal callback is well formed when the callback is not
    empty and the [StatusOr] does not carry an ok status as its error. *)
Definition well_formed_post (e : Effect) : bool :=
  match e with
  | EeRun (OnDoneClosure None _) => false
  | EeRun (OnDoneClosure (Some _) (StatusError error)) => negb (ok error)
  | _ => true
  end.

(** At most the deadline timer of the handshake under way is armed. *)
Definition timer_state (w : World) : Prop :=
  (timers (engine w) = [] \/
   timers (engine w) = [(deadline_timer_handle_ (mgr w), DeadlineClosure)]) /\
  (in_flight w = 0 -> timers (engine w) = []).

Definition ex_finished : World := Eval cbv in world_after ex_happy_path.


Definition ex_shutdown_won : World :=
  Eval cbv in
    world_after [EvAdd ex_h1; ex_start;
                 EvShutdown (ErrorStatus kCancelled "cancel");
                 EvHandshakerDone ex_h1 ex_write OkStatus].

(** * Library initialisation: [src/core/lib/surface/init.cc] *)

(** The calls that the functions of [init.cc] make into the rest of the
    library, as they appear in a log of the process. *)
Inductive InitCall :=
| SetInternalHooks
| gpr_log_verbosity_init
| gpr_time_init
| PrintExperimentsList
| Fork_GlobalInit
| grpc_fork_handlers_auto_register
| grpc_tracer_init
| grpc_client_channel_global_init_backup_polling
| SignalAll
| grpc_iomgr_init
| address_sorting_init
| AresInit
| grpc_resolver_dns_ares_reset_dns_resolver
| grpc_resolver_dns_ares_init
| grpc_iomgr_start
| ExecCtx_ctor
| ExecCtx_dtor
| grpc_iomgr_shutdown_background_closure
| grpc_timer_manager_set_threading (enabled : bool)
| address_sorting_shutdown
| AresShutdown
| grpc_resolver_dns_ares_shutdown
| grpc_iomgr_shutdown
| Thread_Start.

(** The file's static variables. The two pointers are null until
    [do_basic_init] has run; [cleanup_threads] counts the detached threads
    that [grpc_shutdown] has started and that have not run yet. The
    initialiser of [g_initializations], which sets the default builder of
    the core configuration before any of the functions runs, is left
    out. *)
Record Globals := {
  g_basic_init : bool;
  g_init_mu : bool;
  g_shutting_down_cv : bool;
  g_initializations : Z;
  g_shutting_down : bool;
  cleanup_threads : nat;
  init_calls : list InitCall
}.

Definition Globals_new : Globals :=
  {| g_basic_init := false; g_init_mu := false; g_shutting_down_cv := false;
     g_initializations := 0; g_shutting_down := false;
     cleanup_threads := 0; init_calls := [] |}.

(** [int] has 32 bits on the platforms of the library. *)
Definition INT_MAX : Z := 2147483647.
Definition INT_MIN : Z := -2147483648.

Definition IM (A : Type) := Globals -> Result (A * Globals).

Definition iret {A} (a : A) : IM A := fun s => Done (a, s).

Definition ibind {A B} (m : IM A) (k : A -> IM B) : IM B :=
  fun s => match m s with
           | Done (a, s') => k a s'
           | Crash f => Crash f
           end.

Declare Scope init_scope.
Delimit Scope init_scope with init.
Notation "x <- m ;; k" := (ibind m (fun x => k))
  (at level 61, m at next level, right associativity) : init_scope.
Notation "m ;; k" := (ibind m (fun _ => k))
  (at level 61, right associativity) : init_scope.
Local Open Scope init_scope.

Definition call (c : InitCall) : IM unit :=
  fun s => Done (tt, {| g_basic_init := g_basic_init s;
                        g_init_mu := g_init_mu s;
                        g_shutting_down_cv := g_shutting_down_cv s;
                        g_initializations := g_initializations s;
                        g_shutting_down := g_shutting_down s;
                        cleanup_threads := cleanup_threads s;
                        init_calls := init_calls s ++ [c] |}).

Definition get_initializations : IM Z :=
  fun s => Done (g_initializations s, s).

Definition set_initializations (n : Z) : IM unit :=
  fun s => Done (tt, {| g_basic_init := g_basic_init s;
                        g_init_mu := g_init_mu s;
                        g_shutting_down_cv := g_shutting_down_cv s;
                        g_initializations := n;
                        g_shutting_down := g_shutting_down s;
                        cleanup_threads := cleanup_threads s;
                        init_calls := init_calls s |}).

Definition get_shutting_down : IM bool :=
  fun s => Done (g_shutting_down s, s).

Definition set_shutting_down (b : bool) : IM unit :=
  fun s => Done (tt, {| g_basic_init := g_basic_init s;
                        g_init_mu := g_init_mu s;
                        g_shutting_down_cv := g_shutting_down_cv s;
                        g_initializations := g_initializations s;
                        g_shutting_down := b;
                        cleanup_threads := cleanup_threads s;
                        init_calls := init_calls s |}).

Definition set_cleanup_threads (n : nat) : IM unit :=
  fun s => Done (tt, {| g_basic_init := g_basic_init s;
                        g_init_mu := g_init_mu s;
                        g_shutting_down_cv := g_shutting_down_cv s;
                        g_initializations := g_initializations s;
                        g_shutting_down := g_shutting_down s;
                        cleanup_threads := n;
                        init_calls := init_calls s |}).

(** [++g_initializations] and [--g_initializations]: the new value;
    overflow of a signed [int] is undefined. *)
Definition pre_increment : IM Z :=
  n <- get_initializations ;;
  if (n =? INT_MAX)%Z
  then fun _ => Crash (UndefinedBehaviour "signed integer overflow")
  else set_initializations (n + 1) ;; iret (n + 1)%Z.

Definition pre_decrement : IM Z :=
  n <- get_initializations ;;
  if (n =? INT_MIN)%Z
  then fun _ => Crash (UndefinedBehaviour "signed integer overflow")
  else set_initializations (n - 1) ;; iret (n - 1)%Z.

(** [grpc_core::MutexLock lock(g_init_mu)]: locks through the pointer. The
    mutex is released when the function returns; every function below is
    one critical section. *)
Definition MutexLock_g_init_mu : IM unit :=
  fun s => if g_init_mu s then Done (tt, s)
           else Crash (UndefinedBehaviour "g_init_mu is null").

(** [g_shutting_down_cv->SignalAll()]. *)
Definition cv_SignalAll : IM unit :=
  fun s => if g_shutting_down_cv s then call SignalAll s
           else Crash (UndefinedBehaviour "g_shutting_down_cv is null").

(** [do_basic_init]. *)
Definition do_basic_init : IM unit :=
  call SetInternalHooks ;;
  call gpr_log_verbosity_init ;;
  (fun s => Done (tt, {| g_basic_init := g_basic_init s;
                         g_init_mu := true;
                         g_shutting_down_cv := true;
                         g_initializations := g_initializations s;
                         g_shutting_down := g_shutting_down s;
                         cleanup_threads := cleanup_threads s;
                         init_calls := init_calls s |})) ;;
  call gpr_time_init ;;
  call PrintExperimentsList ;;
  call Fork_GlobalInit ;;
  call grpc_fork_handlers_auto_register ;;
  call grpc_tracer_init ;;
  call grpc_client_channel_global_init_backup_polling.

(** [gpr_once_init(&g_basic_init, do_basic_init)]. *)
Definition gpr_once_init_basic : IM unit :=
  fun s => if g_basic_init s then Done (tt, s)
           else do_basic_init
                  {| g_basic_init := true;
                     g_init_mu := g_init_mu s;
                     g_shutting_down_cv := g_shutting_down_cv s;
                     g_initializations := g_initializations s;
                     g_shutting_down := g_shutting_down s;
                     cleanup_threads := cleanup_threads s;
                     init_calls := init_calls s |}.

(** [grpc_init]; [dns_ee] is what [IsEventEngineDnsEnabled()] returns and
    [ares_ok] whether the status of [AresInit()] is ok. *)
Definition grpc_init (dns_ee ares_ok : bool) : IM unit :=
  gpr_once_init_basic ;;
  MutexLock_g_init_mu ;;
  n <- pre_increment ;;
  if (n =? 1)%Z then
    sd <- get_shutting_down ;;
    (if sd then set_shutting_down false ;; cv_SignalAll else iret tt) ;;
    call grpc_iomgr_init ;;
    (if dns_ee then
       call address_sorting_init ;;
       call AresInit ;;
       if ares_ok then call grpc_resolver_dns_ares_reset_dns_resolver
       else iret tt
     else call grpc_resolver_dns_ares_init) ;;
    call grpc_iomgr_start
  else iret tt.

(** [grpc_shutdown_internal_locked]. *)
Definition grpc_shutdown_internal_locked (dns_ee : bool) : IM unit :=
  call ExecCtx_ctor ;;
  call grpc_iomgr_shutdown_background_closure ;;
  call (grpc_timer_manager_set_threading false) ;;
  (if dns_ee then call address_sorting_shutdown ;; call AresShutdown
   else call grpc_resolver_dns_ares_shutdown) ;;
  call grpc_iomgr_shutdown ;;
  call ExecCtx_dtor ;;
  set_shutting_down false ;;
  cv_SignalAll.

(** [grpc_shutdown_from_cleanup_thread]. *)
Definition grpc_shutdown_from_cleanup_thread (dns_ee : bool) : IM unit :=
  MutexLock_g_init_mu ;;
  n <- pre_decrement ;;
  if negb (n =? 0)%Z then iret tt
  else grpc_shutdown_internal_locked dns_ee.

(** [grpc_shutdown]; the three flags are what
    [grpc_iomgr_is_any_background_poller_thread()],
    [TimerManager::IsTimerManagerThread()] and [ExecCtx::Get() == nullptr]
    give on the calling thread. *)
Definition grpc_shutdown (dns_ee : bool)
    (background_poller_thread timer_manager_thread exec_ctx_null : bool)
  : IM unit :=
  MutexLock_g_init_mu ;;
  n <- pre_decrement ;;
  if (n =? 0)%Z then
    if negb background_poller_thread && negb timer_manager_thread
       && exec_ctx_null
    then
      set_shutting_down true ;;
      grpc_shutdown_internal_locked dns_ee
    else
      m <- get_initializations ;;
      (if (m =? INT_MAX)%Z
       then fun _ => Crash (UndefinedBehaviour "signed integer overflow")
       else set_initializations (m + 1)) ;;
      set_shutting_down true ;;
      call Thread_Start ;;
      fun s => set_cleanup_threads (S (cleanup_threads s)) s
  else iret tt.

(** [grpc_shutdown_blocking]. *)
Definition grpc_shutdown_blocking (dns_ee : bool) : IM unit :=
  MutexLock_g_init_mu ;;
  n <- pre_decrement ;;
  if (n =? 0)%Z then
    set_shutting_down true ;;
    grpc_shutdown_internal_locked dns_ee
  else iret tt.

(** [grpc_is_initialized]. *)
Definition grpc_is_initialized : IM Z :=
  gpr_once_init_basic ;;
  MutexLock_g_init_mu ;;
  n <- get_initializations ;;
  iret (if (0 <? n)%Z then 1%Z else 0%Z).

(** [grpc_maybe_wait_for_async_shutdown], up to the first test of its loop
    condition: [true] when the call returns, [false] when it waits on the
    condition variable. *)
Definition grpc_maybe_wait_for_async_shutdown : IM bool :=
  gpr_once_init_basic ;;
  MutexLock_g_init_mu ;;
  sd <- get_shutting_down ;;
  iret (negb sd).

(** [grpc_wait_for_shutdown_with_timeout], one turn of its loop:
    [Some true] and [Some false] are the values returned, [None] stands for
    another turn; [timed_out] is what [WaitWithDeadline] returns. *)
Definition grpc_wait_for_shutdown_with_timeout (timed_out : bool)
  : IM (option bool) :=
  gpr_once_init_basic ;;
  MutexLock_g_init_mu ;;
  n <- get_initializations ;;
  if negb (n =? 0)%Z then
    if timed_out then iret (Some false) else iret None
  else iret (Some true).

Local Close Scope init_scope.

(** ** The process: calls of the API from any thread, and the cleanup
    threads *)

Inductive InitEvent :=
| IEvInit (dns_ee ares_ok : bool)
| IEvShutdown (dns_ee background_poller_thread timer_manager_thread
               exec_ctx_null : bool)
| IEvShutdownBlocking (dns_ee : bool)
| IEvCleanupThread (dns_ee : bool)
| IEvIsInitialized
| IEvMaybeWait
| IEvWaitWithTimeout (timed_out : bool).

Definition forget {A} (r : Result (A * Globals)) : Result Globals :=
  match r with Done (_, s) => Done s | Crash f => Crash f end.

Definition init_step (s : Globals) (ev : InitEvent) : Result Globals :=
  match ev with
  | IEvInit dns_ee ares_ok => forget (grpc_init dns_ee ares_ok s)
  | IEvShutdown dns_ee bg tm ctx => forget (grpc_shutdown dns_ee bg tm ctx s)
  | IEvShutdownBlocking dns_ee => forget (grpc_shutdown_blocking dns_ee s)
  | IEvCleanupThread dns_ee =>
      match cleanup_threads s with
      | 0 => Crash NotEnabled
      | S n =>
          forget (ibind (set_cleanup_threads n)
                    (fun _ => grpc_shutdown_from_cleanup_thread dns_ee) s)
      end
  | IEvIsInitialized => forget (grpc_is_initialized s)
  | IEvMaybeWait => forget (grpc_maybe_wait_for_async_shutdown s)
  | IEvWaitWithTimeout timed_out =>
      forget (grpc_wait_for_shutdown_with_timeout timed_out s)
  end.

Fixpoint init_run (s : Globals) (evs : list InitEvent) : Result Globals :=
  match evs with
  | [] => Done s
  | ev :: evs' =>
      match init_step s ev with
      | Done s' => init_run s' evs'
      | Crash f => Crash f
      end
  end.

Definition init_reachable (s : Globals) : Prop :=
  exists evs, init_run Globals_new evs = Done s.

(** Whether the I/O manager is up after the calls of a log that starts
    with the manager in state [up]; [None] when the log initialises it
    twice in a row or shuts it down while it is down. *)
Fixpoint iomgr_state (up : bool) (l : list InitCall) : option bool :=
  match l with
  | [] => Some up
  | grpc_iomgr_init :: l' => if up then None else iomgr_state true l'
  | grpc_iomgr_shutdown :: l' => if up then iomgr_state false l' else None
  | _ :: l' => iomgr_state up l'
  end.

Definition is_init_event (ev : InitEvent) : bool :=
  match ev with IEvInit _ _ => true | _ => false end.

Definition is_shutdown_event (ev : InitEvent) : bool :=
  match ev with
  | IEvShutdown _ _ _ _ | IEvShutdownBlocking _ => true
  | _ => false
  end.

Definition is_SignalAll (c : InitCall) : bool :=
  match c with SignalAll => true | _ => false end.

Definition is_iomgr_shutdown (c : InitCall) : bool :=
  match c with grpc_iomgr_shutdown => true | _ => false end.

Definition is_gpr_time_init (c : InitCall) : bool :=
  match c with gpr_time_init => true | _ => false end.

(** What holds of the statics between any two critical sections. *)
Definition InitInv (s : Globals) : Prop :=
  g_init_mu s = g_basic_init s /\
  g_shutting_down_cv s = g_basic_init s /\
  (INT_MIN <= g_initializations s <= INT_MAX)%Z /\
  iomgr_state false (init_calls s) = Some (0 <? g_initializations s)%Z /\
  (g_shutting_down s = true -> (0 < g_initializations s)%Z) /\
  count is_SignalAll (init_calls s) = count is_iomgr_shutdown (init_calls s) /\
  count is_gpr_time_init (init_calls s) = (if g_basic_init s then 1 else 0) /\
  (g_basic_init s = false -> init_calls s = []).

Definition ex_init_up : Globals :=
  Eval cbv in
    match init_run Globals_new [IEvInit true true] with
    | Done s => s
    | Crash _ => Globals_new
    end.

(** The calls of [do_basic_init], of the first [grpc_init] and of the last
    shutdown, in order. *)
Definition basic_init_calls : list InitCall :=
  [SetInternalHooks; gpr_log_verbosity_init; gpr_time_init;
   PrintExperimentsList; Fork_GlobalInit; grpc_fork_handlers_auto_register;
   grpc_tracer_init; grpc_client_channel_global_init_backup_polling].

Definition init_sequence (dns_ee ares_ok : bool) : list InitCall :=
  [grpc_iomgr_init] ++
  (if dns_ee
   then [address_sorting_init; AresInit] ++
        (if ares_ok then [grpc_resolver_dns_ares_reset_dns_resolver] else [])
   else [grpc_resolver_dns_ares_init]) ++
  [grpc_iomgr_start].

Definition shutdown_sequence (dns_ee : bool) : list InitCall :=
  [ExecCtx_ctor; grpc_iomgr_shutdown_background_closure;
   grpc_timer_manager_set_threading false] ++
  (if dns_ee then [address_sorting_shutdown; AresShutdown]
   else [grpc_resolver_dns_ares_shutdown]) ++
  [grpc_iomgr_shutdown; ExecCtx_dtor; SignalAll].

(** The statics with another value of the counter. *)
Definition with_initializations (n : Z) (s : Globals) : Globals :=
  {| g_basic_init := g_basic_init s;
     g_init_mu := g_init_mu s;
     g_shutting_down_cv := g_shutting_down_cv s;
     g_initializations := n;
     g_shutting_down := g_shutting_down s;
     cleanup_threads := cleanup_threads s;
     init_calls := init_calls s |}.

Definition init_state_after (evs : list InitEvent) : Globals :=
  match init_run Globals_new evs with Done s => s | Crash _ => Globals_new end.

Definition ex_init_async : Globals :=
  Eval cbv in
    init_state_after [IEvInit true true; IEvShutdown true true false true].

Definition ex_init_reinit : Globals :=
  Eval cbv in
    init_state_after [IEvInit true true; IEvShutdown true true false true;
                      IEvInit true true].

Definition ex_init_down : Globals :=
  Eval cbv in
    init_state_after [IEvInit true true; IEvShutdownBlocking true].

(** * Parsing a route configuration:
      [src/core/xds/grpc/xds_route_config_parser.cc] *)

(** ** The [ValidationErrors] object, through the calls made on it *)

Inductive ErrorsOp :=
| PushField (field : string)
| PopField
| AddError (error : string).

Definition ValidationErrors := list ErrorsOp.

Definition V (A : Type) := ValidationErrors -> A * ValidationErrors.

Definition vret {A} (a : A) : V A := fun errors => (a, errors).

Definition vbind {A B} (m : V A) (k : A -> V B) : V B :=
  fun errors => k (fst (m errors)) (snd (m errors)).

Declare Scope xds_scope.
Delimit Scope xds_scope with xds.
Notation "x <- m ;; k" := (vbind m (fun x => k))
  (at level 61, m at next level, right associativity) : xds_scope.
Notation "m ;; k" := (vbind m (fun _ => k))
  (at level 61, right associativity) : xds_scope.
Local Open Scope xds_scope.

(** [errors->AddError(error)]. *)
Definition errors_AddError (error : string) : V unit :=
  fun errors => (tt, errors ++ [AddError error]).

(** [ValidationErrors::ScopedField field(errors, name)] around the rest of
    its block: the field is pushed, and popped when the block is left, by
    whichever way. *)
Definition ScopedField {A} (field : string) (block : V A) : V A :=
  fun errors =>
    (fst (block (errors ++ [PushField field])),
     snd (block (errors ++ [PushField field])) ++ [PopField]).

(** A function of another file that is handed [errors]: what it returns
    and the calls it makes on [errors]. *)
Definition external {A} (r : A * list ErrorsOp) : V A :=
  fun errors => (fst r, errors ++ snd r).

(** A [size_t] as [absl::StrCat] prints it. *)
Definition StrCat_size_t (i : nat) : string :=
  NilEmpty.string_of_uint (Nat.to_uint i).

Definition UINT32_MAX : Z := 4294967295.

(** [uint32_t] multiplication. *)
Definition uint32_mul (a b : Z) : Z := ((a * b) mod 4294967296)%Z.

(** [uint64_t] addition. *)
Definition uint64_add (a b : Z) : Z := ((a + b) mod 18446744073709551616)%Z.

(** [absl::StrSplit(s, d)]: the pieces between the delimiters; an empty
    text has one empty piece. *)
Fixpoint StrSplit (s : string) (d : ascii) : list string :=
  match s with
  | EmptyString => [EmptyString]
  | String c s' =>
      if Ascii.eqb c d then EmptyString :: StrSplit s' d
      else match StrSplit s' d with
           | [] => [String c EmptyString]
           | x :: xs => String c x :: xs
           end
  end.

(** [absl::StrSplit(s, absl::MaxSplits(d, limit))]: at most [limit]
    splits; the last piece is the rest of the text. *)
Fixpoint StrSplit_MaxSplits (s : string) (d : ascii) (limit : nat)
  : list string :=
  match s with
  | EmptyString => [EmptyString]
  | String c s' =>
      match limit with
      | 0 => [s]
      | S limit' =>
          if Ascii.eqb c d then EmptyString :: StrSplit_MaxSplits s' d limit'
          else match StrSplit_MaxSplits s' d limit with
               | [] => [String c EmptyString]
               | x :: xs => String c x :: xs
               end
      end
  end.

Definition string_empty (s : string) : bool :=
  match s with EmptyString => true | _ => false end.

(** ** The messages of the route configuration, as far as the parser
    reads them *)

Record envoy_type_v3_FractionalPercent := {
  fp_numerator : Z;
  fp_denominator : Z
}.

Definition envoy_type_v3_FractionalPercent_HUNDRED : Z := 0.
Definition envoy_type_v3_FractionalPercent_TEN_THOUSAND : Z := 1.
Definition envoy_type_v3_FractionalPercent_MILLION : Z := 2.

Record envoy_config_core_v3_RuntimeFractionalPercent := {
  rfp_default_value : option envoy_type_v3_FractionalPercent
}.

Record envoy_type_v3_Int64Range := { range_start : Z; range_end : Z }.

(** Messages that the parser only hands on. *)
Inductive envoy_type_matcher_v3_StringMatcher :=
| StringMatcher_proto (id : nat).
Inductive google_protobuf_Any := Any_proto (id : nat).
Inductive TypedPerFilterConfig_parent := PerFilterConfig_of (id : nat).

Record google_protobuf_Duration := { dur_seconds : Z; dur_nanos : Z }.

Inductive HeaderMatcher_specifier :=
| hm_string_match (m : envoy_type_matcher_v3_StringMatcher)
| hm_exact_match (s : string)
| hm_prefix_match (s : string)
| hm_suffix_match (s : string)
| hm_contains_match (s : string)
| hm_safe_regex_match (regex : string)
| hm_range_match (r : envoy_type_v3_Int64Range)
| hm_present_match (b : bool)
| hm_not_set.

Record envoy_config_route_v3_HeaderMatcher := {
  hm_name : string;
  hm_invert_match : bool;
  hm_specifier : HeaderMatcher_specifier
}.

Inductive RouteMatch_path_specifier :=
| rm_prefix (prefix : string)
| rm_path (path : string)
| rm_safe_regex (regex : string)
| rm_other_specifier.

Record envoy_config_route_v3_RouteMatch := {
  rm_case_sensitive : option bool;
  rm_path_specifier : RouteMatch_path_specifier;
  rm_headers : list envoy_config_route_v3_HeaderMatcher;
  rm_query_parameters_size : nat;
  rm_runtime_fraction : option envoy_config_core_v3_RuntimeFractionalPercent
}.

Record envoy_config_route_v3_RetryPolicy_RetryBackOff := {
  rbo_base_interval : option google_protobuf_Duration;
  rbo_max_interval : option google_protobuf_Duration
}.

Record envoy_config_route_v3_RetryPolicy := {
  rp_retry_on : string;
  rp_num_retries : option Z;
  rp_retry_back_off : option envoy_config_route_v3_RetryPolicy_RetryBackOff
}.

Record envoy_type_matcher_v3_RegexMatchAndSubstitute := {
  rms_pattern : option string;
  rms_substitution : string
}.

Record HashPolicy_Header_proto := {
  hph_header_name : string;
  hph_regex_rewrite : option envoy_type_matcher_v3_RegexMatchAndSubstitute
}.

Inductive HashPolicy_policy_specifier :=
| hp_header (h : HashPolicy_Header_proto)
| hp_filter_state (key : string)
| hp_other_specifier.

Record envoy_config_route_v3_RouteAction_HashPolicy := {
  hpp_terminal : bool;
  hpp_policy_specifier : HashPolicy_policy_specifier
}.

Record envoy_config_route_v3_RouteAction_MaxStreamDuration := {
  msd_grpc_timeout_header_max : option google_protobuf_Duration;
  msd_max_stream_duration : option google_protobuf_Duration
}.

Record envoy_config_route_v3_WeightedCluster_ClusterWeight := {
  cwp_name : string;
  cwp_weight : option Z;
  cwp_typed_per_filter_config : TypedPerFilterConfig_parent
}.

Inductive RouteAction_cluster_specifier :=
| ra_cluster (cluster : string)
| ra_weighted_clusters
    (clusters : list envoy_config_route_v3_WeightedCluster_ClusterWeight)
| ra_cluster_specifier_plugin (plugin : string)
| ra_other_specifier.

Record envoy_config_route_v3_RouteAction := {
  ra_max_stream_duration :
    option envoy_config_route_v3_RouteAction_MaxStreamDuration;
  ra_hash_policy : list envoy_config_route_v3_RouteAction_HashPolicy;
  ra_retry_policy : option envoy_config_route_v3_RetryPolicy;
  ra_auto_host_rewrite : option bool;
  ra_cluster_specifier : RouteAction_cluster_specifier
}.

Inductive Route_action_proto :=
| route_route (r : envoy_config_route_v3_RouteAction)
| route_non_forwarding_action
| route_other_action.

Record envoy_config_route_v3_Route := {
  rt_match : option envoy_config_route_v3_RouteMatch;
  rt_action : Route_action_proto;
  rt_typed_per_filter_config : TypedPerFilterConfig_parent
}.

Record envoy_config_route_v3_VirtualHost := {
  vh_domains : list string;
  vh_typed_per_filter_config : TypedPerFilterConfig_parent;
  vh_retry_policy : option envoy_config_route_v3_RetryPolicy;
  vh_routes : list envoy_config_route_v3_Route
}.

Record envoy_config_core_v3_TypedExtensionConfig := {
  tec_name : string;
  tec_typed_config : option google_protobuf_Any
}.

Record envoy_config_route_v3_ClusterSpecifierPlugin := {
  csp_is_optional : bool;
  csp_extension : option envoy_config_core_v3_TypedExtensionConfig
}.

Record envoy_config_route_v3_RouteConfiguration := {
  rc_name : string;
  rc_cluster_specifier_plugins :
    list envoy_config_route_v3_ClusterSpecifierPlugin;
  rc_virtual_hosts : list envoy_config_route_v3_VirtualHost
}.

(** ** The resource that the parser builds *)

Inductive StringMatcher_Type :=
| StringMatcher_kExact | StringMatcher_kPrefix | StringMatcher_kSuffix
| StringMatcher_kSafeRegex | StringMatcher_kContains.

(** A [StringMatcher], by the arguments it was created from, or as
    [StringMatcherParse] returned it. *)
Inductive StringMatcher :=
| StringMatcher_Created (type : StringMatcher_Type) (matcher : string)
    (case_sensitive : bool)
| StringMatcher_Parsed (m : envoy_type_matcher_v3_StringMatcher).

Inductive HeaderMatcher_Type :=
| HeaderMatcher_kExact | HeaderMatcher_kPrefix | HeaderMatcher_kSuffix
| HeaderMatcher_kSafeRegex | HeaderMatcher_kContains
| HeaderMatcher_kRange | HeaderMatcher_kPresent.

(** A [HeaderMatcher], by the arguments it was created from. *)
Inductive HeaderMatcher :=
| HeaderMatcher_Created (header_name : string) (type : HeaderMatcher_Type)
    (matcher : string) (range_start range_end : Z)
    (present_match invert_match case_sensitive : bool)
| HeaderMatcher_CreatedFromStringMatcher (header_name : string)
    (matcher : StringMatcher) (invert_match : bool).

Inductive grpc_status_code :=
| GRPC_STATUS_OK | GRPC_STATUS_CANCELLED | GRPC_STATUS_UNKNOWN
| GRPC_STATUS_INVALID_ARGUMENT | GRPC_STATUS_DEADLINE_EXCEEDED
| GRPC_STATUS_NOT_FOUND | GRPC_STATUS_ALREADY_EXISTS
| GRPC_STATUS_PERMISSION_DENIED | GRPC_STATUS_RESOURCE_EXHAUSTED
| GRPC_STATUS_FAILED_PRECONDITION | GRPC_STATUS_ABORTED
| GRPC_STATUS_OUT_OF_RANGE | GRPC_STATUS_UNIMPLEMENTED
| GRPC_STATUS_INTERNAL | GRPC_STATUS_UNAVAILABLE | GRPC_STATUS_DATA_LOSS
| GRPC_STATUS_UNAUTHENTICATED.

Record RetryBackOff := {
  base_interval : Duration;
  max_interval : Duration
}.

(** [retry_on] is the set of status codes, by the codes added to it. *)
Record RetryPolicy := {
  retry_on : list grpc_status_code;
  num_retries : Z;
  retry_back_off : RetryBackOff
}.

Definition TypedPerFilterConfig := list (string * nat).

Record HashPolicy_Header := {
  header_name : string;
  regex : option string;
  regex_substitution : string
}.

Inductive HashPolicy_policy :=
| HashPolicy_of_Header (h : HashPolicy_Header)
| HashPolicy_ChannelId.

Record HashPolicy := {
  hash_policy : HashPolicy_policy;
  hash_terminal : bool
}.

(** [weight] is [None] as long as nothing has been stored in it. *)
Record ClusterWeight := {
  cluster_weight_name : string;
  weight : option Z;
  cluster_typed_per_filter_config : TypedPerFilterConfig
}.

Inductive RouteAction_action :=
| ClusterName (cluster_name : string)
| WeightedClusters (weighted_clusters : list ClusterWeight)
| ClusterSpecifierPluginName (cluster_specifier_plugin_name : string).

Record RouteAction := {
  hash_policies : list HashPolicy;
  retry_policy : option RetryPolicy;
  action : RouteAction_action;
  max_stream_duration : option Duration;
  auto_host_rewrite : bool
}.

Record Matchers := {
  path_matcher : option StringMatcher;
  header_matchers : list HeaderMatcher;
  fraction_per_million : option Z
}.

Inductive Route_action :=
| UnknownAction
| Route_RouteAction (a : RouteAction)
| NonForwardingAction.

Record Route := {
  matchers : Matchers;
  route_action : Route_action;
  typed_per_filter_config : TypedPerFilterConfig
}.

Record VirtualHost := {
  domains : list string;
  routes : list Route;
  vhost_typed_per_filter_config : TypedPerFilterConfig
}.

(** [std::map<std::string, std::string>], by its entries. *)
Definition ClusterSpecifierPluginMap := list (string * string).

Record XdsRouteConfigResource := {
  virtual_hosts : list VirtualHost;
  cluster_specifier_plugin_map : ClusterSpecifierPluginMap
}.

(** An [XdsExtension]: its type and the number of scoped fields that it
    holds and pops when it is destroyed. *)
Record XdsExtension := {
  extension_type : string;
  validation_fields : nat
}.

Inductive Json := Json_value (id : nat).

(** ** What the parser needs from other files *)

Record Externals := {
  (** [StringMatcher::Create]: the message of the status unless it is ok. *)
  StringMatcher_Create_error :
    StringMatcher_Type -> string -> bool -> option string;
  (** [HeaderMatcher::Create], likewise. *)
  HeaderMatcher_Create_error :
    string -> HeaderMatcher_Type -> string -> Z -> Z -> bool -> bool -> bool ->
    option string;
  StringMatcherParse :
    envoy_type_matcher_v3_StringMatcher -> list ErrorsOp;
  ParseDuration : google_protobuf_Duration -> Duration * list ErrorsOp;
  (** [n * d] on a [Duration]. *)
  Duration_times : Z -> Duration -> Duration;
  (** [RE2::error()] of the compiled pattern unless [RE2::ok()]. *)
  RE2_error : string -> option string;
  (** [ParseTypedPerFilterConfig] of this file. *)
  ParseTypedPerFilterConfig :
    TypedPerFilterConfig_parent -> TypedPerFilterConfig * list ErrorsOp;
  TrustedXdsServer : bool;
  GetEnv : string -> option string;
  (** [gpr_parse_bool_value]: the parsed value if parsing succeeds. *)
  gpr_parse_bool_value : string -> option bool;
  ExtractXdsExtension :
    option google_protobuf_Any -> option XdsExtension * list ErrorsOp;
  (** The registry of cluster specifier plugins: the plugin for a type. *)
  GetPluginForType : string -> option nat;
  GenerateLoadBalancingPolicyConfig :
    nat -> XdsExtension -> Json * list ErrorsOp;
  (** [errors->size()], which depends on the calls made so far. *)
  errors_size : ValidationErrors -> nat;
  (** [ParseLoadBalancingConfig]: the message of the status unless ok. *)
  ParseLoadBalancingConfig_error : Json -> option string;
  JsonDump : Json -> string;
  IsValidDomainPattern : string -> bool
}.

(** ** The parser *)

(** [ParseBoolValue]: the value of a [BoolValue] message, or the default
    where the message is absent. *)
Definition ParseBoolValue (bool_value : option bool) (default_value : bool)
  : bool :=
  match bool_value with Some b => b | None => default_value end.

(** [XdsRlsEnabled]. *)
Definition XdsRlsEnabled (ext : Externals) : bool :=
  match GetEnv ext "GRPC_EXPERIMENTAL_XDS_RLS_LB" with
  | None => true
  | Some value =>
      match gpr_parse_bool_value ext value with
      | Some parsed_value => parsed_value
      | None => false
      end
  end.

(** The end of [RoutePathMatchParse]: [StringMatcher::Create] and the
    handling of its status. *)
Definition create_path_matcher (ext : Externals) (type : StringMatcher_Type)
    (match_string : string) (case_sensitive : bool)
  : V (option StringMatcher) :=
  match StringMatcher_Create_error ext type match_string case_sensitive with
  | Some message =>
      errors_AddError ("error creating path matcher: " ++ message) ;;
      vret None
  | None =>
      vret (Some (StringMatcher_Created type match_string case_sensitive))
  end.

(** [RoutePathMatchParse]. *)
Definition RoutePathMatchParse (ext : Externals)
    (match_ : envoy_config_route_v3_RouteMatch) : V (option StringMatcher) :=
  let case_sensitive := ParseBoolValue (rm_case_sensitive match_) true in
  match rm_path_specifier match_ with
  | rm_prefix prefix =>
      match prefix with
      | EmptyString =>
          create_path_matcher ext StringMatcher_kPrefix prefix case_sensitive
      | String c rest =>
          if negb (Ascii.eqb c "/") then vret None
          else
            let prefix_elements := StrSplit_MaxSplits rest "/" 2 in
            if 2 <? List.length prefix_elements then vret None
            else if (List.length prefix_elements =? 2)
                    && string_empty (nth 0 prefix_elements EmptyString)
            then vret None
            else create_path_matcher ext StringMatcher_kPrefix prefix
                   case_sensitive
      end
  | rm_path path =>
      match path with
      | EmptyString => vret None
      | String c rest =>
          if negb (Ascii.eqb c "/") then vret None
          else
            let path_elements := StrSplit_MaxSplits rest "/" 2 in
            if negb (List.length path_elements =? 2) then vret None
            else if string_empty (nth 0 path_elements EmptyString)
            then vret None
            else if string_empty (nth 1 path_elements EmptyString)
            then vret None
            else create_path_matcher ext StringMatcher_kExact path
                   case_sensitive
      end
  | rm_safe_regex regex =>
      create_path_matcher ext StringMatcher_kSafeRegex regex case_sensitive
  | rm_other_specifier =>
      errors_AddError "invalid path specifier" ;;
      vret None
  end.

Definition set_fraction_per_million (route : Route) (v : option Z) : Route :=
  {| matchers :=
       {| path_matcher := path_matcher (matchers route);
          header_matchers := header_matchers (matchers route);
          fraction_per_million := v |};
     route_action := route_action route;
     typed_per_filter_config := typed_per_filter_config route |}.

(** [RouteRuntimeFractionParse]. *)
Definition RouteRuntimeFractionParse
    (match_ : envoy_config_route_v3_RouteMatch) (route : Route) : V Route :=
  match rm_runtime_fraction match_ with
  | None => vret route
  | Some runtime_fraction =>
      match rfp_default_value runtime_fraction with
      | None => vret route
      | Some fraction =>
          let numerator := fp_numerator fraction in
          let denominator := fp_denominator fraction in
          if (denominator =? envoy_type_v3_FractionalPercent_HUNDRED)%Z then
            vret (set_fraction_per_million route
                    (Some (uint32_mul numerator 10000)))
          else if (denominator
                   =? envoy_type_v3_FractionalPercent_TEN_THOUSAND)%Z then
            vret (set_fraction_per_million route
                    (Some (uint32_mul numerator 100)))
          else if (denominator =? envoy_type_v3_FractionalPercent_MILLION)%Z
          then vret (set_fraction_per_million route (Some numerator))
          else
            ScopedField ".runtime_fraction.default_value.denominator"
              (errors_AddError "unknown denominator type") ;;
            vret route
      end
  end.

Definition add_header_matcher (route : Route) (m : HeaderMatcher) : Route :=
  {| matchers :=
       {| path_matcher := path_matcher (matchers route);
          header_matchers := header_matchers (matchers route) ++ [m];
          fraction_per_million := fraction_per_million (matchers route) |};
     route_action := route_action route;
     typed_per_filter_config := typed_per_filter_config route |}.

(** The end of the loop body of [RouteHeaderMatchersParse]:
    [HeaderMatcher::Create] and the handling of its status. *)
Definition create_header_matcher (ext : Externals) (route : Route)
    (header_name : string) (type : HeaderMatcher_Type) (match_string : string)
    (range_start range_end : Z) (present_match invert_match : bool)
  : V Route :=
  let case_sensitive := true in
  match HeaderMatcher_Create_error ext header_name type match_string
          range_start range_end present_match invert_match case_sensitive with
  | Some message =>
      errors_AddError ("cannot create header matcher: " ++ message) ;;
      vret route
  | None =>
      vret (add_header_matcher route
              (HeaderMatcher_Created header_name type match_string
                 range_start range_end present_match invert_match
                 case_sensitive))
  end.

(** [RouteHeaderMatchersParse], from the header at index [i] on. *)
Fixpoint RouteHeaderMatchersParse_from (ext : Externals) (i : nat)
    (headers : list envoy_config_route_v3_HeaderMatcher) (route : Route)
  : V Route :=
  match headers with
  | [] => vret route
  | header :: headers' =>
      route' <-
        ScopedField (".headers[" ++ StrCat_size_t i ++ "]")
          (let header_name := hm_name header in
           let invert_match := hm_invert_match header in
           match hm_specifier header with
           | hm_string_match m =>
               ScopedField ".string_match"
                 (external (tt, StringMatcherParse ext m) ;;
                  vret (add_header_matcher route
                          (HeaderMatcher_CreatedFromStringMatcher header_name
                             (StringMatcher_Parsed m) invert_match)))
           | hm_exact_match s =>
               create_header_matcher ext route header_name
                 HeaderMatcher_kExact s 0 0 false invert_match
           | hm_prefix_match s =>
               create_header_matcher ext route header_name
                 HeaderMatcher_kPrefix s 0 0 false invert_match
           | hm_suffix_match s =>
               create_header_matcher ext route header_name
                 HeaderMatcher_kSuffix s 0 0 false invert_match
           | hm_contains_match s =>
               create_header_matcher ext route header_name
                 HeaderMatcher_kContains s 0 0 false invert_match
           | hm_safe_regex_match r =>
               create_header_matcher ext route header_name
                 HeaderMatcher_kSafeRegex r 0 0 false invert_match
           | hm_range_match r =>
               create_header_matcher ext route header_name
                 HeaderMatcher_kRange EmptyString (range_start r)
                 (range_end r) false invert_match
           | hm_present_match b =>
               create_header_matcher ext route header_name
                 HeaderMatcher_kPresent EmptyString 0 0 b invert_match
           | hm_not_set =>
               errors_AddError "invalid header matcher" ;;
               vret route
           end) ;;
      RouteHeaderMatchersParse_from ext (S i) headers' route'
  end.

(** [RouteHeaderMatchersParse]. *)
Definition RouteHeaderMatchersParse (ext : Externals)
    (match_ : envoy_config_route_v3_RouteMatch) (route : Route) : V Route :=
  RouteHeaderMatchersParse_from ext 0 (rm_headers match_) route.

(** The loop of [RetryPolicyParse] over the codes of [retry_on]. *)
Fixpoint retry_on_Add (codes : list string) (set : list grpc_status_code)
  : list grpc_status_code :=
  match codes with
  | [] => set
  | code :: codes' =>
      retry_on_Add codes'
        (if String.eqb code "cancelled"
         then set ++ [GRPC_STATUS_CANCELLED]
         else if String.eqb code "deadline-exceeded"
         then set ++ [GRPC_STATUS_DEADLINE_EXCEEDED]
         else if String.eqb code "internal"
         then set ++ [GRPC_STATUS_INTERNAL]
         else if String.eqb code "resource-exhausted"
         then set ++ [GRPC_STATUS_RESOURCE_EXHAUSTED]
         else if String.eqb code "unavailable"
         then set ++ [GRPC_STATUS_UNAVAILABLE]
         else set)
  end.

(** Durations are in milliseconds, as the deadline of a handshake is:
    [Duration()], which a retry policy holds where no interval has been
    stored, and [Duration::Milliseconds]. *)
Definition Duration_Zero : Duration := 0%Z.
Definition Duration_Milliseconds (ms : Z) : Duration := ms.

(** [RetryPolicyParse]. *)
Definition RetryPolicyParse (ext : Externals)
    (retry_policy_proto : envoy_config_route_v3_RetryPolicy)
  : V RetryPolicy :=
  let codes := StrSplit (rp_retry_on retry_policy_proto) "," in
  let retry_on' := retry_on_Add codes [] in
  let num_retries' :=
    match rp_num_retries retry_policy_proto with
    | Some n => n
    | None => 1%Z
    end in
  (if (num_retries' =? 0)%Z
   then ScopedField ".num_retries"
          (errors_AddError "must be greater than 0")
   else vret tt) ;;
  back_off <-
    match rp_retry_back_off retry_policy_proto with
    | Some backoff =>
        ScopedField ".retry_back_off"
          (base <-
             ScopedField ".base_interval"
               (match rbo_base_interval backoff with
                | None =>
                    errors_AddError "field not present" ;;
                    vret Duration_Zero
                | Some base_interval =>
                    external (ParseDuration ext base_interval)
                end) ;;
           max <-
             ScopedField ".max_interval"
               (match rbo_max_interval backoff with
                | Some max_interval =>
                    external (ParseDuration ext max_interval)
                | None => vret (Duration_times ext 10 base)
                end) ;;
           vret {| base_interval := base; max_interval := max |})
    | None =>
        vret {| base_interval := Duration_Milliseconds 25;
                max_interval := Duration_Milliseconds 250 |}
    end ;;
  vret {| retry_on := retry_on';
          num_retries := num_retries';
          retry_back_off := back_off |}.

(** The body of the loop of [RouteActionParse] over the hash policies:
    the policy to add, or [None] where the loop goes on without adding
    one. *)
Definition parse_hash_policy (ext : Externals)
    (hash_policy_proto : envoy_config_route_v3_RouteAction_HashPolicy)
  : V (option HashPolicy) :=
  let terminal' := hpp_terminal hash_policy_proto in
  match hpp_policy_specifier hash_policy_proto with
  | hp_header header =>
      ScopedField ".header"
        (let header_name' := hph_header_name header in
         (if string_empty header_name'
          then ScopedField ".header_name"
                 (errors_AddError "must be non-empty")
          else vret tt) ;;
         match hph_regex_rewrite header with
         | Some regex_rewrite =>
             ScopedField ".regex_rewrite.pattern"
               (match rms_pattern regex_rewrite with
                | None =>
                    errors_AddError "field not present" ;;
                    vret None
                | Some regex' =>
                    ScopedField ".regex"
                      (if string_empty regex'
                       then errors_AddError "field not present" ;;
                            vret None
                       else
                         match RE2_error ext regex' with
                         | Some message =>
                             errors_AddError
                               ("errors compiling regex: " ++ message) ;;
                             vret None
                         | None =>
                             vret (Some
                               {| hash_policy :=
                                    HashPolicy_of_Header
                                      {| header_name := header_name';
                                         regex := Some regex';
                                         regex_substitution :=
                                           rms_substitution regex_rewrite |};
                                  hash_terminal := terminal' |})
                         end)
                end)
         | None =>
             vret (Some
               {| hash_policy :=
                    HashPolicy_of_Header
                      {| header_name := header_name';
                         regex := None;
                         regex_substitution := EmptyString |};
                  hash_terminal := terminal' |})
         end)
  | hp_filter_state key =>
      if negb (String.eqb key "io.grpc.channel_id") then vret None
      else vret (Some {| hash_policy := HashPolicy_ChannelId;
                         hash_terminal := terminal' |})
  | hp_other_specifier => vret None
  end.

Fixpoint parse_hash_policies (ext : Externals) (i : nat)
    (protos : list envoy_config_route_v3_RouteAction_HashPolicy)
    (hash_policies' : list HashPolicy) : V (list HashPolicy) :=
  match protos with
  | [] => vret hash_policies'
  | proto :: protos' =>
      policy <-
        ScopedField (".hash_policy[" ++ StrCat_size_t i ++ "]")
          (parse_hash_policy ext proto) ;;
      parse_hash_policies ext (S i) protos'
        (match policy with
         | Some policy => hash_policies' ++ [policy]
         | None => hash_policies'
         end)
  end.

(** The body of the loop of [RouteActionParse] over the weighted
    clusters, on the clusters added so far and their total weight. *)
Definition parse_cluster_weight (ext : Externals)
    (cluster_proto : envoy_config_route_v3_WeightedCluster_ClusterWeight)
    (state : list ClusterWeight * Z) : V (list ClusterWeight * Z) :=
  let action_weighted_clusters := fst state in
  let total_weight := snd state in
  config <-
    ScopedField ".typed_per_filter_config"
      (external (ParseTypedPerFilterConfig ext
                   (cwp_typed_per_filter_config cluster_proto))) ;;
  let name' := cwp_name cluster_proto in
  (if string_empty name'
   then ScopedField ".name" (errors_AddError "must be non-empty")
   else vret tt) ;;
  match cwp_weight cluster_proto with
  | None =>
      ScopedField ".weight" (errors_AddError "field not present") ;;
      vret (action_weighted_clusters ++
              [{| cluster_weight_name := name'; weight := None;
                  cluster_typed_per_filter_config := config |}],
            total_weight)
  | Some w =>
      if (w =? 0)%Z then vret (action_weighted_clusters, total_weight)
      else
        vret (action_weighted_clusters ++
                [{| cluster_weight_name := name'; weight := Some w;
                    cluster_typed_per_filter_config := config |}],
              uint64_add total_weight w)
  end.

Fixpoint parse_cluster_weights (ext : Externals) (i : nat)
    (clusters : list envoy_config_route_v3_WeightedCluster_ClusterWeight)
    (state : list ClusterWeight * Z) : V (list ClusterWeight * Z) :=
  match clusters with
  | [] => vret state
  | cluster_proto :: clusters' =>
      state' <-
        ScopedField (".clusters[" ++ StrCat_size_t i ++ "]")
          (parse_cluster_weight ext cluster_proto state) ;;
      parse_cluster_weights ext (S i) clusters' state'
  end.

Fixpoint map_find (key : string) (m : ClusterSpecifierPluginMap)
  : option string :=
  match m with
  | [] => None
  | (k, v) :: m' => if String.eqb k key then Some v else map_find key m'
  end.

(** [m[key] = value]. *)
Fixpoint map_set (key value : string) (m : ClusterSpecifierPluginMap)
  : ClusterSpecifierPluginMap :=
  match m with
  | [] => [(key, value)]
  | (k, v) :: m' =>
      if String.eqb k key then (k, value) :: m'
      else (k, v) :: map_set key value m'
  end.

Definition map_erase (key : string) (m : ClusterSpecifierPluginMap)
  : ClusterSpecifierPluginMap :=
  filter (fun kv => negb (String.eqb (fst kv) key)) m.

(** The character that delimits a string. *)
Definition double_quote : string := String (ascii_of_nat 34) EmptyString.

(** [RouteActionParse]. *)
Definition RouteActionParse (ext : Externals)
    (route_action_proto : envoy_config_route_v3_RouteAction)
    (cluster_specifier_plugin_map' : ClusterSpecifierPluginMap)
  : V (option RouteAction) :=
  max_stream_duration' <-
    match ra_max_stream_duration route_action_proto with
    | Some max_stream_duration_proto =>
        ScopedField ".max_stream_duration"
          (match msd_grpc_timeout_header_max max_stream_duration_proto with
           | Some duration =>
               ScopedField ".grpc_timeout_header_max"
                 (d <- external (ParseDuration ext duration) ;;
                  vret (Some d))
           | None =>
               match msd_max_stream_duration max_stream_duration_proto with
               | Some duration =>
                   ScopedField ".max_stream_duration"
                     (d <- external (ParseDuration ext duration) ;;
                      vret (Some d))
               | None => vret None
               end
           end)
    | None => vret None
    end ;;
  hash_policies' <-
    parse_hash_policies ext 0 (ra_hash_policy route_action_proto) [] ;;
  retry_policy' <-
    match ra_retry_policy route_action_proto with
    | Some retry_policy_proto =>
        ScopedField ".retry_policy"
          (p <- RetryPolicyParse ext retry_policy_proto ;;
           vret (Some p))
    | None => vret None
    end ;;
  let auto_host_rewrite' :=
    if TrustedXdsServer ext
    then ParseBoolValue (ra_auto_host_rewrite route_action_proto)
           false (* the default of [ParseBoolValue] *)
    else false in
  let route_action_with action' :=
    {| hash_policies := hash_policies';
       retry_policy := retry_policy';
       action := action';
       max_stream_duration := max_stream_duration';
       auto_host_rewrite := auto_host_rewrite' |} in
  match ra_cluster_specifier route_action_proto with
  | ra_cluster cluster_name' =>
      (if string_empty cluster_name'
       then ScopedField ".cluster" (errors_AddError "must be non-empty")
       else vret tt) ;;
      vret (Some (route_action_with (ClusterName cluster_name')))
  | ra_weighted_clusters clusters =>
      ScopedField ".weighted_clusters"
        (state <- parse_cluster_weights ext 0 clusters ([], 0%Z) ;;
         let action_weighted_clusters := fst state in
         let total_weight := snd state in
         (match action_weighted_clusters with
          | [] => errors_AddError "no valid clusters specified"
          | _ :: _ =>
              if (UINT32_MAX <? total_weight)%Z
              then errors_AddError
                     "sum of cluster weights exceeds uint32 max"
              else vret tt
          end) ;;
         vret (Some (route_action_with
                       (WeightedClusters action_weighted_clusters))))
  | ra_cluster_specifier_plugin plugin_name =>
      if XdsRlsEnabled ext then
        ScopedField ".cluster_specifier_plugin"
          (if string_empty plugin_name
           then errors_AddError "must be non-empty" ;;
                vret None
           else
             match map_find plugin_name cluster_specifier_plugin_map' with
             | None =>
                 errors_AddError
                   ("unknown cluster specifier plugin name " ++ double_quote
                    ++ plugin_name ++ double_quote) ;;
                 vret (Some (route_action_with
                               (ClusterSpecifierPluginName plugin_name)))
             | Some config =>
                 if string_empty config then vret None
                 else vret (Some (route_action_with
                                    (ClusterSpecifierPluginName plugin_name)))
             end)
      else vret None
  | ra_other_specifier => vret None
  end.

Definition Route_default : Route :=
  {| matchers := {| path_matcher := None; header_matchers := [];
                    fraction_per_million := None |};
     route_action := UnknownAction;
     typed_per_filter_config := [] |}.

Definition set_path_matcher (route : Route) (m : StringMatcher) : Route :=
  {| matchers :=
       {| path_matcher := Some m;
          header_matchers := header_matchers (matchers route);
          fraction_per_million := fraction_per_million (matchers route) |};
     route_action := route_action route;
     typed_per_filter_config := typed_per_filter_config route |}.

Definition set_route_action (route : Route) (a : Route_action) : Route :=
  {| matchers := matchers route;
     route_action := a;
     typed_per_filter_config := typed_per_filter_config route |}.

Definition set_typed_per_filter_config (route : Route)
    (c : TypedPerFilterConfig) : Route :=
  {| matchers := matchers route;
     route_action := route_action route;
     typed_per_filter_config := c |}.

Definition set_retry_policy (a : RouteAction) (p : option RetryPolicy)
  : RouteAction :=
  {| hash_policies := hash_policies a;
     retry_policy := p;
     action := action a;
     max_stream_duration := max_stream_duration a;
     auto_host_rewrite := auto_host_rewrite a |}.

(** [std::set<absl::string_view>::erase]. *)
Definition set_erase (key : string) (s : list string) : list string :=
  filter (fun k => negb (String.eqb k key)) s.

(** [ParseRoute]: the route, unless it is skipped, and
    [cluster_specifier_plugins_not_seen] as the call leaves it. *)
Definition ParseRoute (ext : Externals)
    (route_proto : envoy_config_route_v3_Route)
    (virtual_host_retry_policy : option RetryPolicy)
    (cluster_specifier_plugin_map' : ClusterSpecifierPluginMap)
    (cluster_specifier_plugins_not_seen : list string)
  : V (option Route * list string) :=
  matched <-
    ScopedField ".match"
      (match rt_match route_proto with
       | None =>
           errors_AddError "field not present" ;;
           vret None
       | Some match_ =>
           if 0 <? rm_query_parameters_size match_ then vret None
           else
             path_matcher' <- RoutePathMatchParse ext match_ ;;
             match path_matcher' with
             | None => vret None
             | Some m =>
                 route <- RouteHeaderMatchersParse ext match_
                            (set_path_matcher Route_default m) ;;
                 route <- RouteRuntimeFractionParse match_ route ;;
                 vret (Some route)
             end
       end) ;;
  match matched with
  | None => vret (None, cluster_specifier_plugins_not_seen)
  | Some route =>
      with_action <-
        match rt_action route_proto with
        | route_route route_action_proto =>
            ScopedField ".route"
              (parsed <- RouteActionParse ext route_action_proto
                           cluster_specifier_plugin_map' ;;
               match parsed with
               | None => vret None
               | Some route_action' =>
                   let route_action' :=
                     match retry_policy route_action' with
                     | None =>
                         set_retry_policy route_action'
                           virtual_host_retry_policy
                     | Some _ => route_action'
                     end in
                   let not_seen :=
                     match action route_action' with
                     | ClusterSpecifierPluginName name' =>
                         set_erase name' cluster_specifier_plugins_not_seen
                     | _ => cluster_specifier_plugins_not_seen
                     end in
                   vret (Some (set_route_action route
                                 (Route_RouteAction route_action'),
                               not_seen))
               end)
        | route_non_forwarding_action =>
            vret (Some (set_route_action route NonForwardingAction,
                        cluster_specifier_plugins_not_seen))
        | route_other_action =>
            vret (Some (route, cluster_specifier_plugins_not_seen))
        end ;;
      match with_action with
      | None => vret (None, cluster_specifier_plugins_not_seen)
      | Some (route, not_seen) =>
          config <-
            ScopedField ".typed_per_filter_config"
              (external (ParseTypedPerFilterConfig ext
                           (rt_typed_per_filter_config route_proto))) ;;
          vret (Some (set_typed_per_filter_config route config), not_seen)
      end
  end.

(** The destructor of an [XdsExtension]: it pops the fields it holds. *)
Definition destroy_extension (extension : XdsExtension) : V unit :=
  fun errors => (tt, errors ++ repeat PopField (validation_fields extension)).

(** The body of the loop of [ClusterSpecifierPluginParse]. *)
Definition parse_cluster_specifier_plugin (ext : Externals) (i : nat)
    (plugin : envoy_config_route_v3_ClusterSpecifierPlugin)
    (cluster_specifier_plugin_map' : ClusterSpecifierPluginMap)
  : V ClusterSpecifierPluginMap :=
  let is_optional := csp_is_optional plugin in
  ScopedField
    (".cluster_specifier_plugins[" ++ StrCat_size_t i ++ "].extension")
    (match csp_extension plugin with
     | None =>
         errors_AddError "field not present" ;;
         vret cluster_specifier_plugin_map'
     | Some typed_extension_config =>
         let name' := tec_name typed_extension_config in
         map1 <-
           match map_find name' cluster_specifier_plugin_map' with
           | Some _ =>
               ScopedField ".name"
                 (errors_AddError
                    ("duplicate name " ++ double_quote ++ name'
                     ++ double_quote)) ;;
               vret cluster_specifier_plugin_map'
           | None =>
               vret (map_set name' "<sentinel>" cluster_specifier_plugin_map')
           end ;;
         ScopedField ".typed_config"
           (extension <-
              external (ExtractXdsExtension ext
                          (tec_typed_config typed_extension_config)) ;;
            match extension with
            | None => vret map1
            | Some extension =>
                match GetPluginForType ext (extension_type extension) with
                | None =>
                    map2 <-
                      (if is_optional then vret (map_set name' "" map1)
                       else
                         errors_AddError
                           "unsupported ClusterSpecifierPlugin type" ;;
                         vret map1) ;;
                    destroy_extension extension ;;
                    vret map2
                | Some cluster_specifier_plugin_impl =>
                    original_error_size <-
                      (fun errors => (errors_size ext errors, errors)) ;;
                    lb_policy_config <-
                      external (GenerateLoadBalancingPolicyConfig ext
                                  cluster_specifier_plugin_impl extension) ;;
                    destroy_extension extension ;;
                    new_error_size <-
                      (fun errors => (errors_size ext errors, errors)) ;;
                    if negb (new_error_size =? original_error_size)
                    then vret map1
                    else
                      match ParseLoadBalancingConfig_error ext
                              lb_policy_config with
                      | Some message =>
                          errors_AddError
                            ("ClusterSpecifierPlugin returned invalid LB "
                             ++ "policy config: " ++ message) ;;
                          vret map1
                      | None =>
                          vret (map_set name' (JsonDump ext lb_policy_config)
                                  map1)
                      end
                end
            end)
     end).

Fixpoint parse_cluster_specifier_plugins (ext : Externals) (i : nat)
    (plugins : list envoy_config_route_v3_ClusterSpecifierPlugin)
    (cluster_specifier_plugin_map' : ClusterSpecifierPluginMap)
  : V ClusterSpecifierPluginMap :=
  match plugins with
  | [] => vret cluster_specifier_plugin_map'
  | plugin :: plugins' =>
      map' <- parse_cluster_specifier_plugin ext i plugin
                cluster_specifier_plugin_map' ;;
      parse_cluster_specifier_plugins ext (S i) plugins' map'
  end.

(** [ClusterSpecifierPluginParse]. *)
Definition ClusterSpecifierPluginParse (ext : Externals)
    (route_config : envoy_config_route_v3_RouteConfiguration)
  : V ClusterSpecifierPluginMap :=
  parse_cluster_specifier_plugins ext 0
    (rc_cluster_specifier_plugins route_config) [].

(** The loop of [XdsRouteConfigResourceParse] over the domains of a
    virtual host. *)
Fixpoint parse_domains (ext : Externals) (j : nat) (protos : list string)
    (domains' : list string) : V (list string) :=
  match protos with
  | [] => vret domains'
  | domain_pattern :: protos' =>
      (if negb (IsValidDomainPattern ext domain_pattern)
       then ScopedField (".domains[" ++ StrCat_size_t j ++ "]")
              (errors_AddError
                 ("invalid domain pattern " ++ double_quote
                  ++ domain_pattern ++ double_quote))
       else vret tt) ;;
      parse_domains ext (S j) protos' (domains' ++ [domain_pattern])
  end.

(** The loop over the routes of a virtual host. *)
Fixpoint parse_routes (ext : Externals) (j : nat)
    (protos : list envoy_config_route_v3_Route)
    (virtual_host_retry_policy : option RetryPolicy)
    (cluster_specifier_plugin_map' : ClusterSpecifierPluginMap)
    (state : list Route * list string) : V (list Route * list string) :=
  match protos with
  | [] => vret state
  | route_proto :: protos' =>
      parsed <-
        ScopedField ("[" ++ StrCat_size_t j ++ "]")
          (ParseRoute ext route_proto virtual_host_retry_policy
             cluster_specifier_plugin_map' (snd state)) ;;
      parse_routes ext (S j) protos' virtual_host_retry_policy
        cluster_specifier_plugin_map'
        (match fst parsed with
         | Some route => (fst state ++ [route], snd parsed)
         | None => (fst state, snd parsed)
         end)
  end.

(** The body of the loop over the virtual hosts. *)
Definition parse_virtual_host (ext : Externals) (i : nat)
    (virtual_host : envoy_config_route_v3_VirtualHost)
    (cluster_specifier_plugin_map' : ClusterSpecifierPluginMap)
    (cluster_specifier_plugins_not_seen : list string)
  : V (VirtualHost * list string) :=
  ScopedField (".virtual_hosts[" ++ StrCat_size_t i ++ "]")
    (domains' <- parse_domains ext 0 (vh_domains virtual_host) [] ;;
     (match domains' with
      | [] => ScopedField ".domains" (errors_AddError "must be non-empty")
      | _ :: _ => vret tt
      end) ;;
     config <-
       ScopedField ".typed_per_filter_config"
         (external (ParseTypedPerFilterConfig ext
                      (vh_typed_per_filter_config virtual_host))) ;;
     virtual_host_retry_policy <-
       match vh_retry_policy virtual_host with
       | Some retry_policy_proto =>
           ScopedField ".retry_policy"
             (p <- RetryPolicyParse ext retry_policy_proto ;;
              vret (Some p))
       | None => vret None
       end ;;
     ScopedField ".routes"
       (state <- parse_routes ext 0 (vh_routes virtual_host)
                   virtual_host_retry_policy cluster_specifier_plugin_map'
                   ([], cluster_specifier_plugins_not_seen) ;;
        vret ({| domains := domains';
                 routes := fst state;
                 vhost_typed_per_filter_config := config |},
              snd state))).

Fixpoint parse_virtual_hosts (ext : Externals) (i : nat)
    (protos : list envoy_config_route_v3_VirtualHost)
    (cluster_specifier_plugin_map' : ClusterSpecifierPluginMap)
    (state : list VirtualHost * list string)
  : V (list VirtualHost * list string) :=
  match protos with
  | [] => vret state
  | virtual_host :: protos' =>
      parsed <- parse_virtual_host ext i virtual_host
                  cluster_specifier_plugin_map' (snd state) ;;
      parse_virtual_hosts ext (S i) protos' cluster_specifier_plugin_map'
        (fst state ++ [fst parsed], snd parsed)
  end.

(** [XdsRouteConfigResourceParse]. *)
Definition XdsRouteConfigResourceParse (ext : Externals)
    (route_config : envoy_config_route_v3_RouteConfiguration)
  : V XdsRouteConfigResource :=
  map' <-
    (if XdsRlsEnabled ext then ClusterSpecifierPluginParse ext route_config
     else vret []) ;;
  let cluster_specifier_plugins_not_seen := map fst map' in
  state <- parse_virtual_hosts ext 0 (rc_virtual_hosts route_config) map'
             ([], cluster_specifier_plugins_not_seen) ;;
  vret {| virtual_hosts := fst state;
          cluster_specifier_plugin_map :=
            fold_left (fun m unused_plugin => map_erase unused_plugin m)
              (snd state) map' |}.
Local Close Scope xds_scope.

(** ** Notions used in the statements about the parser *)

(** The number that a known denominator type stands for. *)
Definition denominator_value (denominator : Z) : option Z :=
  if (denominator =? envoy_type_v3_FractionalPercent_HUNDRED)%Z
  then Some 100%Z
  else if (denominator =? envoy_type_v3_FractionalPercent_TEN_THOUSAND)%Z
  then Some 10000%Z
  else if (denominator =? envoy_type_v3_FractionalPercent_MILLION)%Z
  then Some 1000000%Z
  else None.

Fixpoint no_slash (s : string) : bool :=
  match s with
  | EmptyString => true
  | String c s' => negb (Ascii.eqb c "/") && no_slash s'
  end.

(** A path of the form [/service/method]. *)
Definition service_method_path (path : string) : Prop :=
  exists service method,
    path = ("/" ++ service ++ "/" ++ method)%string /\
    service <> EmptyString /\ method <> EmptyString /\
    no_slash service = true /\ no_slash method = true.

(** The names of the status codes in the [retry_on] field. *)
Definition retry_on_name (code : grpc_status_code) : option string :=
  match code with
  | GRPC_STATUS_CANCELLED => Some "cancelled"
  | GRPC_STATUS_DEADLINE_EXCEEDED => Some "deadline-exceeded"
  | GRPC_STATUS_INTERNAL => Some "internal"
  | GRPC_STATUS_RESOURCE_EXHAUSTED => Some "resource-exhausted"
  | GRPC_STATUS_UNAVAILABLE => Some "unavailable"
  | _ => None
  end.

Definition is_AddError (op : ErrorsOp) : bool :=
  match op with AddError _ => true | _ => false end.

(** Whether some call of a list of calls adds an error. *)
Definition adds_error (ops : list ErrorsOp) : bool := existsb is_AddError ops.

(** The weighted clusters that [RouteActionParse] keeps: those whose
    weight is absent or not zero. *)
Definition kept_clusters (ext : Externals)
    (clusters : list envoy_config_route_v3_WeightedCluster_ClusterWeight)
  : list ClusterWeight :=
  flat_map
    (fun c =>
       match cwp_weight c with
       | Some 0%Z => []
       | w => [{| cluster_weight_name := cwp_name c;
                  weight := w;
                  cluster_typed_per_filter_config :=
                    fst (ParseTypedPerFilterConfig ext
                           (cwp_typed_per_filter_config c)) |}]
       end)
    clusters.

Definition weights_sum
    (clusters : list envoy_config_route_v3_WeightedCluster_ClusterWeight)
  : Z :=
  fold_right
    (fun c sum => match cwp_weight c with
                  | Some w => (w + sum)%Z
                  | None => sum
                  end)
    0%Z clusters.

(** Weighted clusters that pass validation: every cluster has a name and
    a weight, some weight is not zero, and the weights sum up to at most
    the largest [uint32_t]. *)
Definition valid_weighted_clusters
    (clusters : list envoy_config_route_v3_WeightedCluster_ClusterWeight)
  : Prop :=
  (forall c, In c clusters ->
     cwp_name c <> EmptyString /\ cwp_weight c <> None) /\
  (exists c w, In c clusters /\ cwp_weight c = Some w /\ w <> 0%Z) /\
  (weights_sum clusters <= UINT32_MAX)%Z.

(** A computation that only adds calls to the log of calls. *)
Definition appends {A} (m : V A) : Prop :=
  forall errors, exists ops, snd (m errors) = errors ++ ops.

(** The route sends its requests to the cluster specifier plugin
    [name]. *)
Definition references (route : Route) (name : string) : Prop :=
  exists route_action',
    route_action route = Route_RouteAction route_action' /\
    action route_action' = ClusterSpecifierPluginName name.

(** ** Example data for the parser *)

Definition ex_externals : Externals :=
  {| StringMatcher_Create_error := fun _ _ _ => None;
     HeaderMatcher_Create_error := fun _ _ _ _ _ _ _ _ => None;
     StringMatcherParse := fun _ => [];
     ParseDuration := fun d => ((dur_seconds d * 1000)%Z, []);
     Duration_times := fun n d => (n * d)%Z;
     RE2_error := fun _ => None;
     ParseTypedPerFilterConfig := fun _ => ([], []);
     TrustedXdsServer := false;
     GetEnv := fun _ => None;
     gpr_parse_bool_value := fun _ => None;
     ExtractXdsExtension :=
       fun _ => (Some {| extension_type := "rls"; validation_fields := 1 |},
                 [PushField ".value[rls]"]);
     GetPluginForType := fun _ => Some 0;
     GenerateLoadBalancingPolicyConfig := fun _ _ => (Json_value 0, []);
     errors_size := fun _ => 0;
     ParseLoadBalancingConfig_error := fun _ => None;
     JsonDump := fun _ => "[{rls: {}}]";
     IsValidDomainPattern := fun _ => true |}.

Definition ex_match (specifier : RouteMatch_path_specifier)
  : envoy_config_route_v3_RouteMatch :=
  {| rm_case_sensitive := None;
     rm_path_specifier := specifier;
     rm_headers := [];
     rm_query_parameters_size := 0;
     rm_runtime_fraction :=
       Some {| rfp_default_value :=
                 Some {| fp_numerator := 25; fp_denominator := 0 |} |} |}.

Definition ex_route_action (specifier : RouteAction_cluster_specifier)
  : envoy_config_route_v3_RouteAction :=
  {| ra_max_stream_duration := None;
     ra_hash_policy := [];
     ra_retry_policy := None;
     ra_auto_host_rewrite := None;
     ra_cluster_specifier := specifier |}.

Definition ex_clusters
  : list envoy_config_route_v3_WeightedCluster_ClusterWeight :=
  [{| cwp_name := "a"; cwp_weight := Some 30%Z;
      cwp_typed_per_filter_config := PerFilterConfig_of 0 |};
   {| cwp_name := "b"; cwp_weight := Some 0%Z;
      cwp_typed_per_filter_config := PerFilterConfig_of 1 |};
   {| cwp_name := "c"; cwp_weight := Some 70%Z;
      cwp_typed_per_filter_config := PerFilterConfig_of 2 |}].

Definition ex_route_config : envoy_config_route_v3_RouteConfiguration :=
  {| rc_name := "routes";
     rc_cluster_specifier_plugins :=
       [{| csp_is_optional := false;
           csp_extension :=
             Some {| tec_name := "lookup";
                     tec_typed_config := Some (Any_proto 0) |} |};
        {| csp_is_optional := false;
           csp_extension :=
             Some {| tec_name := "unused";
                     tec_typed_config := Some (Any_proto 1) |} |}];
     rc_virtual_hosts :=
       [{| vh_domains := ["*"];
           vh_typed_per_filter_config := PerFilterConfig_of 3;
           vh_retry_policy := None;
           vh_routes :=
             [{| rt_match := Some (ex_match (rm_prefix ""));
                 rt_action :=
                   route_route
                     (ex_route_action (ra_cluster_specifier_plugin "lookup"));
                 rt_typed_per_filter_config := PerFilterConfig_of 4 |}] |}]
  |}.

Definition ex_vhost_retry_policy : RetryPolicy :=
  {| retry_on := [GRPC_STATUS_UNAVAILABLE];
     num_retries := 3;
     retry_back_off :=
       {| base_interval := Duration_Milliseconds 25;
          max_interval := Duration_Milliseconds 250 |} |}.

Definition ex_route : envoy_config_route_v3_Route :=
  {| rt_match := Some (ex_match (rm_path "/pkg.Service/Method"));
     rt_action := route_route (ex_route_action (ra_cluster "backend"));
     rt_typed_per_filter_config := PerFilterConfig_of 5 |}.

Definition ex_route_parsed : Route :=
  Eval cbv in
    match fst (fst (ParseRoute ex_externals ex_route
                      (Some ex_vhost_retry_policy) [] [] [])) with
    | Some route => route
    | None => Route_default
    end.

(** * Properties *)

(** ** Evaluating the monadic code *)

Ltac unfold_ops :=
  cbv [CallNextHandshakerLocked Shutdown Add DoHandshake InvokeOnHandshakeDone
       run_closure call_handshake_done transition step
       handshaker_completes take_timer take_posted
       bind ret fail get_mgr put_mgr emit CHECK
       set_handshakers set_index set_is_shutdown set_args
       set_on_handshake_done set_deadline_timer_handle
       channelz_log trace_node_Commit endpoint_reset deref_engine
       engine_Run engine_RunAfter engine_Cancel vector_at
       handshaker_DoHandshake handshaker_Shutdown].

Ltac unfold_ops_in H :=
  cbv [CallNextHandshakerLocked Shutdown Add DoHandshake InvokeOnHandshakeDone
       run_closure call_handshake_done transition step
       handshaker_completes take_timer take_posted
       bind ret fail get_mgr put_mgr emit CHECK
       set_handshakers set_index set_is_shutdown set_args
       set_on_handshake_done set_deadline_timer_handle
       channelz_log trace_node_Commit endpoint_reset deref_engine
       engine_Run engine_RunAfter engine_Cancel vector_at
       handshaker_DoHandshake handshaker_Shutdown] in H.

Ltac open_world w :=
  destruct w as [[?hs ?idx ?sd ?a ?cb ?th] [?nh ?tm ?rq] ?ip ?log]; cbn in *.

Ltac tidy_log := rewrite <- ?app_assoc; cbn [app].

Lemma terminal_dec error m :
  negb (ok error) || is_shutdown_ m || exit_early (args_ m)
  || (index_ m =? List.length (handshakers_ m)) = true <-> terminal error m.
Proof.
  unfold terminal. rewrite !orb_true_iff, negb_true_iff, Nat.eqb_eq. tauto.
Qed.

(** The terminal branch, field by field. *)
Lemma CallNext_terminal error w :
  ready w -> terminal error (mgr w) ->
  exists w',
    CallNextHandshakerLocked error w = Done (tt, w') /\
    effects w' = effects w ++ terminal_effects error (mgr w) /\
    in_progress w' = in_progress w /\
    run_queue (engine w') = run_queue (engine w) ++
      [OnDoneClosure (on_handshake_done_ (mgr w))
                     (terminal_result error (mgr w))] /\
    timers (engine w') =
      filter (fun p => negb (TaskHandle_eqb (fst p)
                               (deadline_timer_handle_ (mgr w))))
             (timers (engine w)) /\
    next_handle (engine w') = next_handle (engine w) /\
    handshakers_ (mgr w') = handshakers_ (mgr w) /\
    index_ (mgr w') = index_ (mgr w) /\
    is_shutdown_ (mgr w') = true /\
    on_handshake_done_ (mgr w') = None /\
    deadline_timer_handle_ (mgr w') = deadline_timer_handle_ (mgr w) /\
    event_engine (args_ (mgr w')) = event_engine (args_ (mgr w)) /\
    exit_early (args_ (mgr w')) = exit_early (args_ (mgr w)) /\
    endpoint (args_ (mgr w')) =
      (if ok error && is_shutdown_ (mgr w) then None
       else endpoint (args_ (mgr w))) /\
    tn_committed (trace_node (args_ (mgr w'))) = true.
Proof.
  intros [Hi He] Ht. apply terminal_dec in Ht.
  open_world w. unfold_ops. cbn.
  destruct (Nat.leb_spec idx (List.length hs)) as [_|]; [|lia].
  cbn. rewrite Ht. unfold terminal_effects, terminal_result, terminal_status.
  cbn.
  destruct (ok error) eqn:Eok; destruct sd; cbn; rewrite ?Eok, He; cbn;
    tidy_log; eexists; (split; [reflexivity|]); cbn; repeat split; auto.
Qed.

(** The other branch, field by field. *)
Lemma CallNext_advance error w :
  ready w -> ~ terminal error (mgr w) ->
  exists h w',
    nth_error (handshakers_ (mgr w)) (index_ (mgr w)) = Some h /\
    CallNextHandshakerLocked error w = Done (tt, w') /\
    effects w' = effects w ++ [HsDoHandshake h] /\
    in_progress w' = in_progress w ++ [h] /\
    engine w' = engine w /\
    handshakers_ (mgr w') = handshakers_ (mgr w) /\
    index_ (mgr w') = S (index_ (mgr w)) /\
    is_shutdown_ (mgr w') = is_shutdown_ (mgr w) /\
    on_handshake_done_ (mgr w') = on_handshake_done_ (mgr w) /\
    deadline_timer_handle_ (mgr w') = deadline_timer_handle_ (mgr w) /\
    event_engine (args_ (mgr w')) = event_engine (args_ (mgr w)) /\
    exit_early (args_ (mgr w')) = exit_early (args_ (mgr w)) /\
    endpoint (args_ (mgr w')) = endpoint (args_ (mgr w)) /\
    tn_committed (trace_node (args_ (mgr w'))) =
      tn_committed (trace_node (args_ (mgr w))).
Proof.
  intros [Hi He] Ht. rewrite <- terminal_dec in Ht.
  apply not_true_is_false in Ht.
  assert (Hlt : index_ (mgr w) < List.length (handshakers_ (mgr w))).
  { rewrite !orb_false_iff, Nat.eqb_neq in Ht. lia. }
  destruct (nth_error (handshakers_ (mgr w)) (index_ (mgr w))) as [h|] eqn:Eh;
    [| apply nth_error_None in Eh; lia].
  exists h. open_world w. unfold_ops. cbn.
  destruct (Nat.leb_spec idx (List.length hs)) as [_|]; [|lia].
  cbn. rewrite Ht, Eh. cbn.
  eexists; repeat split.
Qed.

(** [Shutdown], field by field. *)
Lemma Shutdown_fields error w :
  index_ (mgr w) <= List.length (handshakers_ (mgr w)) ->
  exists w' delta,
    Shutdown error w = Done (tt, w') /\
    effects w' = effects w ++ delta /\
    engine w' = engine w /\
    in_progress w' = in_progress w /\
    handshakers_ (mgr w') = handshakers_ (mgr w) /\
    index_ (mgr w') = index_ (mgr w) /\
    is_shutdown_ (mgr w') = true /\
    on_handshake_done_ (mgr w') = on_handshake_done_ (mgr w) /\
    deadline_timer_handle_ (mgr w') = deadline_timer_handle_ (mgr w) /\
    event_engine (args_ (mgr w')) = event_engine (args_ (mgr w)) /\
    exit_early (args_ (mgr w')) = exit_early (args_ (mgr w)) /\
    endpoint (args_ (mgr w')) = endpoint (args_ (mgr w)) /\
    tn_committed (trace_node (args_ (mgr w'))) =
      tn_committed (trace_node (args_ (mgr w))) /\
    ((is_shutdown_ (mgr w) = true /\ w' = w /\ delta = []) \/
     (is_shutdown_ (mgr w) = false /\ index_ (mgr w) = 0 /\ delta = []) \/
     (is_shutdown_ (mgr w) = false /\ 0 < index_ (mgr w) /\
      exists h, nth_error (handshakers_ (mgr w)) (index_ (mgr w) - 1) = Some h
                /\ delta = [HsShutdown h error])).
Proof.
  intros Hi. open_world w. unfold_ops. cbn.
  destruct sd; cbn.
  - exists {| mgr := Build_HandshakeManager hs idx true a cb th;
              engine := Build_EventEngine nh tm rq;
              in_progress := ip; effects := log |}, [].
    rewrite app_nil_r. cbn. repeat split. left. repeat split.
  - destruct idx as [|i]; cbn.
    + eexists; exists []. rewrite app_nil_r. cbn. repeat split.
      right; left. repeat split.
    + rewrite Nat.sub_0_r.
      destruct (nth_error hs i) as [h|] eqn:Eh;
        [| apply nth_error_None in Eh; lia].
      cbn. eexists; exists [HsShutdown h error]. cbn. repeat split.
      right; right. repeat split; [lia|]. exists h. split; reflexivity.
Qed.

(** [DoHandshake] on a manager whose cursor has moved fails its [CHECK_EQ]. *)
Lemma DoHandshake_checks_index ep ca dl now acc cb w :
  0 < index_ (mgr w) ->
  DoHandshake ep ca dl now acc cb w = Crash (CheckFailed "index_ == 0u").
Proof.
  intros Hi. open_world w. unfold DoHandshake.
  cbv [bind get_mgr CHECK fail]. cbn.
  destruct idx; [lia | reflexivity].
Qed.

(** [Add] never fails and only appends. *)
Lemma Add_fields h w :
  Add h w =
  Done (tt, {| mgr := {| handshakers_ := handshakers_ (mgr w) ++ [h];
                         index_ := index_ (mgr w);
                         is_shutdown_ := is_shutdown_ (mgr w);
                         args_ := args_ (mgr w);
                         on_handshake_done_ := on_handshake_done_ (mgr w);
                         deadline_timer_handle_ :=
                           deadline_timer_handle_ (mgr w) |};
               engine := engine w;
               in_progress := in_progress w;
               effects := effects w |}).
Proof. reflexivity. Qed.

(** ** Counting and list facts *)

Lemma count_app {A} (p : A -> bool) l1 l2 :
  count p (l1 ++ l2) = count p l1 + count p l2.
Proof. unfold count. now rewrite filter_app, length_app. Qed.

Lemma count_remove_nth {A} (p : A -> bool) l : forall i c,
  nth_error l i = Some c ->
  count p l = count p (remove_nth i l) + (if p c then 1 else 0).
Proof.
  induction l as [|x l IH]; intros [|i] c H; cbn in H; try discriminate.
  - inversion H; subst. unfold count. cbn. destruct (p c); cbn; lia.
  - specialize (IH _ _ H). unfold count in *. cbn.
    destruct (p x); cbn; lia.
Qed.

Lemma forallb_remove_nth {A} (p : A -> bool) l : forall i,
  forallb p l = true -> forallb p (remove_nth i l) = true.
Proof.
  induction l as [|x l IH]; intros [|i] H; cbn in *; auto;
    apply andb_true_iff in H as [Hx Hl]; auto.
  rewrite Hx. cbn. auto.
Qed.

Lemma forallb_nth_error {A} (p : A -> bool) l i c :
  forallb p l = true -> nth_error l i = Some c -> p c = true.
Proof.
  intros H E. apply nth_error_In in E. rewrite forallb_forall in H. auto.
Qed.

Lemma Handshaker_eqb_eq a b : Handshaker_eqb a b = true -> a = b.
Proof.
  destruct a, b. unfold Handshaker_eqb. cbn. intros H.
  apply andb_true_iff in H as [H1 H2].
  apply Nat.eqb_eq in H1. apply String.eqb_eq in H2. congruence.
Qed.

Lemma remove_first_length h l : forall l',
  remove_first h l = Some l' -> List.length l = S (List.length l').
Proof.
  induction l as [|x l IH]; intros l' H; cbn in H; [discriminate|].
  destruct (Handshaker_eqb x h).
  - inversion H; subst. reflexivity.
  - destruct (remove_first h l) as [r|]; cbn in H; [|discriminate].
    inversion H; subst. cbn. f_equal. auto.
Qed.

Lemma remove_first_In h l : forall l',
  remove_first h l = Some l' -> In h l.
Proof.
  induction l as [|x l IH]; intros l' H; cbn in H; [discriminate|].
  destruct (Handshaker_eqb x h) eqn:E.
  - left. now apply Handshaker_eqb_eq.
  - destruct (remove_first h l) as [r|]; cbn in H; [|discriminate].
    right. eauto.
Qed.

(** ** The invariant of the pipeline *)

Lemma Inv_new : Inv World_new.
Proof.
  unfold Inv, in_flight, scheduled, invoked, queued, count. cbn.
  repeat split; auto; try lia; intros; try lia; contradiction.
Qed.

Ltac break_inner H :=
  match type of H with
  | context [match ?x with _ => _ end] =>
      lazymatch x with
      | context [match _ with _ => _ end] => fail
      | _ => destruct x eqn:?; cbn in H; try discriminate H
      end
  end.

Ltac bool_hyps :=
  repeat match goal with
         | H : _ || _ = false |- _ =>
             apply orb_false_iff in H; destruct H
         | H : _ && _ = true |- _ =>
             apply andb_true_iff in H; destruct H
         | H : negb _ = false |- _ => apply negb_false_iff in H
         | H : negb _ = true |- _ => apply negb_true_iff in H
         | H : (_ <=? _) = true |- _ => apply Nat.leb_le in H
         | H : (_ <=? _) = false |- _ => apply Nat.leb_gt in H
         | H : (_ <? _) = true |- _ => apply Nat.ltb_lt in H
         | H : (_ <? _) = false |- _ => apply Nat.ltb_ge in H
         | H : (_ =? _) = true |- _ => apply Nat.eqb_eq in H
         | H : (_ =? _) = false |- _ => apply Nat.eqb_neq in H
         end.

Ltac step_cases H w :=
  open_world w; unfold_ops_in H; cbn in H;
  repeat break_inner H;
  inversion H; subst; clear H; bool_hyps.

Ltac scheduled :=
  repeat first [ apply Scheduled_here; reflexivity
               | apply Scheduled_later; [reflexivity|] ].

Ltac pick_delta :=
  tidy_log;
  first [ eexists; split; [reflexivity|]
        | exists []; split; [symmetry; apply app_nil_r|] ].

Lemma forallb_filter {A} (p q : A -> bool) l :
  forallb p l = true -> forallb p (filter q l) = true.
Proof.
  induction l as [|x l IH]; cbn; auto. intros H.
  apply andb_true_iff in H as [Hx Hl]. destruct (q x); cbn; auto.
  now rewrite Hx, IH.
Qed.

Lemma timer_is_deadline tm f p :
  forallb is_deadline_timer tm = true -> find f tm = Some p ->
  snd p = DeadlineClosure.
Proof.
  intros H E. apply find_some in E as [E _].
  rewrite forallb_forall in H. specialize (H _ E).
  unfold is_deadline_timer in H. destruct (snd p); congruence.
Qed.

Ltac list_facts :=
  repeat match goal with
         | H : nth_error ?rq ?i = Some ?c |- _ =>
             match type of c with
             | Closure =>
                 pose proof (count_remove_nth is_continuation_closure rq i c H);
                 pose proof (count_remove_nth is_on_done_closure rq i c H);
                 pose proof (fun P => forallb_nth_error callable rq i c P H);
                 clear H
             end
         | H : remove_first ?h ?ip = Some ?l |- _ =>
             pose proof (remove_first_length _ _ _ H);
             pose proof (remove_first_In _ _ _ H);
             clear H
         | H : find ?f ?tm = Some ?p, T : forallb is_deadline_timer ?tm = true
           |- _ =>
             pose proof (timer_is_deadline tm f p T H); clear H
         end.

Lemma step_facts w ev w' :
  timers_ok w ->
  step w ev = Done w' ->
  timers_ok w' /\
  exists delta,
    effects w' = effects w ++ delta /\
    (is_shutdown_ (mgr w) = true ->
     is_shutdown_ (mgr w') = true /\ Forall quiet delta) /\
    (0 < count is_on_done_run delta ->
     is_shutdown_ (mgr w') = true /\ Forall quiet delta) /\
    (is_shutdown_ (mgr w') = true ->
     count is_DoHandshake_call delta = 0) /\
    (forall h err, In (HsShutdown h err) delta ->
       is_shutdown_ (mgr w) = false /\ 0 < index_ (mgr w) /\
       nth_error (handshakers_ (mgr w)) (index_ (mgr w) - 1) = Some h /\
       count is_Shutdown_call delta = 1) /\
    count is_on_done_run delta + in_flight w' =
      in_flight w + (if is_DoHandshake_event ev then 1 else 0) /\
    index_ (mgr w') = index_ (mgr w) + count is_DoHandshake_call delta /\
    count is_DoHandshake_call delta <= 1 /\
    count is_Shutdown_call delta <= 1 /\
    (0 < count is_Shutdown_call delta ->
     is_shutdown_ (mgr w) = false /\ is_shutdown_ (mgr w') = true) /\
    count is_on_done_call delta + queued w' =
      queued w + count is_on_done_run delta /\
    List.length (handshakers_ (mgr w)) <= List.length (handshakers_ (mgr w')) /\
    (is_DoHandshake_event ev = false ->
     deadline_timer_handle_ (mgr w') = deadline_timer_handle_ (mgr w)) /\
    (is_DoHandshake_event ev = true ->
     exists d rest,
       delta = EeRunAfter d (deadline_timer_handle_ (mgr w')) :: rest) /\
    ((count is_on_done_run delta = 0 /\
      on_handshake_done_ (mgr w') = expected_callback w ev) \/
     Scheduled (deadline_timer_handle_ (mgr w')) (expected_callback w ev)
               delta).
Proof.
  intros Htm H. destruct ev.
  all: unfold timers_ok in *; step_cases H w; list_facts.
  all: try match goal with
           | E1 : snd ?p = DeadlineClosure, E2 : snd ?p = _ |- _ =>
               rewrite E1 in E2; discriminate E2
           end.
  all: split;
    [ cbn; repeat apply forallb_filter; rewrite ?forallb_app; cbn;
      rewrite ?andb_true_r; auto | ].
  all: pick_delta.
  all: unfold in_flight, queued, count, quiet in *; cbn in *.
  all: repeat rewrite ?filter_app, ?length_app, ?Nat.sub_0_r in *; cbn in *.
  all: subst.
  all: repeat split; intros; try discriminate; try lia; auto;
       try (repeat constructor; fail).
  all: repeat match goal with
              | H : _ \/ _ |- _ => destruct H
              | H : False |- _ => contradiction
              | H : HsShutdown _ _ = HsShutdown _ _ |- _ =>
                  inversion H; subst; clear H
              end; try discriminate; auto.
  all: try (left; split; [reflexivity | reflexivity]).
  all: try (right; scheduled; fail).
  all: try (eexists; eexists; reflexivity).
Qed.

Ltac flight_cases :=
  match goal with
  | I2 : ?X <= 1, I3 : ?X = 1 -> _ |- _ =>
      let E := fresh "E" in
      assert (E : X = 0 \/ X = 1) by lia; destruct E as [E|E];
      [ clear I3 | destruct (I3 E) as (? & ? & ?); clear I3 ]
  end.

Ltac empty_lists :=
  repeat match goal with
         | l : list Handshaker |- _ =>
             assert (List.length l = 0) by lia;
             destruct l; [| cbn in *; lia]
         end.

Lemma step_Inv w ev w' :
  timers_ok w -> Inv w -> step w ev = Done w' -> Inv w'.
Proof.
  intros Htm HI H. destruct ev.
  all: unfold timers_ok in *; step_cases H w; list_facts.
  all: try match goal with
           | E1 : snd ?p = DeadlineClosure, E2 : snd ?p = _ |- _ =>
               rewrite E1 in E2; discriminate E2
           end.
  all: unfold Inv, in_flight, scheduled, invoked, queued, count in *;
       cbn in *.
  all: repeat rewrite ?filter_app, ?length_app, ?forallb_app,
         ?Nat.sub_0_r in *; cbn in *.
  all: destruct HI as (I1 & I2 & I3 & I5 & I6 & I7).
  all: subst.
  all: flight_cases.
  all: try lia.
  all: empty_lists.
  all: try match goal with
           | N : ?c <> None |- _ => destruct c; [clear N | congruence]
           end.
  all: repeat split; intros; try lia; auto; try congruence.
  all: cbn in *; try contradiction.
  all: rewrite ?andb_true_r; auto using forallb_remove_nth.
  all: try match goal with
           | H : ?h = ?h0 \/ False |- _ => destruct H as [<-|[]]; assumption
           end.
  all: try match goal with
           | I5 : forall h, In h ?ip -> nth_error ?hs ?k = Some h,
             H : In ?h0 ?ip |- nth_error (?hs ++ _) ?k = Some ?h0 =>
               rewrite nth_error_app1;
               [ auto | apply nth_error_Some; rewrite (I5 _ H); discriminate ]
           end.
Qed.

(** ** Runs *)

Lemma run_invariant (P : World -> Prop) :
  (forall w ev w', P w -> step w ev = Done w' -> P w') ->
  forall evs w w', P w -> run w evs = Done w' -> P w'.
Proof.
  intros Hstep. induction evs as [|ev evs IH]; intros w w' HP H; cbn in H.
  - inversion H; subst. exact HP.
  - destruct (step w ev) as [w1|] eqn:E; [|discriminate].
    eapply IH; [|exact H]. eapply Hstep; eauto.
Qed.

Lemma run_app w evs1 evs2 :
  run w (evs1 ++ evs2) =
  match run w evs1 with
  | Done w1 => run w1 evs2
  | Crash f => Crash f
  end.
Proof.
  revert w. induction evs1 as [|ev evs1 IH]; intros w; cbn; [reflexivity|].
  destruct (step w ev); [apply IH | reflexivity].
Qed.

Lemma reachable_step w ev w' :
  reachable w -> step w ev = Done w' -> reachable w'.
Proof.
  intros [evs H] E. exists (evs ++ [ev]).
  rewrite run_app, H. cbn. now rewrite E.
Qed.

(** ** What holds in every reachable world *)

Lemma Good_new : Good World_new.
Proof.
  split; [reflexivity|]. split; [apply Inv_new|].
  unfold scheduled, count. cbn. repeat split; intros; lia.
Qed.

Lemma step_Good w ev w' : Good w -> step w ev = Done w' -> Good w'.
Proof.
  intros (Ht & HI & Hc & Hs & Hz & Ho) H.
  destruct (step_facts _ _ _ Ht H) as
    (Ht' & delta & He & F1 & F2 & F3 & F4 & F5 & F6 & F7 & F8 & F9 & F10 & _).
  pose proof (step_Inv _ _ _ Ht HI H) as HI'.
  unfold Good, scheduled in *. rewrite He, !count_app.
  split; [exact Ht'|]. split; [exact HI'|]. split; [lia|].
  split; [|split].
  - intros Hp. destruct (Nat.eq_dec (count is_on_done_run delta) 0) as [Z|NZ].
    + apply F1. apply Hs. lia.
    + apply F2. lia.
  - intros Hf.
    destruct (is_shutdown_ (mgr w)) eqn:Esd.
    + destruct (F1 eq_refl) as [C _]. congruence.
    + destruct (Nat.eq_dec (count is_Shutdown_call delta) 0) as [Z|NZ].
      * rewrite Hz; auto.
      * destruct F9 as [_ C]; [lia | congruence].
  - destruct (Nat.eq_dec (count is_Shutdown_call delta) 0) as [Z|NZ];
      [lia|].
    destruct F9 as [C _]; [lia|]. rewrite (Hz C). lia.
Qed.

Lemma reachable_Good w : reachable w -> Good w.
Proof.
  intros [evs H]. eapply (run_invariant Good); eauto using Good_new.
  intros; eapply step_Good; eauto.
Qed.

Lemma count_mid_pos {A} (p : A -> bool) pre e post :
  p e = true -> 0 < count p (pre ++ e :: post).
Proof.
  intros H. rewrite count_app. unfold count. cbn. rewrite H. cbn. lia.
Qed.

Lemma step_quiet_after_done w ev w' :
  Good w /\ quiet_after_done w -> step w ev = Done w' ->
  Good w' /\ quiet_after_done w'.
Proof.
  intros [HG IH] H. split; [eapply step_Good; eauto|].
  destruct HG as (Ht & _ & _ & Hs & _).
  destruct (step_facts _ _ _ Ht H) as (_ & delta & He & F1 & F2 & _).
  intros pre e post Hsplit Hrun. rewrite He in Hsplit.
  apply app_eq_app in Hsplit as [l [[E1 E2]|[E1 E2]]].
  - destruct l as [|x l]; cbn in E2.
    + subst delta.
      destruct F2 as [_ Q]; [apply (count_mid_pos _ []); exact Hrun|].
      now inversion Q.
    + inversion E2; subst x post. apply Forall_app. split.
      * eapply IH; eauto.
      * apply F1. apply Hs. unfold scheduled. rewrite E1.
        now apply count_mid_pos.
  - destruct F2 as [_ Q]; [rewrite E2; now apply count_mid_pos|].
    rewrite E2 in Q. apply Forall_app in Q as [_ Q]. now inversion Q.
Qed.

Lemma reachable_quiet_after_done w : reachable w -> quiet_after_done w.
Proof.
  intros [evs H].
  apply (run_invariant (fun w => Good w /\ quiet_after_done w)
           step_quiet_after_done evs World_new w); [|exact H].
  split; [apply Good_new|]. intros [|? ?] ? ? C; discriminate C.
Qed.

(** ** One handshake, from [DoHandshake] to the terminal callback *)

Lemma Scheduled_count h cb d :
  Scheduled h cb d -> count is_on_done_run d = 1.
Proof.
  induction 1 as [r post Hp | e d He _ IH]; unfold count in *; cbn.
  - now rewrite Hp.
  - now rewrite He.
Qed.

Lemma Scheduled_app_r h cb d d' :
  Scheduled h cb d -> count is_on_done_run d' = 0 -> Scheduled h cb (d ++ d').
Proof.
  induction 1 as [r post Hp | e d He _ IH]; intros Hd; cbn.
  - apply Scheduled_here. rewrite count_app. lia.
  - apply Scheduled_later; auto.
Qed.

Lemma Scheduled_app_l h cb d0 d :
  count is_on_done_run d0 = 0 -> Scheduled h cb d -> Scheduled h cb (d0 ++ d).
Proof.
  induction d0 as [|e d0 IH]; intros H0 Hs; cbn; [exact Hs|].
  unfold count in H0. cbn in H0.
  destruct (is_on_done_run e) eqn:E; cbn in H0; [discriminate|].
  apply Scheduled_later; auto.
Qed.

Lemma Scheduled_split h cb d :
  Scheduled h cb d ->
  exists pre r post,
    d = pre ++ EeCancel h :: EeRun (OnDoneClosure cb r) :: post /\
    count is_on_done_run pre = 0 /\ count is_on_done_run post = 0.
Proof.
  induction 1 as [r post Hp | e d He _ (pre & r & post & E & H1 & H2)].
  - exists [], r, post. repeat split; auto.
  - exists (e :: pre), r, post. subst d. repeat split; auto.
    unfold count in *. cbn. now rewrite He.
Qed.

Lemma step_handshake_state h cb L0 q0 w ev w' :
  is_DoHandshake_event ev = false ->
  Good w /\ handshake_state h cb L0 q0 w -> step w ev = Done w' ->
  Good w' /\ handshake_state h cb L0 q0 w'.
Proof.
  intros Hev [HG (Hh & delta & HL & (d0 & rest & Hd) & Hq & Hcase)] H.
  split; [eapply step_Good; eauto|].
  destruct HG as (Ht & _).
  destruct (step_facts _ _ _ Ht H)
    as (_ & d & He & _ & _ & _ & _ & F5 & _ & _ & _ & _ & F10 & _ & F8 & _
        & F12).
  rewrite Hev in F5. specialize (F8 Hev).
  assert (Ecb : expected_callback w ev = on_handshake_done_ (mgr w))
    by (destruct ev; try reflexivity; discriminate Hev).
  rewrite Ecb in F12.
  split; [congruence|].
  exists (delta ++ d). rewrite He, HL, app_assoc, !count_app.
  split; [reflexivity|].
  split; [exists d0, (rest ++ d); now rewrite Hd|].
  split; [lia|].
  destruct Hcase as [(Hf & Hcb & Hz) | (Hf & Hs)].
  - destruct F12 as [(Z & Hcb') | Hs].
    + left. repeat split; try lia; congruence.
    + right. pose proof (Scheduled_count _ _ _ Hs) as C.
      split; [lia|]. apply Scheduled_app_l; [exact Hz|].
      rewrite <- Hh, <- F8, <- Hcb. exact Hs.
  - right. split; [lia|]. apply Scheduled_app_r; [exact Hs | lia].
Qed.

Lemma DoHandshake_starts ep ca dl now acc cb w w' :
  Good w -> step w (EvDoHandshake ep ca dl now acc cb) = Done w' ->
  Good w' /\
  handshake_state (deadline_timer_handle_ (mgr w')) cb (effects w)
                  (queued w) w'.
Proof.
  intros HG H. split; [eapply step_Good; eauto|].
  destruct HG as (Ht & (_ & I2 & I3 & _) & _).
  assert (Hidx : index_ (mgr w) = 0).
  { destruct (index_ (mgr w)) eqn:E; [reflexivity|].
    unfold step, transition in H.
    rewrite DoHandshake_checks_index in H by lia. discriminate H. }
  assert (Hfl : in_flight w = 0).
  { destruct (Nat.eq_dec (in_flight w) 1) as [E|NE]; [|lia].
    destruct (I3 E) as [C _]. lia. }
  destruct (step_facts _ _ _ Ht H)
    as (_ & d & He & _ & _ & _ & _ & F5 & _ & _ & _ & _ & F10 & _ & _ & F9
        & F12).
  cbn in F5, F9, F12.
  split; [reflexivity|]. exists d. split; [exact He|].
  split; [exact (F9 eq_refl)|]. split; [lia|].
  destruct F12 as [(Z & Hcb) | Hs].
  - left. repeat split; auto; lia.
  - right. pose proof (Scheduled_count _ _ _ Hs). split; [lia | exact Hs].
Qed.

Lemma run_handshake_state h cb L0 q0 evs : forall w w',
  Forall (fun ev => is_DoHandshake_event ev = false) evs ->
  Good w /\ handshake_state h cb L0 q0 w -> run w evs = Done w' ->
  Good w' /\ handshake_state h cb L0 q0 w'.
Proof.
  induction evs as [|ev evs IH]; intros w w' Hev HP H; cbn in H.
  - inversion H; subst. exact HP.
  - destruct (step w ev) as [w1|] eqn:E; [|discriminate].
    inversion Hev; subst.
    eapply IH; [assumption | | exact H].
    eapply step_handshake_state; eauto.
Qed.

(** ** Enabled transitions do not fail *)

Lemma Handshaker_eqb_refl h : Handshaker_eqb h h = true.
Proof.
  unfold Handshaker_eqb. now rewrite Nat.eqb_refl, String.eqb_refl.
Qed.

Lemma remove_first_Some h l : In h l -> exists l', remove_first h l = Some l'.
Proof.
  induction l as [|x l IH]; intros Hin; [contradiction|]. cbn.
  destruct (Handshaker_eqb x h) eqn:E; [eauto|].
  destruct Hin as [->|Hin]; [now rewrite Handshaker_eqb_refl in E|].
  destruct (IH Hin) as [l' ->]. cbn. eauto.
Qed.

Ltac break_goal :=
  match goal with
  | |- context [match ?x with _ => _ end] =>
      lazymatch x with
      | context [match _ with _ => _ end] => fail
      | _ => destruct x eqn:?; cbn
      end
  end.

Ltac succeeds :=
  repeat break_goal; bool_hyps;
  first [ eexists; reflexivity
        | exfalso; try lia; try congruence ].

(** [DoHandshake] goes through whenever the cursor is still 0 and the
    channel args carry an event engine. *)
Lemma DoHandshake_succeeds ep ca dl now acc cb w :
  index_ (mgr w) = 0 -> GetObject_EventEngine ca = Some the_engine ->
  exists w', step w (EvDoHandshake ep ca dl now acc cb) = Done w'.
Proof.
  intros Hi He. open_world w. subst. unfold step, transition. unfold_ops.
  cbn. rewrite He. cbn.
  succeeds. cbn in *. discriminate.
Qed.

(** In a reachable world the handshaker in progress can always complete,
    directly or through [InvokeOnHandshakeDone], and every posted closure
    can run: no [CHECK] fails and nothing undefined happens. *)
Lemma enabled_steps_succeed w :
  Good w ->
  (forall h wr st, In h (in_progress w) ->
     (exists w', step w (EvHandshakerDone h wr st) = Done w') /\
     (exists w', step w (EvHandshakerInvokeDone h wr st) = Done w')) /\
  (forall i, i < List.length (run_queue (engine w)) ->
     exists w', step w (EvExecutorRun i) = Done w') /\
  (forall error, exists w', step w (EvShutdown error) = Done w').
Proof.
  intros (Ht & (I1 & I2 & I3 & I5 & I6 & _) & _).
  split; [|split].
  - intros h wr st Hin.
    destruct (remove_first_Some _ _ Hin) as [l El].
    pose proof (remove_first_length _ _ _ El) as Hl.
    assert (Hf : in_flight w = 1) by (unfold in_flight in *; lia).
    destruct (I3 Hf) as (Hidx & Hcb & Hee).
    open_world w. unfold step, transition. unfold_ops. cbn.
    rewrite El. cbn. rewrite Hee.
    split; succeeds.
    apply nth_error_None in Heqo. lia.
  - intros i Hi.
    destruct (nth_error (run_queue (engine w)) i) as [c|] eqn:Ec;
      [| apply nth_error_None in Ec; lia].
    pose proof (forallb_nth_error _ _ _ _ I6 Ec) as Hcall.
    pose proof (count_remove_nth is_continuation_closure _ _ _ Ec) as Hc.
    open_world w. unfold step, transition. unfold_ops. cbn.
    rewrite Ec. cbn.
    unfold count in *.
    destruct c as [[|id] st | [cb0|] r | ]; cbn in *; try discriminate.
    + assert (Hf : List.length ip +
                   List.length (filter is_continuation_closure rq) = 1)
        by lia.
      destruct (I3 Hf) as (Hidx & Hcb & Hee). rewrite Hee.
      succeeds. apply nth_error_None in Heqo. lia.
    + eexists; reflexivity.
    + eexists; reflexivity.
    + succeeds. apply nth_error_None in Heqo. lia.
  - intros error. open_world w. unfold step, transition. unfold_ops. cbn.
    succeeds. apply nth_error_None in Heqo. lia.
Qed.

Lemma terminal_decidable error m : terminal error m \/ ~ terminal error m.
Proof.
  rewrite <- terminal_dec.
  destruct (negb (ok error) || is_shutdown_ m || exit_early (args_ m)
            || (index_ m =? List.length (handshakers_ m)));
    [left; reflexivity | right; discriminate].
Qed.

(** The terminal branch calls [Commit()] on the trace node whatever the
    status is. *)
Lemma terminal_branch_commits error w :
  ready w -> terminal error (mgr w) ->
  exists w' delta,
    CallNextHandshakerLocked error w = Done (tt, w') /\
    effects w' = effects w ++ delta /\
    count is_commit delta = 1 /\
    tn_committed (trace_node (args_ (mgr w'))) = true.
Proof.
  intros Hready Ht.
  destruct (CallNext_terminal _ _ Hready Ht)
    as (w' & E & He & _ & _ & _ & _ & _ & _ & _ & _ & _ & _ & _ & _ & Hc).
  exists w', (terminal_effects error (mgr w)).
  repeat split; auto.
  unfold terminal_effects.
  destruct (ok error && is_shutdown_ (mgr w)); reflexivity.
Qed.

Lemma Shutdown_noop error w :
  is_shutdown_ (mgr w) = true -> Shutdown error w = Done (tt, w).
Proof. intros H. open_world w. subst. reflexivity. Qed.

(** * The claims *)

(** C1. After a [DoHandshake] call in a reachable world, and along any
    sequence of further transitions (handshaker completions, [Shutdown]
    calls, timer fires, executor runs, [Add] calls): as long as a
    continuation of the manager is in flight the terminal callback has not
    been posted, and once none is in flight it has been posted exactly once,
    with the callback given to that call, directly after the [Cancel] of the
    deadline timer that the call armed; calls of terminal callbacks on the
    executor plus those still waiting there account exactly for the posted
    ones; and the handshaker in progress can always complete, so the
    handshake is never stuck on the manager's side. *)
Theorem on_done_exactly_once w0 ep ca dl now acc cb evs w1 w2 :
  reachable w0 ->
  step w0 (EvDoHandshake ep ca dl now acc cb) = Done w1 ->
  Forall (fun ev => is_DoHandshake_event ev = false) evs ->
  run w1 evs = Done w2 ->
  exists h delta,
    effects w2 = effects w0 ++ delta /\
    (exists d rest, delta = EeRunAfter d h :: rest) /\
    in_flight w2 <= 1 /\
    count is_on_done_run delta + in_flight w2 = 1 /\
    (in_flight w2 = 0 ->
     exists pre r post,
       delta = pre ++ EeCancel h :: EeRun (OnDoneClosure (Some cb) r) :: post
       /\ count is_on_done_run pre = 0 /\ count is_on_done_run post = 0) /\
    count is_on_done_call delta + queued w2 =
      queued w0 + count is_on_done_run delta /\
    (forall h' wr st, In h' (in_progress w2) ->
       exists w3, step w2 (EvHandshakerDone h' wr st) = Done w3) /\
    (forall i, i < List.length (run_queue (engine w2)) ->
       exists w3, step w2 (EvExecutorRun i) = Done w3).
Proof.
  intros Hr H1 Hev H2.
  pose proof (DoHandshake_starts _ _ _ _ _ _ _ _ (reachable_Good _ Hr) H1)
    as HP.
  destruct (run_handshake_state _ _ _ _ _ _ _ Hev HP H2)
    as (HG & _ & delta & HL & Hpre & Hq & Hcase).
  destruct (enabled_steps_succeed _ HG) as (P1 & P2 & _).
  pose proof HG as (_ & (_ & I2 & _) & _).
  exists (deadline_timer_handle_ (mgr w1)), delta.
  split; [exact HL|]. split; [exact Hpre|]. split; [exact I2|].
  split; [|split; [|split; [exact Hq|split]]].
  - destruct Hcase as [(Hf & _ & Z) | (Hf & Hs)]; [lia|].
    rewrite (Scheduled_count _ _ _ Hs). lia.
  - intros Hf. destruct Hcase as [(Hf' & _) | (_ & Hs)]; [lia|].
    now apply Scheduled_split.
  - intros h' wr st Hin. apply (P1 h' wr st Hin).
  - exact P2.
Qed.

Lemma on_done_exactly_once_witness :
  reachable ex_added /\
  step ex_added ex_start = Done ex_started /\
  run ex_started [EvHandshakerDone ex_h1 ex_write OkStatus]
    = Done ex_completed /\
  exists (h : TaskHandle) delta,
    effects ex_completed = effects ex_added ++ delta /\
    count is_on_done_run delta + in_flight ex_completed = 1.
Proof.
  assert (Hr : reachable ex_added) by (exists [EvAdd ex_h1]; reflexivity).
  assert (H1 : step ex_added ex_start = Done ex_started) by reflexivity.
  assert (H2 : run ex_started [EvHandshakerDone ex_h1 ex_write OkStatus]
               = Done ex_completed) by reflexivity.
  assert (Hev : Forall (fun ev => is_DoHandshake_event ev = false)
                       [EvHandshakerDone ex_h1 ex_write OkStatus])
    by (repeat constructor).
  destruct (on_done_exactly_once _ _ _ _ _ _ _ _ _ _ Hr H1 Hev H2)
    as (h & delta & HL & _ & _ & Hc & _).
  split; [exact Hr|]. split; [exact H1|]. split; [exact H2|].
  exists h, delta. split; assumption.
Defined.

(** C2. Called with the cursor in range and the event engine stored,
    [CallNextHandshakerLocked] takes the terminal branch if and only if the
    status is not ok, or [is_shutdown_] is set, or [args_.exit_early] is
    set, or [index_] equals the number of handshakers; in every other case
    it reads [handshakers_[index_]], increments [index_] and calls that
    handshaker's [DoHandshake]. *)
Theorem CallNextHandshakerLocked_branches error w :
  ready w ->
  exists w',
    CallNextHandshakerLocked error w = Done (tt, w') /\
    (terminal error (mgr w) <-> took_terminal_branch w w') /\
    (~ terminal error (mgr w) <-> called_next_handshaker w w').
Proof.
  intros Hready. destruct (terminal_decidable error (mgr w)) as [Ht|Hn].
  - destruct (CallNext_terminal _ _ Hready Ht)
      as (w' & E & He & Hip & Hq & _ & _ & _ & Hi & Hs & _).
    assert (T : took_terminal_branch w w').
    { unfold terminal_effects in He.
      eexists _, _. rewrite He. split; [reflexivity|].
      split; [|auto].
      destruct (ok error && is_shutdown_ (mgr w)); repeat constructor. }
    exists w'. split; [exact E|]. split; [tauto|].
    split; [tauto|]. intros (h & _ & _ & C & _). lia.
  - destruct (CallNext_advance _ _ Hready Hn)
      as (h & w' & Eh & E & He & Hip & Hen & _ & Hi & Hs & _).
    assert (N : called_next_handshaker w w').
    { exists h. auto 10. }
    exists w'. split; [exact E|]. split; [|tauto].
    split; [tauto|]. intros (pre & r & _ & _ & _ & C & _). lia.
Qed.

Lemma CallNextHandshakerLocked_branches_witness :
  ready ex_started /\
  exists w',
    CallNextHandshakerLocked OkStatus ex_started = Done (tt, w') /\
    took_terminal_branch ex_started w'.
Proof.
  assert (Hr : ready ex_started) by (split; [cbn; lia | reflexivity]).
  split; [exact Hr|].
  destruct (CallNextHandshakerLocked_branches OkStatus ex_started Hr)
    as (w' & E & [T _] & _).
  exists w'. split; [exact E|]. apply T.
  right; right; right. reflexivity.
Defined.

(** C3. In the terminal branch the status handed to the terminal callback
    is the incoming status whenever that is not ok, also when
    [is_shutdown_] is set; the error "handshaker shutdown" is made up only
    when the incoming status is ok and [is_shutdown_] is set; an ok status
    without shutdown yields the pointer to the args. *)
Theorem terminal_status_surfaced error w :
  ready w -> terminal error (mgr w) ->
  exists w' pre r,
    CallNextHandshakerLocked error w = Done (tt, w') /\
    effects w' = effects w ++ pre ++
      [TnCommit; EeCancel (deadline_timer_handle_ (mgr w));
       EeRun (OnDoneClosure (on_handshake_done_ (mgr w)) r)] /\
    ((ok error = false /\ r = StatusError error) \/
     (ok error = true /\ is_shutdown_ (mgr w) = true /\
      r = StatusError (GRPC_ERROR_CREATE "handshaker shutdown")) \/
     (ok error = true /\ is_shutdown_ (mgr w) = false /\ r = ArgsPtr)).
Proof.
  intros Hready Ht.
  destruct (CallNext_terminal _ _ Hready Ht) as (w' & E & He & _).
  exists w'. unfold terminal_effects in He.
  eexists _, _. split; [exact E|]. split; [exact He|].
  unfold terminal_result, terminal_status.
  destruct (ok error) eqn:Eok; destruct (is_shutdown_ (mgr w)) eqn:Esd;
    cbn; rewrite ?Eok; auto.
Qed.

Lemma terminal_status_surfaced_witness :
  ready ex_cancelled /\
  terminal (ErrorStatus kInternal "bad preface") (mgr ex_cancelled) /\
  exists w' pre,
    CallNextHandshakerLocked (ErrorStatus kInternal "bad preface") ex_cancelled
      = Done (tt, w') /\
    effects w' = effects ex_cancelled ++ pre ++
      [TnCommit; EeCancel (deadline_timer_handle_ (mgr ex_cancelled));
       EeRun (OnDoneClosure (on_handshake_done_ (mgr ex_cancelled))
                (StatusError (ErrorStatus kInternal "bad preface")))].
Proof.
  assert (Hr : ready ex_cancelled) by (split; [cbn; lia | reflexivity]).
  assert (Ht : terminal (ErrorStatus kInternal "bad preface")
                        (mgr ex_cancelled)) by (left; reflexivity).
  split; [exact Hr|]. split; [exact Ht|].
  destruct (terminal_status_surfaced _ _ Hr Ht)
    as (w' & pre & r & E & He & [[_ R] | [[C _] | [C _]]]);
    try discriminate C.
  exists w', pre. split; [exact E|]. rewrite <- R. exact He.
Defined.

(** C4. Two handshakers that both complete with an ok status: the
    terminal callback receives the pointer to the args, and the trace node
    has been committed all the same, because [Commit()] stands after the
    [if (!error.ok())] block of the terminal branch, not inside it. *)
Theorem commit_on_ok_terminal :
  exists w,
    run World_new ex_happy_path = Done w /\
    effects w =
      [EeRunAfter 90%Z (Handle 0); HsDoHandshake ex_h1; HsDoHandshake ex_h2;
       TnCommit; EeCancel (Handle 0);
       EeRun (OnDoneClosure (Some 42) ArgsPtr)] /\
    tn_committed (trace_node (args_ (mgr w))) = true.
Proof.
  exists (world_after ex_happy_path).
  split; [|split]; vm_compute; reflexivity.
Qed.

(** A handshake on a manager without handshakers, started with a null
    endpoint, ends ok with a null [args_.endpoint]. *)
Lemma ok_terminal_with_null_endpoint :
  exists w,
    run World_new ex_null_endpoint = Done w /\
    effects w =
      [EeRunAfter 90%Z (Handle 0); TnCommit; EeCancel (Handle 0);
       EeRun (OnDoneClosure (Some 42) ArgsPtr)] /\
    endpoint (args_ (mgr w)) = None.
Proof.
  exists (world_after ex_null_endpoint).
  split; [|split]; vm_compute; reflexivity.
Qed.

(** C5, as amended.  On an ok terminal the terminal callback receives the
    pointer to the args and the manager leaves [args_.endpoint] as it found
    it, so that it is non-null exactly when it was non-null on entry; on the
    terminal reached with an ok status while [is_shutdown_] is set, the
    endpoint is reset, [args_.endpoint] is null, and the reset comes before
    the posting of the terminal callback. *)
Theorem endpoint_on_terminal error w :
  ready w -> terminal error (mgr w) ->
  exists w' pre r,
    CallNextHandshakerLocked error w = Done (tt, w') /\
    effects w' = effects w ++ pre ++
      [TnCommit; EeCancel (deadline_timer_handle_ (mgr w));
       EeRun (OnDoneClosure (on_handshake_done_ (mgr w)) r)] /\
    (r = ArgsPtr <-> ok error = true /\ is_shutdown_ (mgr w) = false) /\
    (r = ArgsPtr ->
     pre = [] /\ endpoint (args_ (mgr w')) = endpoint (args_ (mgr w))) /\
    (ok error = true -> is_shutdown_ (mgr w) = true ->
     pre = [EndpointReset (endpoint (args_ (mgr w)))] /\
     endpoint (args_ (mgr w')) = None /\
     r = StatusError (GRPC_ERROR_CREATE "handshaker shutdown")).
Proof.
  intros Hready Ht.
  destruct (CallNext_terminal _ _ Hready Ht)
    as (w' & E & He & _ & _ & _ & _ & _ & _ & _ & _ & _ & _ & _ & Hep & _).
  exists w'. unfold terminal_effects in He.
  eexists _, _. split; [exact E|]. split; [exact He|].
  unfold terminal_result, terminal_status. rewrite Hep.
  destruct (ok error) eqn:Eok; destruct (is_shutdown_ (mgr w)) eqn:Esd;
    cbn; rewrite ?Eok; repeat split; intros; auto;
    try discriminate; try tauto;
    repeat match goal with H : _ /\ _ |- _ => destruct H end;
    try discriminate.
Qed.

Lemma endpoint_on_terminal_witness :
  ready ex_cancelled /\ terminal OkStatus (mgr ex_cancelled) /\
  exists w',
    CallNextHandshakerLocked OkStatus ex_cancelled = Done (tt, w') /\
    endpoint (args_ (mgr w')) = None.
Proof.
  assert (Hr : ready ex_cancelled) by (split; [cbn; lia | reflexivity]).
  assert (Ht : terminal OkStatus (mgr ex_cancelled))
    by (right; left; reflexivity).
  split; [exact Hr|]. split; [exact Ht|].
  destruct (endpoint_on_terminal _ _ Hr Ht)
    as (w' & pre & r & E & _ & _ & _ & R).
  exists w'. split; [exact E|]. apply (R eq_refl eq_refl).
Defined.

(** C6. In a reachable world: once [is_shutdown_] is set, no transition
    calls [DoHandshake] or [Shutdown] on any handshaker, and the transition
    that sets it calls no [DoHandshake]; a [Shutdown] call goes to
    [handshakers_[index_ - 1]] with [index_ > 0], at a moment when
    [is_shutdown_] was still clear, that handshaker is the only one that
    can hold a continuation, and no more than one such call is ever made;
    after the terminal callback has been posted, no call to a handshaker
    follows. *)
Theorem no_handshaker_call_after_shutdown w ev w' :
  reachable w -> step w ev = Done w' ->
  exists delta,
    effects w' = effects w ++ delta /\
    (is_shutdown_ (mgr w) = true ->
     is_shutdown_ (mgr w') = true /\ Forall quiet delta) /\
    (is_shutdown_ (mgr w') = true -> count is_DoHandshake_call delta = 0) /\
    (forall h err, In (HsShutdown h err) delta ->
       is_shutdown_ (mgr w) = false /\ 0 < index_ (mgr w) /\
       nth_error (handshakers_ (mgr w)) (index_ (mgr w) - 1) = Some h /\
       forall h', In h' (in_progress w) -> h' = h) /\
    count is_Shutdown_call (effects w') <= 1 /\
    (forall pre e post,
       effects w' = pre ++ e :: post -> is_on_done_run e = true ->
       Forall quiet post).
Proof.
  intros Hr H.
  pose proof (reachable_Good _ Hr) as (Ht & (_ & _ & _ & I5 & _) & _).
  pose proof (reachable_step _ _ _ Hr H) as Hr'.
  pose proof (reachable_Good _ Hr') as (_ & _ & _ & _ & _ & Ho').
  destruct (step_facts _ _ _ Ht H)
    as (_ & delta & He & F1 & _ & F3 & F4 & _).
  exists delta.
  split; [exact He|]. split; [exact F1|]. split; [exact F3|].
  split; [|split; [exact Ho' | apply (reachable_quiet_after_done _ Hr')]].
  intros h err Hin. destruct (F4 _ _ Hin) as (S1 & S2 & S3 & _).
  repeat split; auto.
  intros h' Hin'. specialize (I5 _ Hin'). congruence.
Qed.

Lemma no_handshaker_call_after_shutdown_witness :
  reachable ex_started /\
  step ex_started (EvShutdown (ErrorStatus kCancelled "cancel"))
    = Done ex_cancelled /\
  exists delta,
    effects ex_cancelled = effects ex_started ++ delta /\
    count is_DoHandshake_call delta = 0.
Proof.
  assert (Hr : reachable ex_started)
    by (exists [EvAdd ex_h1; ex_start]; reflexivity).
  assert (Hs : step ex_started (EvShutdown (ErrorStatus kCancelled "cancel"))
               = Done ex_cancelled) by reflexivity.
  destruct (no_handshaker_call_after_shutdown _ _ _ Hr Hs)
    as (delta & He & _ & F & _).
  split; [exact Hr|]. split; [exact Hs|].
  exists delta. split; [exact He|]. apply F. reflexivity.
Defined.

(** C7. [Shutdown] with [is_shutdown_] already set changes nothing;
    otherwise it sets [is_shutdown_] and calls [Shutdown(error)] on
    [handshakers_[index_ - 1]] exactly when [index_ > 0]; in neither case
    does it post or call the terminal callback or touch the event engine,
    and a second [Shutdown] after it is without effect. *)
Theorem Shutdown_idempotent error w :
  index_ (mgr w) <= List.length (handshakers_ (mgr w)) ->
  exists w' delta,
    Shutdown error w = Done (tt, w') /\
    effects w' = effects w ++ delta /\
    is_shutdown_ (mgr w') = true /\
    engine w' = engine w /\
    on_handshake_done_ (mgr w') = on_handshake_done_ (mgr w) /\
    index_ (mgr w') = index_ (mgr w) /\
    count is_on_done_run delta = 0 /\
    count is_on_done_call delta = 0 /\
    (is_shutdown_ (mgr w) = true -> w' = w /\ delta = []) /\
    (is_shutdown_ (mgr w) = false ->
     (0 < index_ (mgr w) ->
      exists h,
        nth_error (handshakers_ (mgr w)) (index_ (mgr w) - 1) = Some h /\
        delta = [HsShutdown h error]) /\
     (index_ (mgr w) = 0 -> delta = [])) /\
    (forall error2, Shutdown error2 w' = Done (tt, w')).
Proof.
  intros Hi.
  destruct (Shutdown_fields error w Hi)
    as (w' & delta & E & He & Hen & _ & _ & Hidx & Hs & Hcb & _ & _ & _ & _
        & _ & Hcase).
  exists w', delta. repeat split; auto using Shutdown_noop.
  all: destruct Hcase as [(S1 & S2 & S3) | [(S1 & S2 & S3) |
                          (S1 & S2 & h & S3 & S4)]];
    subst; try reflexivity; try congruence; try lia; eauto.
Qed.

Lemma Shutdown_idempotent_witness :
  index_ (mgr ex_started) <= List.length (handshakers_ (mgr ex_started)) /\
  exists w',
    Shutdown (ErrorStatus kCancelled "cancel") ex_started = Done (tt, w') /\
    effects w' =
      effects ex_started ++
      [HsShutdown ex_h1 (ErrorStatus kCancelled "cancel")] /\
    Shutdown (GRPC_ERROR_CREATE "Handshake timed out") w' = Done (tt, w').
Proof.
  assert (Hi : index_ (mgr ex_started)
               <= List.length (handshakers_ (mgr ex_started)))
    by (cbn; lia).
  split; [exact Hi|].
  destruct (Shutdown_idempotent (ErrorStatus kCancelled "cancel") _ Hi)
    as (w' & delta & E & He & _ & _ & _ & _ & _ & _ & _ & F & N).
  exists w'. split; [exact E|]. split; [|apply N].
  destruct F as [F _]; [reflexivity|].
  destruct F as (h & Eh & Ed); [cbn; lia|].
  rewrite He, Ed. cbn in Eh. inversion Eh; subst h. reflexivity.
Defined.

(** C8. The cursor [index_] is 0 in a new manager; every transition of a
    reachable world leaves it within [0, handshakers_.size()], never
    decreases it, and increases it by exactly the number of [DoHandshake]
    calls made on handshakers in that transition, which is at most one. *)
Theorem cursor_monotone w ev w' :
  reachable w -> step w ev = Done w' ->
  index_ (mgr World_new) = 0 /\
  index_ (mgr w) <= List.length (handshakers_ (mgr w)) /\
  index_ (mgr w') <= List.length (handshakers_ (mgr w')) /\
  index_ (mgr w) <= index_ (mgr w') /\
  exists delta,
    effects w' = effects w ++ delta /\
    count is_DoHandshake_call delta <= 1 /\
    index_ (mgr w') = index_ (mgr w) + count is_DoHandshake_call delta /\
    index_ (mgr w') = count is_DoHandshake_call (effects w').
Proof.
  intros Hr H.
  pose proof (reachable_Good _ Hr) as (Ht & (I1 & _) & _).
  pose proof (reachable_Good _ (reachable_step _ _ _ Hr H))
    as (_ & (I1' & _) & Hc' & _).
  destruct (step_facts _ _ _ Ht H)
    as (_ & delta & He & _ & _ & _ & _ & _ & F6 & F7 & _).
  repeat split; auto; try lia.
  exists delta. repeat split; auto.
Qed.

Lemma cursor_monotone_witness :
  reachable ex_added /\
  step ex_added ex_start = Done ex_started /\
  index_ (mgr ex_added) <= index_ (mgr ex_started) /\
  index_ (mgr ex_started) <= List.length (handshakers_ (mgr ex_started)).
Proof.
  assert (Hr : reachable ex_added) by (exists [EvAdd ex_h1]; reflexivity).
  assert (Hs : step ex_added ex_start = Done ex_started) by reflexivity.
  destruct (cursor_monotone _ _ _ Hr Hs) as (_ & _ & B & M & _).
  repeat split; assumption.
Defined.

(** [Add] while a handshake is under way, and a second [DoHandshake] on a
    manager without handshakers: both go through. *)
Lemma misuse_not_detected :
  (exists w,
     run World_new [EvAdd ex_h1; ex_start; EvAdd ex_h2] = Done w /\
     handshakers_ (mgr w) = [ex_h1; ex_h2] /\ in_progress w = [ex_h1]) /\
  (exists w, run World_new [ex_start; ex_start] = Done w).
Proof.
  split.
  - exists (world_after [EvAdd ex_h1; ex_start; EvAdd ex_h2]).
    split; [|split]; vm_compute; reflexivity.
  - exists (world_after [ex_start; ex_start]). vm_compute; reflexivity.
Qed.

(** C9, as amended.  In a reachable world in which some handshaker has been
    invoked, a call of [DoHandshake] fails [CHECK_EQ(index_, 0u)]; [Add] has
    no checked precondition and, at any time, appends the handshaker and
    changes nothing else. *)
Theorem misuse_detection w :
  reachable w ->
  (forall ep ca dl now acc cb,
     0 < count is_DoHandshake_call (effects w) ->
     DoHandshake ep ca dl now acc cb w = Crash (CheckFailed "index_ == 0u")) /\
  (forall h,
     exists w',
       Add h w = Done (tt, w') /\
       handshakers_ (mgr w') = handshakers_ (mgr w) ++ [h] /\
       index_ (mgr w') = index_ (mgr w) /\
       is_shutdown_ (mgr w') = is_shutdown_ (mgr w) /\
       args_ (mgr w') = args_ (mgr w) /\
       engine w' = engine w /\ in_progress w' = in_progress w /\
       effects w' = effects w).
Proof.
  intros Hr. pose proof (reachable_Good _ Hr) as (_ & _ & Hc & _).
  split.
  - intros ep ca dl now acc cb Hpos.
    apply DoHandshake_checks_index. lia.
  - intros h. eexists. rewrite Add_fields. split; [reflexivity|].
    cbn. repeat split.
Qed.

Lemma misuse_detection_witness :
  reachable ex_started /\
  DoHandshake (Some 6) ex_channel_args 200%Z 20%Z None 43 ex_started
    = Crash (CheckFailed "index_ == 0u").
Proof.
  assert (Hr : reachable ex_started)
    by (exists [EvAdd ex_h1; ex_start]; reflexivity).
  split; [exact Hr|].
  apply (proj1 (misuse_detection _ Hr)). cbn. lia.
Defined.

(** C10. [InvokeOnHandshakeDone] calls nothing on the caller's stack: it
    hands one closure to the event engine's [Run].  When the executor runs
    that closure, which it can always do for a callback that is not the
    manager's continuation, and for the manager's continuation whenever
    [CallNextHandshakerLocked] is callable, the closure enters an
    [ExecCtx], calls the callback once with the given status, destroys the
    callback and only then leaves the [ExecCtx]. *)
Theorem InvokeOnHandshakeDone_posts args cb status w :
  event_engine args = Some the_engine ->
  exists w',
    InvokeOnHandshakeDone args cb status w = Done (tt, w') /\
    effects w' = effects w ++ [EeRun (InvokeDoneClosure cb status)] /\
    run_queue (engine w') =
      run_queue (engine w) ++ [InvokeDoneClosure cb status] /\
    mgr w' = mgr w /\ in_progress w' = in_progress w /\
    forall w1,
      (cb = ManagerContinuation -> ready w1) ->
      exists w2 mid,
        run_closure (InvokeDoneClosure cb status) w1 = Done (tt, w2) /\
        effects w2 =
          effects w1 ++ [ExecCtxEnter; CallHandshakeDone cb status] ++ mid
          ++ [DestroyHandshakeDone cb; ExecCtxExit] /\
        count is_callback_effect mid = 0 /\
        (cb <> ManagerContinuation -> mid = [] /\ mgr w2 = mgr w1).
Proof.
  intros He. unfold InvokeOnHandshakeDone, engine_Run, deref_engine.
  rewrite He. eexists. split; [reflexivity|]. cbn.
  repeat split.
  intros w1 Hready.
  destruct cb as [|id].
  - specialize (Hready eq_refl).
    set (w1' := {| mgr := mgr w1; engine := engine w1;
                   in_progress := in_progress w1;
                   effects := (effects w1 ++ [ExecCtxEnter]) ++
                              [CallHandshakeDone ManagerContinuation status]
                |}).
    assert (Hr' : ready w1') by exact Hready.
    assert (Hrun : forall w2 mid,
               CallNextHandshakerLocked status w1' = Done (tt, w2) ->
               effects w2 = effects w1' ++ mid ->
               count is_callback_effect mid = 0 ->
               exists w3 mid0,
                 run_closure
                   (InvokeDoneClosure ManagerContinuation status) w1
                 = Done (tt, w3) /\
                 effects w3 =
                   effects w1 ++
                   [ExecCtxEnter;
                    CallHandshakeDone ManagerContinuation status] ++ mid0 ++
                   [DestroyHandshakeDone ManagerContinuation; ExecCtxExit] /\
                 count is_callback_effect mid0 = 0 /\
                 (ManagerContinuation <> ManagerContinuation ->
                  mid0 = [] /\ mgr w3 = mgr w1)).
    { intros w2 mid E Hmid Hc.
      cbv [run_closure call_handshake_done bind emit].
      cbn [mgr engine in_progress effects].
      match goal with
      | |- context [CallNextHandshakerLocked status ?x] => change x with w1'
      end.
      rewrite E. eexists _, mid. split; [reflexivity|]. cbn.
      rewrite Hmid. subst w1'. cbn. rewrite <- !app_assoc. cbn.
      repeat split; auto. congruence. congruence. }
    destruct (terminal_decidable status (mgr w1')) as [Ht|Hn].
    + destruct (CallNext_terminal _ _ Hr' Ht) as (w2 & E & Hmid & _).
      apply (Hrun _ _ E Hmid).
      unfold terminal_effects.
      destruct (ok status && is_shutdown_ (mgr w1')); reflexivity.
    + destruct (CallNext_advance _ _ Hr' Hn) as (h & w2 & _ & E & Hmid & _).
      apply (Hrun _ _ E Hmid). reflexivity.
  - eexists _, []. split; [reflexivity|]. cbn. rewrite <- !app_assoc. cbn.
    repeat split.
Qed.

Lemma InvokeOnHandshakeDone_posts_witness :
  event_engine (args_ (mgr ex_started)) = Some the_engine /\
  exists w',
    InvokeOnHandshakeDone (args_ (mgr ex_started)) (OtherCallback 9)
                          (ErrorStatus kUnavailable "reset") World_new
      = Done (tt, w') /\
    effects w' =
      [EeRun (InvokeDoneClosure (OtherCallback 9)
                                (ErrorStatus kUnavailable "reset"))].
Proof.
  assert (He : event_engine (args_ (mgr ex_started)) = Some the_engine)
    by reflexivity.
  split; [exact He|].
  destruct (InvokeOnHandshakeDone_posts _ (OtherCallback 9)
              (ErrorStatus kUnavailable "reset") World_new He)
    as (w' & E & Heff & _).
  exists w'. split; [exact E | exact Heff].
Defined.

(** * Further properties of the code *)

(** ** Further invariants of the handshake pipeline *)

Lemma TaskHandle_eqb_refl h : TaskHandle_eqb h h = true.
Proof. destruct h; cbn; auto using Nat.eqb_refl. Qed.

Lemma invoked_handshakers_app l1 l2 :
  invoked_handshakers (l1 ++ l2) =
  invoked_handshakers l1 ++ invoked_handshakers l2.
Proof.
  induction l1 as [|e l1 IH]; cbn; [reflexivity|].
  destruct e; cbn; rewrite ?IH; reflexivity.
Qed.

Lemma firstn_snoc {A} (l : list A) n x :
  nth_error l n = Some x -> firstn (S n) l = firstn n l ++ [x].
Proof.
  revert n. induction l as [|y l IH]; intros [|n] H; cbn in *;
    try discriminate.
  - now inversion H.
  - f_equal. apply IH. exact H.
Qed.

Lemma step_order w ev w' :
  timers_ok w -> step w ev = Done w' ->
  exists delta,
    effects w' = effects w ++ delta /\
    ((handshakers_ (mgr w') = handshakers_ (mgr w) \/
      exists h, handshakers_ (mgr w') = handshakers_ (mgr w) ++ [h]) /\
     ((invoked_handshakers delta = [] /\ index_ (mgr w') = index_ (mgr w)) \/
      (exists h,
         nth_error (handshakers_ (mgr w)) (index_ (mgr w)) = Some h /\
         invoked_handshakers delta = [h] /\
         index_ (mgr w') = S (index_ (mgr w))))).
Proof.
  intros Htm H. destruct ev.
  all: unfold timers_ok in *; step_cases H w; list_facts.
  all: try match goal with
           | E1 : snd ?p = DeadlineClosure, E2 : snd ?p = _ |- _ =>
               rewrite E1 in E2; discriminate E2
           end.
  all: pick_delta.
  all: cbn; split; [eauto|].
  all: first [ left; split; reflexivity
             | right; eexists; repeat split; eauto ].
Qed.

Lemma step_posts w ev w' :
  timers_ok w -> Inv w -> step w ev = Done w' ->
  exists delta,
    effects w' = effects w ++ delta /\
    forallb well_formed_post delta = true.
Proof.
  intros Htm HI H. destruct ev.
  all: unfold timers_ok in *; step_cases H w; list_facts.
  all: try match goal with
           | E1 : snd ?p = DeadlineClosure, E2 : snd ?p = _ |- _ =>
               rewrite E1 in E2; discriminate E2
           end.
  all: pick_delta.
  all: try reflexivity.
  all: unfold Inv, in_flight, count in *; cbn in *.
  all: destruct HI as (I1 & I2 & I3 & _).
  all: subst.
  all: try (flight_cases; try lia;
            match goal with
            | N : ?c <> None |- _ => destruct c; [clear N | congruence]
            end).
  all: cbn;
    repeat match goal with
           | E : ok _ = _ |- _ => rewrite E
           end; try reflexivity.
Qed.

Lemma step_timer_state w ev w' :
  Inv w -> timer_state w -> step w ev = Done w' -> timer_state w'.
Proof.
  intros HI [Ht Hz] H.
  assert (Htm : timers_ok w).
  { unfold timers_ok. destruct Ht as [->| ->]; reflexivity. }
  pose proof (step_Inv _ _ _ Htm HI H) as HI'.
  destruct ev.
  all: open_world w.
  all: destruct Ht as [Ht|Ht]; subst tm.
  all: unfold_ops_in H; cbn in H; repeat break_inner H;
       inversion H; subst; clear H; bool_hyps; list_facts.
  all: unfold timer_state, Inv, in_flight, count in *; cbn in *.
  all: rewrite ?TaskHandle_eqb_refl, ?Nat.eqb_refl in *; cbn in *.
  all: repeat rewrite ?filter_app, ?length_app in *; cbn in *.
  all: destruct HI as (I1 & I2 & I3 & _); clear HI'.
  all: try (exfalso;
            match goal with
            | I2 : ?X <= 1, I3 : ?X = 1 -> _, Hz : ?X = 0 -> _ |- _ =>
                let E := fresh "E" in
                assert (E : X = 0 \/ X = 1) by lia; destruct E as [E|E];
                [ discriminate (Hz E) | destruct (I3 E) as (? & _); lia ]
            end).
  all: split; [ first [left; reflexivity | right; reflexivity] | ].
  all: intros Hf; first [ reflexivity
                        | exfalso; lia
                        | discriminate (Hz ltac:(lia)) ].
Qed.


(** * Further properties of the handshake pipeline *)

(** The handshakers invoked so far are the first [index_] ones. *)
Lemma reachable_invoked_in_order w :
  reachable w ->
  Good w /\
  invoked_handshakers (effects w) =
  firstn (index_ (mgr w)) (handshakers_ (mgr w)).
Proof.
  intros [evs H]. revert H.
  apply (run_invariant
           (fun w => Good w /\
                     invoked_handshakers (effects w) =
                     firstn (index_ (mgr w)) (handshakers_ (mgr w)))).
  - clear. intros w ev w' [HG IH] H. split; [eapply step_Good; eauto|].
    pose proof HG as (Ht & (I1 & _) & _).
    destruct (step_order _ _ _ Ht H) as (delta & He & Hhs & Hcall).
    rewrite He, invoked_handshakers_app, IH.
    assert (Hpre : forall n, n <= List.length (handshakers_ (mgr w)) ->
                     firstn n (handshakers_ (mgr w')) =
                     firstn n (handshakers_ (mgr w))).
    { intros n Hn. destruct Hhs as [-> | [x ->]]; [reflexivity|].
      rewrite firstn_app.
      replace (n - List.length (handshakers_ (mgr w))) with 0 by lia.
      cbn. apply app_nil_r. }
    destruct Hcall as [[-> ->] | (h & Eh & -> & ->)].
    + rewrite app_nil_r. symmetry. apply Hpre. exact I1.
    + assert (Hlt : index_ (mgr w) < List.length (handshakers_ (mgr w)))
        by (apply nth_error_Some; congruence).
      rewrite <- (Hpre (index_ (mgr w))) by lia.
      symmetry. apply firstn_snoc.
      destruct Hhs as [-> | [x ->]]; [exact Eh|].
      rewrite nth_error_app1; assumption.
  - split; [apply Good_new | reflexivity].
Qed.

(** X1. Ordered invocation: in every reachable world the handshakers whose
    [DoHandshake] has been called are, in call order, exactly the first
    [index_] entries of [handshakers_]. *)
Theorem handshakers_invoked_in_order w :
  reachable w ->
  invoked_handshakers (effects w) =
  firstn (index_ (mgr w)) (handshakers_ (mgr w)).
Proof. intros Hr. apply (reachable_invoked_in_order w Hr). Qed.

Lemma handshakers_invoked_in_order_witness :
  reachable ex_finished /\
  invoked_handshakers (effects ex_finished) = [ex_h1; ex_h2].
Proof.
  assert (Hr : reachable ex_finished)
    by (exists ex_happy_path; vm_compute; reflexivity).
  split; [exact Hr|].
  rewrite (handshakers_invoked_in_order ex_finished Hr). reflexivity.
Defined.

(** X2. At most one continuation of the manager is outstanding in a
    reachable world, so at most one handshaker is in progress; while one is
    outstanding the cursor has moved, the terminal callback is still
    stored and the event engine is known; a handshaker in progress is
    [handshakers_[index_ - 1]]. *)
Theorem one_handshaker_in_progress w :
  reachable w ->
  in_flight w <= 1 /\
  List.length (in_progress w) <= 1 /\
  (in_flight w = 1 ->
   0 < index_ (mgr w) /\ on_handshake_done_ (mgr w) <> None /\
   event_engine (args_ (mgr w)) = Some the_engine) /\
  (forall h, In h (in_progress w) ->
     nth_error (handshakers_ (mgr w)) (index_ (mgr w) - 1) = Some h).
Proof.
  intros Hr.
  pose proof (reachable_Good _ Hr) as (_ & (_ & I2 & I3 & I5 & _) & _).
  unfold in_flight in *. repeat split; auto; try lia; apply I3; auto.
Qed.

Lemma one_handshaker_in_progress_witness :
  reachable ex_started /\
  in_flight ex_started <= 1 /\
  nth_error (handshakers_ (mgr ex_started)) (index_ (mgr ex_started) - 1)
    = Some ex_h1.
Proof.
  assert (Hr : reachable ex_started)
    by (exists [EvAdd ex_h1; ex_start]; vm_compute; reflexivity).
  split; [exact Hr|].
  destruct (one_handshaker_in_progress ex_started Hr) as (H1 & _ & _ & H4).
  split; [exact H1|]. apply H4. left. reflexivity.
Defined.

Lemma reachable_timer_state w : reachable w -> Good w /\ timer_state w.
Proof.
  intros [evs H].
  apply (run_invariant (fun w => Good w /\ timer_state w)) with
    (evs := evs) (w := World_new); [| |exact H].
  - clear. intros w ev w' [HG HT] H. split; [eapply step_Good; eauto|].
    destruct HG as (_ & HI & _). eapply step_timer_state; eauto.
  - split; [apply Good_new|]. split; [left; reflexivity | reflexivity].
Qed.

(** X3. In a reachable world at most one timer is armed: the deadline timer
    whose handle the manager holds; no timer is armed unless a continuation
    is in flight, so none is left once the terminal callback has been
    posted, and a timer can only fire during a handshake. *)
Theorem deadline_timer_hygiene w :
  reachable w ->
  (timers (engine w) = [] \/
   timers (engine w) = [(deadline_timer_handle_ (mgr w), DeadlineClosure)]) /\
  (in_flight w = 0 -> timers (engine w) = []) /\
  (forall h w', step w (EvTimerFire h) = Done w' ->
     h = deadline_timer_handle_ (mgr w) /\ in_flight w = 1 /\
     timers (engine w') = []).
Proof.
  intros Hr. destruct (reachable_timer_state _ Hr) as [HG [Ht Hz]].
  pose proof HG as (_ & (_ & I2 & _) & _).
  split; [exact Ht|]. split; [exact Hz|].
  intros h w' H.
  pose proof (reachable_timer_state _ (reachable_step _ _ _ Hr H))
    as [_ [Ht' Hz']].
  assert (Hfire : h = deadline_timer_handle_ (mgr w) /\
                  timers (engine w) <> [] /\ timers (engine w') = []).
  { clear - H Ht. open_world w. unfold_ops_in H. cbn in H.
    destruct Ht as [->| ->]; cbn in H; [discriminate H|].
    destruct (TaskHandle_eqb th h) eqn:E; cbn in H; [|discriminate H].
    assert (th = h).
    { destruct th, h; cbn in E; try discriminate; auto.
      apply Nat.eqb_eq in E. congruence. }
    subst h. rewrite ?TaskHandle_eqb_refl in H. cbn in H.
    repeat break_inner H; inversion H; subst; cbn;
      repeat split; auto; discriminate. }
  destruct Hfire as (-> & Hne & He).
  repeat split; auto.
  destruct (Nat.eq_dec (in_flight w) 0) as [Z|NZ]; [|lia].
  elim Hne. auto.
Qed.

Lemma deadline_timer_hygiene_witness :
  reachable ex_completed /\ in_flight ex_completed = 0 /\
  timers (engine ex_completed) = [].
Proof.
  assert (Hr : reachable ex_completed)
    by (exists [EvAdd ex_h1; ex_start;
                EvHandshakerDone ex_h1 ex_write OkStatus];
        vm_compute; reflexivity).
  split; [exact Hr|]. split; [reflexivity|].
  destruct (deadline_timer_hygiene ex_completed Hr) as (_ & H & _).
  apply H. reflexivity.
Defined.

(** X4. Every terminal callback that a reachable world has posted is well
    formed: the callback object is not empty, and the result is either the
    pointer to the args or a status that is not ok. *)
Theorem posted_results_well_formed w :
  reachable w ->
  forall c r,
    In (EeRun (OnDoneClosure c r)) (effects w) ->
    c <> None /\
    (r = ArgsPtr \/ exists error, r = StatusError error /\ ok error = false).
Proof.
  intros [evs H].
  enough (G : Good w /\ forallb well_formed_post (effects w) = true).
  { destruct G as [_ G]. intros c r Hin.
    rewrite forallb_forall in G. specialize (G _ Hin). cbn in G.
    destruct c as [cb|]; [|discriminate G].
    split; [discriminate|].
    destruct r as [|error]; [left; reflexivity|].
    right. exists error. split; [reflexivity|].
    now apply negb_true_iff in G. }
  revert H.
  apply (run_invariant
           (fun w => Good w /\ forallb well_formed_post (effects w) = true)).
  - clear. intros w ev w' [HG IH] H. split; [eapply step_Good; eauto|].
    destruct HG as (Ht & HI & _).
    destruct (step_posts _ _ _ Ht HI H) as (delta & He & Hd).
    now rewrite He, forallb_app, IH, Hd.
  - split; [apply Good_new | reflexivity].
Qed.

Lemma posted_results_well_formed_witness :
  reachable ex_completed /\
  In (EeRun (OnDoneClosure (Some 42) ArgsPtr)) (effects ex_completed) /\
  Some 42 <> None.
Proof.
  assert (Hr : reachable ex_completed)
    by (exists [EvAdd ex_h1; ex_start;
                EvHandshakerDone ex_h1 ex_write OkStatus];
        vm_compute; reflexivity).
  assert (Hin : In (EeRun (OnDoneClosure (Some 42) ArgsPtr))
                   (effects ex_completed))
    by (cbn; auto 10).
  split; [exact Hr|]. split; [exact Hin|].
  apply (posted_results_well_formed ex_completed Hr _ _ Hin).
Defined.

(** X7. Once the terminal callback has been posted, [Shutdown], whether
    called by the user or by a late deadline closure, leaves the world
    exactly as it is. *)
Theorem Shutdown_after_terminal_is_noop w error :
  reachable w -> 0 < scheduled w ->
  step w (EvShutdown error) = Done w /\
  exists w',
    run_closure DeadlineClosure w = Done (tt, w') /\
    mgr w' = mgr w /\ engine w' = engine w /\
    in_progress w' = in_progress w /\
    effects w' = effects w ++ [ExecCtxEnter; ExecCtxExit].
Proof.
  intros Hr Hpos.
  pose proof (reachable_Good _ Hr) as (_ & _ & _ & Hs & _).
  specialize (Hs Hpos).
  split.
  - unfold step, transition. now rewrite Shutdown_noop.
  - cbv [run_closure bind emit].
    rewrite Shutdown_noop by exact Hs. cbn.
    eexists. split; [reflexivity|]. cbn. rewrite <- app_assoc.
    repeat split.
Qed.

Lemma Shutdown_after_terminal_is_noop_witness :
  reachable ex_completed /\ 0 < scheduled ex_completed /\
  step ex_completed (EvShutdown (ErrorStatus kCancelled "cancel"))
    = Done ex_completed.
Proof.
  assert (Hr : reachable ex_completed)
    by (exists [EvAdd ex_h1; ex_start;
                EvHandshakerDone ex_h1 ex_write OkStatus];
        vm_compute; reflexivity).
  assert (Hs : 0 < scheduled ex_completed) by (cbn; lia).
  split; [exact Hr|]. split; [exact Hs|].
  apply (Shutdown_after_terminal_is_noop ex_completed _ Hr Hs).
Defined.



(** X6. What a call of [DoHandshake] requires of a reachable manager: the
    [CHECK] on the cursor fails exactly when some handshaker has been
    invoked before; otherwise the call dereferences the event engine of the
    channel args, which is undefined when the args hold none, and succeeds
    when they hold one. *)
Theorem DoHandshake_precondition ep ca dl now acc cb w :
  reachable w ->
  (step w (EvDoHandshake ep ca dl now acc cb)
     = Crash (CheckFailed "index_ == 0u") <->
   invoked_handshakers (effects w) <> []) /\
  (invoked_handshakers (effects w) = [] ->
   GetObject_EventEngine ca = None ->
   step w (EvDoHandshake ep ca dl now acc cb)
     = Crash (UndefinedBehaviour "null event_engine")) /\
  (invoked_handshakers (effects w) = [] ->
   GetObject_EventEngine ca = Some the_engine ->
   exists w', step w (EvDoHandshake ep ca dl now acc cb) = Done w').
Proof.
  intros Hr.
  pose proof (reachable_invoked_in_order _ Hr) as [_ Ho].
  pose proof (reachable_Good _ Hr) as (_ & (I1 & _) & _).
  assert (Hz : invoked_handshakers (effects w) = [] <-> index_ (mgr w) = 0).
  { rewrite Ho. split; intros H; [|rewrite H; reflexivity].
    apply (f_equal (@List.length _)) in H.
    rewrite length_firstn in H. cbn in H. lia. }
  split; [|split].
  - split.
    + intros H E. apply Hz in E.
      destruct (GetObject_EventEngine ca) as [[]|] eqn:Ee.
      * destruct (DoHandshake_succeeds ep ca dl now acc cb w E Ee) as [w' E'].
        congruence.
      * clear - H E Ee. open_world w. subst idx.
        unfold step, transition in H. unfold_ops_in H. cbn in H.
        rewrite Ee in H. cbn in H. discriminate H.
    + intros H. unfold step, transition.
      rewrite DoHandshake_checks_index; [reflexivity|].
      destruct (index_ (mgr w)); [|lia]. elim H. apply Hz. reflexivity.
  - intros E Ee. apply Hz in E. clear - E Ee. open_world w. subst idx.
    unfold step, transition. unfold_ops. cbn. rewrite Ee. reflexivity.
  - intros E Ee. apply Hz in E. now apply DoHandshake_succeeds.
Qed.

Lemma DoHandshake_precondition_witness :
  reachable ex_started /\
  invoked_handshakers (effects ex_started) <> [] /\
  step ex_started ex_start = Crash (CheckFailed "index_ == 0u").
Proof.
  assert (Hr : reachable ex_started)
    by (exists [EvAdd ex_h1; ex_start]; vm_compute; reflexivity).
  assert (Hn : invoked_handshakers (effects ex_started) <> [])
    by (cbn; discriminate).
  split; [exact Hr|]. split; [exact Hn|].
  apply (DoHandshake_precondition (Some 5) ex_channel_args 100%Z 10%Z None 42
           ex_started Hr).
  exact Hn.
Defined.

(** X8. Shutdown wins: once the manager is shut down, the completion of the
    handshaker in progress ends the handshake with an error whatever the
    handshaker reports. A status that is not ok is passed on as it is; an ok
    status is replaced by "handshaker shutdown" and the endpoint that the
    handshaker left in the args is reset. No further handshaker is
    invoked. *)
Theorem shutdown_wins w h wr st w' :
  reachable w -> is_shutdown_ (mgr w) = true ->
  step w (EvHandshakerDone h wr st) = Done w' ->
  exists cb,
    on_handshake_done_ (mgr w) = Some cb /\
    effects w' = effects w ++
      (if ok st then [EndpointReset (wr_endpoint wr)] else []) ++
      [TnCommit; EeCancel (deadline_timer_handle_ (mgr w));
       EeRun (OnDoneClosure (Some cb)
                (StatusError (if ok st
                              then GRPC_ERROR_CREATE "handshaker shutdown"
                              else st)))] /\
    (ok st = true -> endpoint (args_ (mgr w')) = None) /\
    (ok st = false -> endpoint (args_ (mgr w')) = wr_endpoint wr) /\
    in_progress w' = [] /\
    index_ (mgr w') = index_ (mgr w).
Proof.
  intros Hr Hs H.
  pose proof (reachable_Good _ Hr) as (_ & (I1 & I2 & I3 & _) & _).
  destruct (remove_first h (in_progress w)) as [l|] eqn:El.
  2:{ unfold step, transition in H. cbv [bind handshaker_completes] in H.
      rewrite El in H. discriminate H. }
  pose proof (remove_first_length _ _ _ El) as Hl.
  assert (Hf : in_flight w = 1) by (unfold in_flight in *; lia).
  assert (Hnil : l = []).
  { unfold in_flight in Hf. destruct l; [reflexivity|]. cbn in Hl. lia. }
  destruct (I3 Hf) as (Hidx & Hcb & Hee).
  destruct (on_handshake_done_ (mgr w)) as [cb|] eqn:Ecb; [|congruence].
  exists cb. split; [reflexivity|].
  clear - H Hs El Hee Ecb I1 Hnil. subst l.
  open_world w. subst. unfold_ops_in H. cbn in H. rewrite El in H. cbn in H.
  destruct (Nat.leb_spec idx (List.length hs)) as [_|]; [|lia].
  cbn in H.
  destruct (ok st) eqn:Eok; cbn in H; rewrite ?Eok in H; cbn in H;
    rewrite Hee in H; cbn in H;
    inversion H; subst; cbn; tidy_log; repeat split; auto; discriminate.
Qed.

Lemma shutdown_wins_witness :
  reachable ex_cancelled /\ is_shutdown_ (mgr ex_cancelled) = true /\
  step ex_cancelled (EvHandshakerDone ex_h1 ex_write OkStatus)
    = Done ex_shutdown_won /\
  endpoint (args_ (mgr ex_shutdown_won))
    = None.
Proof.
  assert (Hr : reachable ex_cancelled)
    by (exists [EvAdd ex_h1; ex_start;
                EvShutdown (ErrorStatus kCancelled "cancel")];
        vm_compute; reflexivity).
  assert (Hs : step ex_cancelled (EvHandshakerDone ex_h1 ex_write OkStatus)
               = Done ex_shutdown_won)
    by (vm_compute; reflexivity).
  split; [exact Hr|]. split; [reflexivity|]. split; [exact Hs|].
  destruct (shutdown_wins _ _ _ _ _ Hr eq_refl Hs) as (cb & _ & _ & H & _).
  apply H. reflexivity.
Defined.

(** ** Initialisation and shutdown of the library *)

Ltac init_eval_in H :=
  cbv [init_step forget grpc_init grpc_shutdown grpc_shutdown_blocking
       grpc_shutdown_from_cleanup_thread grpc_shutdown_internal_locked
       grpc_is_initialized grpc_maybe_wait_for_async_shutdown
       grpc_wait_for_shutdown_with_timeout gpr_once_init_basic do_basic_init
       MutexLock_g_init_mu cv_SignalAll pre_increment pre_decrement
       call get_initializations set_initializations get_shutting_down
       set_shutting_down set_cleanup_threads ibind iret
       g_basic_init g_init_mu g_shutting_down_cv g_initializations
       g_shutting_down cleanup_threads init_calls INT_MIN INT_MAX] in H;
  cbn in H.

Ltac init_eval :=
  cbv [init_step forget grpc_init grpc_shutdown grpc_shutdown_blocking
       grpc_shutdown_from_cleanup_thread grpc_shutdown_internal_locked
       grpc_is_initialized grpc_maybe_wait_for_async_shutdown
       grpc_wait_for_shutdown_with_timeout gpr_once_init_basic do_basic_init
       MutexLock_g_init_mu cv_SignalAll pre_increment pre_decrement
       call get_initializations set_initializations get_shutting_down
       set_shutting_down set_cleanup_threads ibind iret
       g_basic_init g_init_mu g_shutting_down_cv g_initializations
       g_shutting_down cleanup_threads init_calls INT_MIN INT_MAX];
  cbn.

Ltac open_globals s :=
  destruct s as [?once ?mu ?cv ?g ?sd ?pending ?calls]; cbn in *.

Ltac z_hyps :=
  repeat match goal with
         | H : (_ =? _)%Z = true |- _ => apply Z.eqb_eq in H
         | H : (_ =? _)%Z = false |- _ => apply Z.eqb_neq in H
         | H : (_ <? _)%Z = true |- _ => apply Z.ltb_lt in H
         | H : (_ <? _)%Z = false |- _ => apply Z.ltb_ge in H
         end.

Lemma iomgr_state_app l1 : forall up l2,
  iomgr_state up (l1 ++ l2) =
  match iomgr_state up l1 with
  | Some u => iomgr_state u l2
  | None => None
  end.
Proof.
  induction l1 as [|c l1 IH]; intros up l2; cbn; [reflexivity|].
  destruct c; try apply IH; destruct up; auto.
Qed.

Lemma init_run_invariant (P : Globals -> Prop) :
  (forall s ev s', P s -> init_step s ev = Done s' -> P s') ->
  forall evs s s', P s -> init_run s evs = Done s' -> P s'.
Proof.
  intros Hstep. induction evs as [|ev evs IH]; intros s s' HP H; cbn in H.
  - inversion H; subst. exact HP.
  - destruct (init_step s ev) as [s1|] eqn:E; [|discriminate].
    eapply IH; [|exact H]. eapply Hstep; eauto.
Qed.

Lemma InitInv_new : InitInv Globals_new.
Proof. unfold InitInv, INT_MIN, INT_MAX. cbn. repeat split; auto; lia. Qed.

Ltac ltb_case :=
  match goal with
  | |- context [(?a <? ?b)%Z] => destruct (Z.ltb_spec a b)
  end.

Lemma init_step_InitInv s ev s' :
  InitInv s -> init_step s ev = Done s' -> InitInv s'.
Proof.
  intros (I1 & I2 & I3 & I4 & I5 & I6 & I7 & I8) H.
  unfold InitInv, INT_MIN, INT_MAX in *.
  open_globals s. subst mu cv.
  destruct ev; init_eval_in H; unfold INT_MIN, INT_MAX in *.
  all: repeat break_inner H.
  all: inversion H; subst; clear H; cbn.
  all: z_hyps.
  all: try (specialize (I8 eq_refl); subst calls; cbn in * ).
  all: rewrite <- ?app_assoc; cbn [app].
  all: rewrite ?iomgr_state_app, ?count_app, ?I4, ?I7.
  all: cbn.
  all: try (destruct (Z.ltb_spec 0 g); try lia; cbn).
  all: repeat ltb_case; try lia.
  all: repeat split; auto; try lia; try discriminate.
  all: try (intros; lia).
  all: try (intros ?; specialize (I5 eq_refl); lia).
  all: try (unfold count in *; rewrite ?filter_app, ?length_app in *;
            cbn in *; lia).
  all: intros Hsd; specialize (I5 Hsd); lia.
Qed.

Lemma init_reachable_InitInv s : init_reachable s -> InitInv s.
Proof.
  intros [evs H].
  eapply init_run_invariant; [apply init_step_InitInv | apply InitInv_new |].
  exact H.
Qed.

Lemma init_run_app s evs1 evs2 :
  init_run s (evs1 ++ evs2) =
  match init_run s evs1 with
  | Done s1 => init_run s1 evs2
  | Crash f => Crash f
  end.
Proof.
  revert s. induction evs1 as [|ev evs1 IH]; intros s; cbn; [reflexivity|].
  destruct (init_step s ev); [apply IH | reflexivity].
Qed.

Lemma init_reachable_step s ev s' :
  init_reachable s -> init_step s ev = Done s' -> init_reachable s'.
Proof.
  intros [evs H] E. exists (evs ++ [ev]).
  rewrite init_run_app, H. cbn. now rewrite E.
Qed.

(** X9. In every reachable state of the process the I/O manager has been
    initialised and shut down in strict alternation, starting with an
    initialisation; it is up exactly when [g_initializations] is positive,
    which is what [grpc_is_initialized] reports. *)
Theorem iomgr_up_iff_initialized s :
  init_reachable s ->
  iomgr_state false (init_calls s) = Some (0 <? g_initializations s)%Z /\
  exists r s',
    grpc_is_initialized s = Done (r, s') /\
    r = (if (0 <? g_initializations s)%Z then 1 else 0)%Z /\
    iomgr_state false (init_calls s') = Some (r =? 1)%Z /\
    g_initializations s' = g_initializations s.
Proof.
  intros Hr.
  pose proof (init_reachable_InitInv _ Hr) as (I1 & I2 & I3 & I4 & _).
  split; [exact I4|].
  destruct (forget (grpc_is_initialized s)) as [s1|f] eqn:E.
  - pose proof (init_reachable_InitInv _
                  (init_reachable_step s IEvIsInitialized s1 Hr E))
      as (_ & _ & _ & J4 & _).
    clear Hr I3. open_globals s. subst mu cv.
    init_eval_in E. init_eval.
    destruct once; cbn in *; inversion E; subst; cbn in *;
      eexists; eexists; (split; [reflexivity|]); cbn;
      rewrite J4; destruct (0 <? g)%Z; repeat split.
  - exfalso. clear - E I1 I2. open_globals s. subst mu cv.
    init_eval_in E. destruct once; discriminate E.
Qed.

Lemma iomgr_up_iff_initialized_witness :
  init_reachable ex_init_up /\
  iomgr_state false (init_calls ex_init_up) = Some true.
Proof.
  assert (Hr : init_reachable ex_init_up)
    by (exists [IEvInit true true]; vm_compute; reflexivity).
  split; [exact Hr|].
  apply (iomgr_up_iff_initialized ex_init_up Hr).
Defined.

Lemma init_step_accounting s ev s' :
  init_step s ev = Done s' ->
  (g_initializations s' - Z.of_nat (cleanup_threads s') =
   g_initializations s - Z.of_nat (cleanup_threads s)
   + (if is_init_event ev then 1 else 0)
   - (if is_shutdown_event ev then 1 else 0))%Z.
Proof.
  intros H. open_globals s.
  destruct ev; init_eval_in H; unfold INT_MIN, INT_MAX in *.
  all: repeat break_inner H.
  all: inversion H; subst; clear H; cbn [g_initializations cleanup_threads
                                          is_init_event is_shutdown_event].
  all: z_hyps; lia.
Qed.

(** X10. The counter keeps the books: after any run of the process,
    [g_initializations] is the number of [grpc_init] calls minus the number
    of [grpc_shutdown] and [grpc_shutdown_blocking] calls, plus one for
    each cleanup thread that has been started and has not run yet. *)
Theorem initializations_accounting evs s :
  init_run Globals_new evs = Done s ->
  g_initializations s =
  (Z.of_nat (count is_init_event evs)
   - Z.of_nat (count is_shutdown_event evs)
   + Z.of_nat (cleanup_threads s))%Z.
Proof.
  enough (G : forall evs s0 s,
             init_run s0 evs = Done s ->
             (g_initializations s - Z.of_nat (cleanup_threads s) =
              g_initializations s0 - Z.of_nat (cleanup_threads s0)
              + Z.of_nat (count is_init_event evs)
              - Z.of_nat (count is_shutdown_event evs))%Z).
  { intros H. apply G in H. cbn in H. lia. }
  clear. induction evs as [|ev evs IH]; intros s0 s H; cbn in H.
  - inversion H; subst. cbn. lia.
  - destruct (init_step s0 ev) as [s1|] eqn:E; [|discriminate].
    apply IH in H. apply init_step_accounting in E.
    unfold count in *. cbn [filter].
    destruct (is_init_event ev), (is_shutdown_event ev);
      cbn [List.length]; lia.
Qed.

Lemma initializations_accounting_witness :
  init_run Globals_new [IEvInit true true; IEvShutdown true true false true]
    = Done ex_init_async /\
  g_initializations ex_init_async = 1%Z.
Proof.
  assert (H : init_run Globals_new
                [IEvInit true true; IEvShutdown true true false true]
              = Done ex_init_async) by (vm_compute; reflexivity).
  split; [exact H|].
  rewrite (initializations_accounting _ _ H). reflexivity.
Defined.

(** X11. [grpc_init] never has to wake the waiters: in a reachable state
    [g_shutting_down] is only set while the counter is positive, so the
    branch of [grpc_init] that clears the flag and signals the condition
    variable is never taken. The condition variable is signalled exactly
    once for each shutdown of the I/O manager. *)
Theorem grpc_init_never_signals s dns_ee ares_ok s' :
  init_reachable s ->
  grpc_init dns_ee ares_ok s = Done (tt, s') ->
  g_shutting_down s' = g_shutting_down s /\
  (exists delta,
     init_calls s' = init_calls s ++ delta /\
     count is_SignalAll delta = 0) /\
  count is_SignalAll (init_calls s') =
  count is_iomgr_shutdown (init_calls s').
Proof.
  intros Hr H.
  assert (E : init_step s (IEvInit dns_ee ares_ok) = Done s')
    by (cbn; rewrite H; reflexivity).
  pose proof (init_reachable_InitInv _ (init_reachable_step _ _ _ Hr E))
    as (_ & _ & _ & _ & _ & J6 & _).
  split; [|split; [|exact J6]];
    pose proof (init_reachable_InitInv _ Hr) as (I1 & I2 & I3 & I4 & I5 & _);
    clear - H I5; open_globals s; init_eval_in H;
    unfold INT_MIN, INT_MAX in *;
    repeat break_inner H; inversion H; subst; clear H; cbn; z_hyps;
    try (specialize (I5 eq_refl); lia); auto;
    rewrite <- ?app_assoc; cbn [app];
    try (eexists; split; [reflexivity|]; reflexivity);
    try (exists []; split; [now rewrite app_nil_r | reflexivity]).
Qed.

Lemma grpc_init_never_signals_witness :
  init_reachable ex_init_async /\
  grpc_init true true ex_init_async = Done (tt, ex_init_reinit) /\
  g_shutting_down ex_init_reinit = true.
Proof.
  assert (Hr : init_reachable ex_init_async)
    by (exists [IEvInit true true; IEvShutdown true true false true];
        vm_compute; reflexivity).
  assert (H : grpc_init true true ex_init_async = Done (tt, ex_init_reinit))
    by (vm_compute; reflexivity).
  split; [exact Hr|]. split; [exact H|].
  destruct (grpc_init_never_signals _ _ _ _ Hr H) as [E _].
  rewrite E. reflexivity.
Defined.

(** X12. [grpc_init] between an asynchronous [grpc_shutdown] and its
    cleanup thread: the thread finds the counter at two and returns
    without shutting anything down. The library stays initialised and is
    not initialised a second time; [g_shutting_down] stays set, so a call
    of [grpc_maybe_wait_for_async_shutdown] waits. *)
Theorem cleanup_thread_after_reinit s d1 bg tm ctx d2 ares_ok d3 :
  g_basic_init s = true -> g_init_mu s = true ->
  g_initializations s = 1%Z ->
  negb bg && negb tm && ctx = false ->
  exists s',
    init_run s [IEvShutdown d1 bg tm ctx; IEvInit d2 ares_ok;
                IEvCleanupThread d3] = Done s' /\
    init_calls s' = init_calls s ++ [Thread_Start] /\
    g_initializations s' = 1%Z /\
    cleanup_threads s' = cleanup_threads s /\
    g_shutting_down s' = true /\
    grpc_is_initialized s' = Done (1%Z, s') /\
    grpc_maybe_wait_for_async_shutdown s' = Done (false, s').
Proof.
  intros Ho Hm Hg Hasync. open_globals s. subst.
  cbv [init_run]. init_eval. rewrite Hasync. cbn.
  eexists. split; [reflexivity|]. cbn. repeat split.
Qed.

Lemma cleanup_thread_after_reinit_witness :
  g_basic_init ex_init_up = true /\ g_init_mu ex_init_up = true /\
  g_initializations ex_init_up = 1%Z /\
  exists s',
    init_run ex_init_up [IEvShutdown true true false true; IEvInit true true;
                         IEvCleanupThread true] = Done s' /\
    g_shutting_down s' = true /\
    grpc_maybe_wait_for_async_shutdown s' = Done (false, s').
Proof.
  split; [reflexivity|]. split; [reflexivity|]. split; [reflexivity|].
  destruct (cleanup_thread_after_reinit ex_init_up true true false true true
              true true eq_refl eq_refl eq_refl eq_refl)
    as (s' & H & _ & _ & _ & H1 & _ & H2).
  exists s'. repeat split; assumption.
Defined.

(** X13. A shutdown that no [grpc_init] has paid for, in a reachable
    state with the counter at zero. If nothing has run the basic
    initialisation yet, the mutex pointer is null and [grpc_shutdown] and
    [grpc_shutdown_blocking] lock through it. Otherwise the shutdown is
    accepted without any effect but on the counter, and the next
    [grpc_init] only makes up for it: it initialises nothing, and
    [grpc_is_initialized] still returns zero. *)
Theorem unpaid_shutdown s d1 bg tm ctx d2 ares_ok :
  init_reachable s -> g_initializations s = 0%Z ->
  if g_basic_init s then
    init_run s [IEvShutdown d1 bg tm ctx; IEvInit d2 ares_ok] = Done s /\
    init_run s [IEvShutdownBlocking d1; IEvInit d2 ares_ok] = Done s /\
    grpc_is_initialized s = Done (0%Z, s)
  else
    grpc_shutdown d1 bg tm ctx s
      = Crash (UndefinedBehaviour "g_init_mu is null") /\
    grpc_shutdown_blocking d1 s
      = Crash (UndefinedBehaviour "g_init_mu is null").
Proof.
  intros Hr Hg.
  pose proof (init_reachable_InitInv _ Hr) as (I1 & I2 & _).
  open_globals s. subst. destruct once; repeat split.
Qed.

Lemma unpaid_shutdown_witness :
  init_reachable ex_init_down /\ g_initializations ex_init_down = 0%Z /\
  init_run ex_init_down [IEvShutdown true false false true; IEvInit true true]
    = Done ex_init_down /\
  grpc_is_initialized ex_init_down = Done (0%Z, ex_init_down).
Proof.
  assert (Hr : init_reachable ex_init_down)
    by (exists [IEvInit true true; IEvShutdownBlocking true];
        vm_compute; reflexivity).
  split; [exact Hr|]. split; [reflexivity|].
  destruct (unpaid_shutdown ex_init_down true false false true true true
              Hr eq_refl) as (H1 & _ & H3).
  split; [exact H1 | exact H3].
Defined.

Lemma init_run_nested_inits d a n : forall s,
  g_basic_init s = true -> g_init_mu s = true ->
  (1 <= g_initializations s)%Z ->
  (g_initializations s + Z.of_nat n <= INT_MAX)%Z ->
  init_run s (repeat (IEvInit d a) n) =
  Done (with_initializations (g_initializations s + Z.of_nat n) s).
Proof.
  induction n as [|n IH]; intros s Ho Hm Hg Hmax.
  - cbn. rewrite Z.add_0_r. destruct s; reflexivity.
  - cbn [repeat init_run].
    assert (E : init_step s (IEvInit d a) =
                Done (with_initializations (g_initializations s + 1) s)).
    { unfold INT_MAX in *. open_globals s. subst. init_eval.
      destruct (Z.eqb_spec g 2147483647); [lia|]. cbn.
      destruct (Z.eqb_spec (g + 1) 1); [lia|]. reflexivity. }
    rewrite E, IH; cbn; auto; try lia.
    unfold with_initializations. cbn. do 2 f_equal. lia.
Qed.

Lemma init_run_nested_shutdowns d n : forall s,
  g_init_mu s = true ->
  (1 <= g_initializations s - Z.of_nat n)%Z ->
  (g_initializations s <= INT_MAX)%Z ->
  init_run s (repeat (IEvShutdownBlocking d) n) =
  Done (with_initializations (g_initializations s - Z.of_nat n) s).
Proof.
  induction n as [|n IH]; intros s Hm Hg Hmax.
  - cbn. rewrite Z.sub_0_r. destruct s; reflexivity.
  - cbn [repeat init_run].
    assert (E : init_step s (IEvShutdownBlocking d) =
                Done (with_initializations (g_initializations s - 1) s)).
    { unfold INT_MAX in *. open_globals s. subst. init_eval.
      unfold INT_MIN.
      destruct (Z.eqb_spec g (-2147483648)); [lia|]. cbn.
      destruct (Z.eqb_spec (g - 1) 0); [lia|]. reflexivity. }
    rewrite E, IH; cbn; auto; try lia.
    unfold with_initializations. cbn. do 2 f_equal. lia.
Qed.

(** X14. Nested use from a fresh process: [n] calls of [grpc_init]
    followed by [n] calls of [grpc_shutdown_blocking] run the basic
    initialisation, the initialisation sequence and the shutdown sequence
    once each, in this order, and leave the library uninitialised with no
    shutdown pending. *)
Theorem nested_init_shutdown d a n :
  0 < n -> (Z.of_nat n <= INT_MAX)%Z ->
  exists s,
    init_run Globals_new
      (repeat (IEvInit d a) n ++ repeat (IEvShutdownBlocking d) n) = Done s /\
    init_calls s =
      basic_init_calls ++ init_sequence d a ++ shutdown_sequence d /\
    g_initializations s = 0%Z /\
    g_shutting_down s = false /\
    cleanup_threads s = 0.
Proof.
  intros Hn Hmax. destruct n as [|n]; [lia|].
  replace (repeat (IEvShutdownBlocking d) (S n))
    with (repeat (IEvShutdownBlocking d) n ++ [IEvShutdownBlocking d])
    by (rewrite <- repeat_cons; reflexivity).
  cbn [repeat app init_run].
  set (s1 := {| g_basic_init := true; g_init_mu := true;
                g_shutting_down_cv := true; g_initializations := 1;
                g_shutting_down := false; cleanup_threads := 0;
                init_calls := basic_init_calls ++ init_sequence d a |}).
  assert (E1 : init_step Globals_new (IEvInit d a) = Done s1)
    by (destruct d, a; reflexivity).
  rewrite E1, init_run_app.
  rewrite Nat2Z.inj_succ in Hmax.
  rewrite (init_run_nested_inits d a n s1)
    by (try reflexivity; cbn [g_initializations s1]; lia).
  set (s2 := with_initializations (g_initializations s1 + Z.of_nat n) s1).
  rewrite init_run_app.
  rewrite (init_run_nested_shutdowns d n s2)
    by (try reflexivity; cbn [g_initializations s2 s1 with_initializations];
        lia).
  replace (g_initializations s2 - Z.of_nat n)%Z with 1%Z
    by (cbn [g_initializations s2 s1 with_initializations]; lia).
  exists {| g_basic_init := true; g_init_mu := true;
            g_shutting_down_cv := true; g_initializations := 0;
            g_shutting_down := false; cleanup_threads := 0;
            init_calls := basic_init_calls ++ init_sequence d a
                          ++ shutdown_sequence d |}.
  split; [|repeat split].
  subst s2 s1. unfold with_initializations. cbn [g_basic_init g_init_mu
    g_shutting_down_cv g_initializations g_shutting_down cleanup_threads
    init_calls].
  destruct d, a; vm_compute; reflexivity.
Qed.

Lemma nested_init_shutdown_witness :
  0 < 2 /\ (Z.of_nat 2 <= INT_MAX)%Z /\
  exists s,
    init_run Globals_new
      [IEvInit true true; IEvInit true true;
       IEvShutdownBlocking true; IEvShutdownBlocking true] = Done s /\
    g_initializations s = 0%Z.
Proof.
  assert (H1 : 0 < 2) by lia.
  assert (H2 : (Z.of_nat 2 <= INT_MAX)%Z) by (vm_compute; discriminate).
  split; [exact H1|]. split; [exact H2|].
  destruct (nested_init_shutdown true true 2 H1 H2) as (s & E & _ & G & _).
  exists s. split; [exact E | exact G].
Defined.

(** ** The route configuration parser *)

Lemma no_slash_app a b :
  no_slash (a ++ b)%string = no_slash a && no_slash b.
Proof.
  induction a as [|c a IH]; cbn; [reflexivity|].
  rewrite IH. now rewrite andb_assoc.
Qed.

(** A text has no slash, or a first one. *)
Lemma first_slash s :
  no_slash s = true \/
  exists a b, s = (a ++ "/" ++ b)%string /\ no_slash a = true.
Proof.
  induction s as [|c s IH]; [left; reflexivity|].
  destruct (Ascii.eqb c "/") eqn:E.
  - right. exists EmptyString, s. apply Ascii.eqb_eq in E. subst.
    split; reflexivity.
  - destruct IH as [H | (a & b & -> & H)].
    + left. cbn. now rewrite E, H.
    + right. exists (String c a), b. split; [reflexivity|].
      cbn. now rewrite E, H.
Qed.

Lemma StrSplit_MaxSplits_no_slash s limit :
  no_slash s = true -> StrSplit_MaxSplits s "/" limit = [s].
Proof.
  induction s as [|c s IH]; intros H; [reflexivity|].
  cbn in H. apply andb_true_iff in H. destruct H as [Hc Hs].
  apply negb_true_iff in Hc.
  destruct limit as [|limit]; [reflexivity|].
  cbn [StrSplit_MaxSplits]. rewrite Hc, (IH Hs). reflexivity.
Qed.

Lemma StrSplit_MaxSplits_first a b limit :
  no_slash a = true ->
  StrSplit_MaxSplits (a ++ "/" ++ b) "/" (S limit) =
  a :: StrSplit_MaxSplits b "/" limit.
Proof.
  induction a as [|c a IH]; intros H.
  - reflexivity.
  - cbn in H. apply andb_true_iff in H. destruct H as [Hc Hs].
    apply negb_true_iff in Hc.
    cbn [String.append StrSplit_MaxSplits]. rewrite Hc.
    change (String "/" b) with ("/" ++ b)%string.
    rewrite (IH Hs). reflexivity.
Qed.

Lemma StrSplit_MaxSplits_zero s : StrSplit_MaxSplits s "/" 0 = [s].
Proof. destruct s; reflexivity. Qed.

(** The three shapes of what follows the leading slash. *)
Lemma StrSplit_MaxSplits_two rest :
  (no_slash rest = true /\ StrSplit_MaxSplits rest "/" 2 = [rest]) \/
  (exists a b, rest = (a ++ "/" ++ b)%string /\ no_slash a = true /\
               no_slash b = true /\
               StrSplit_MaxSplits rest "/" 2 = [a; b]) \/
  (exists a b c, rest = (a ++ "/" ++ b ++ "/" ++ c)%string /\
                 no_slash a = true /\ no_slash b = true /\
                 StrSplit_MaxSplits rest "/" 2 = [a; b; c]).
Proof.
  destruct (first_slash rest) as [H | (a & r & -> & Ha)].
  - left. split; [exact H|]. now apply StrSplit_MaxSplits_no_slash.
  - right. rewrite StrSplit_MaxSplits_first by exact Ha.
    destruct (first_slash r) as [H | (b & c & -> & Hb)].
    + left. exists a, r. rewrite StrSplit_MaxSplits_no_slash by exact H.
      repeat split; auto.
    + right. exists a, b, c.
      rewrite StrSplit_MaxSplits_first, StrSplit_MaxSplits_zero by exact Hb.
      repeat split; auto.
Qed.

Lemma string_app_inv_no_slash a b a' b' :
  no_slash a = true -> no_slash a' = true ->
  (a ++ "/" ++ b)%string = (a' ++ "/" ++ b')%string -> a = a' /\ b = b'.
Proof.
  revert a'. induction a as [|c a IH]; intros a' Ha Ha' E.
  - destruct a' as [|c' a']; cbn in E.
    + inversion E. auto.
    + inversion E; subst. cbn in Ha'. discriminate.
  - destruct a' as [|c' a']; cbn in E.
    + inversion E; subst. cbn in Ha. discriminate.
    + inversion E; subst. cbn in Ha, Ha'.
      apply andb_true_iff in Ha. apply andb_true_iff in Ha'.
      destruct (IH a') as [-> ->]; tauto.
Qed.

Lemma string_empty_true s : string_empty s = true <-> s = EmptyString.
Proof. destruct s; cbn; split; congruence. Qed.

Lemma string_empty_false s : string_empty s = false <-> s <> EmptyString.
Proof. destruct s; cbn; split; congruence. Qed.

(** X15. [RouteRuntimeFractionParse] normalises a fraction to parts per
    million. For a known denominator type the result is exact whenever the
    product fits [uint32_t], as it does for every fraction up to one, and no
    error is added; for any other denominator type the route is left as it
    was and one error is added under
    [.runtime_fraction.default_value.denominator]. *)
Theorem RouteRuntimeFractionParse_normalizes match_ route errors rf fraction :
  rm_runtime_fraction match_ = Some rf ->
  rfp_default_value rf = Some fraction ->
  (0 <= fp_numerator fraction)%Z ->
  match denominator_value (fp_denominator fraction) with
  | Some v =>
      (fp_numerator fraction * (1000000 / v) <= UINT32_MAX)%Z ->
      RouteRuntimeFractionParse match_ route errors =
      (set_fraction_per_million route
         (Some (fp_numerator fraction * (1000000 / v))%Z), errors) /\
      ((fp_numerator fraction <= v)%Z ->
       (fp_numerator fraction * (1000000 / v) <= 1000000)%Z)
  | None =>
      RouteRuntimeFractionParse match_ route errors =
      (route,
       errors ++ [PushField ".runtime_fraction.default_value.denominator";
                  AddError "unknown denominator type"; PopField])
  end.
Proof.
  intros Hrf Hdv Hn. unfold RouteRuntimeFractionParse, denominator_value.
  rewrite Hrf, Hdv. unfold UINT32_MAX, uint32_mul.
  destruct (fp_denominator fraction =? _)%Z;
    [|destruct (fp_denominator fraction =? _)%Z;
      [|destruct (fp_denominator fraction =? _)%Z]].
  - change (1000000 / 100)%Z with 10000%Z. intros Hfit.
    rewrite Z.mod_small by lia. split; [reflexivity | lia].
  - change (1000000 / 10000)%Z with 100%Z. intros Hfit.
    rewrite Z.mod_small by lia. split; [reflexivity | lia].
  - change (1000000 / 1000000)%Z with 1%Z. rewrite Z.mul_1_r. intros Hfit.
    split; [reflexivity | lia].
  - cbv [vbind ScopedField errors_AddError vret]. cbn.
    rewrite <- !app_assoc. reflexivity.
Qed.

Lemma RouteRuntimeFractionParse_normalizes_witness :
  (0 <= 25)%Z /\
  RouteRuntimeFractionParse (ex_match (rm_path "/s/m")) Route_default [] =
  (set_fraction_per_million Route_default (Some 250000%Z), []).
Proof.
  split; [lia|].
  apply (RouteRuntimeFractionParse_normalizes (ex_match (rm_path "/s/m"))
           Route_default [] _ _ eq_refl eq_refl).
  - cbn. lia.
  - vm_compute. discriminate.
Defined.

(** X16. An exact path is accepted exactly when it has the form
    [/service/method], with a service and a method that are not empty and
    hold no slash: then the outcome is that of creating the exact matcher;
    any other path makes the route be ignored without an error. *)
Theorem RoutePathMatchParse_path ext match_ path errors :
  rm_path_specifier match_ = rm_path path ->
  (service_method_path path ->
   RoutePathMatchParse ext match_ errors =
   create_path_matcher ext StringMatcher_kExact path
     (ParseBoolValue (rm_case_sensitive match_) true) errors) /\
  (~ service_method_path path ->
   RoutePathMatchParse ext match_ errors = (None, errors)).
Proof.
  intros Hp. unfold RoutePathMatchParse. rewrite Hp.
  split.
  - intros (service & method & -> & Hs & Hm & Hns & Hnm).
    cbn [String.append]. cbn [Ascii.eqb Bool.eqb negb].
    change (String "/" method) with ("/" ++ method)%string.
    rewrite StrSplit_MaxSplits_first by exact Hns.
    rewrite StrSplit_MaxSplits_no_slash by exact Hnm.
    cbn. apply string_empty_false in Hs, Hm. rewrite Hs, Hm. reflexivity.
  - intros Hnot. destruct path as [|c rest]; [reflexivity|].
    destruct (Ascii.eqb c "/") eqn:Ec; [|reflexivity].
    apply Ascii.eqb_eq in Ec. subst c. cbn [negb].
    destruct (StrSplit_MaxSplits_two rest)
      as [[_ ->] | [(a & b & -> & Ha & Hb & ->)
                   | (a & b & c & _ & _ & _ & ->)]];
      [reflexivity | | reflexivity].
    cbn.
    destruct (string_empty a) eqn:Ea; [reflexivity|].
    destruct (string_empty b) eqn:Eb; [reflexivity|].
    elim Hnot. exists a, b. apply string_empty_false in Ea, Eb.
    repeat split; auto.
Qed.

Lemma RoutePathMatchParse_path_witness :
  service_method_path "/pkg.Service/Method" /\
  RoutePathMatchParse ex_externals (ex_match (rm_path "/pkg.Service/Method"))
    [] =
  (Some (StringMatcher_Created StringMatcher_kExact "/pkg.Service/Method"
           true), []).
Proof.
  assert (H : service_method_path "/pkg.Service/Method").
  { exists "pkg.Service"%string, "Method"%string.
    repeat split; discriminate. }
  split; [exact H|].
  rewrite (proj1 (RoutePathMatchParse_path ex_externals
                    (ex_match (rm_path "/pkg.Service/Method")) _ []
                    eq_refl) H).
  reflexivity.
Defined.

Lemma string_app_assoc (a b c : string) :
  ((a ++ b) ++ c)%string = (a ++ (b ++ c))%string.
Proof. induction a as [|x a IH]; cbn; [reflexivity | now rewrite IH]. Qed.

(** X17. A prefix is accepted exactly when some path of the form
    [/service/method] starts with it: then the outcome is that of creating
    the prefix matcher; any other prefix makes the route be ignored
    without an error. *)
Theorem RoutePathMatchParse_prefix ext match_ prefix errors :
  rm_path_specifier match_ = rm_prefix prefix ->
  ((exists rest, service_method_path (prefix ++ rest)) ->
   RoutePathMatchParse ext match_ errors =
   create_path_matcher ext StringMatcher_kPrefix prefix
     (ParseBoolValue (rm_case_sensitive match_) true) errors) /\
  (~ (exists rest, service_method_path (prefix ++ rest)) ->
   RoutePathMatchParse ext match_ errors = (None, errors)).
Proof.
  intros Hp. unfold RoutePathMatchParse. rewrite Hp.
  destruct prefix as [|c rest].
  { split; [reflexivity|]. intros Hnot. elim Hnot.
    exists "/s/m"%string. exists "s"%string, "m"%string.
    repeat split; discriminate. }
  destruct (Ascii.eqb c "/") eqn:Ec; cbn [negb].
  2:{ split; [|reflexivity].
      intros (q & service & method & E & _). cbn in E. inversion E; subst.
      cbn in Ec. discriminate. }
  apply Ascii.eqb_eq in Ec. subst c.
  destruct (StrSplit_MaxSplits_two rest)
    as [[Hr ->] | [(a & b & -> & Ha & Hb & ->)
                  | (a & b & c & -> & Ha & Hb & ->)]]; cbn.
  - split; [reflexivity|]. intros Hnot. elim Hnot.
    exists "s/m"%string. exists (rest ++ "s")%string, "m"%string.
    cbn. rewrite string_app_assoc. cbn.
    repeat split; try discriminate.
    + destruct rest; discriminate.
    + rewrite no_slash_app, Hr. reflexivity.
  - destruct (string_empty a) eqn:Ea.
    + split; [|reflexivity].
      intros (q & service & method & E & Hs & _ & Hns & _).
      apply string_empty_true in Ea. subst a. cbn in E.
      inversion E as [E'].
      change (String "/" (b ++ q)) with ("" ++ "/" ++ (b ++ q))%string in E'.
      apply string_app_inv_no_slash in E'; auto. destruct E'. congruence.
    + split; [reflexivity|]. intros Hnot. elim Hnot.
      exists "m"%string. exists a, (b ++ "m")%string.
      cbn. rewrite string_app_assoc. cbn.
      apply string_empty_false in Ea.
      repeat split; auto.
      * destruct b; discriminate.
      * rewrite no_slash_app, Hb. reflexivity.
  - split; [|reflexivity].
    intros (q & service & method & E & _ & _ & Hns & Hnm).
    cbn in E. inversion E as [E'].
    rewrite string_app_assoc in E'. cbn in E'.
    change (String "/" ((b ++ String "/" c) ++ q))
      with ("/" ++ ((b ++ String "/" c) ++ q))%string in E'.
    apply string_app_inv_no_slash in E'; auto. destruct E' as [_ E'].
    subst method. rewrite !no_slash_app in Hnm. cbn in Hnm.
    rewrite andb_false_r in Hnm. discriminate.
Qed.

Lemma RoutePathMatchParse_prefix_witness :
  ~ (exists rest, service_method_path ("/a/b/" ++ rest)) /\
  RoutePathMatchParse ex_externals (ex_match (rm_prefix "/a/b/")) []
    = (None, []).
Proof.
  assert (H : ~ (exists rest, service_method_path ("/a/b/" ++ rest))).
  { intros (rest & service & method & E & _ & _ & Hs & Hm).
    cbn in E. inversion E as [E'].
    change ("a" ++ "/" ++ ("b/" ++ rest) = service ++ "/" ++ method)%string
      in E'.
    apply string_app_inv_no_slash in E'; [|reflexivity | exact Hs].
    destruct E' as [_ <-]. cbn in Hm. discriminate. }
  split; [exact H|].
  apply (RoutePathMatchParse_prefix ex_externals
           (ex_match (rm_prefix "/a/b/")) _ [] eq_refl).
  exact H.
Defined.

Lemma retry_on_Add_In codes : forall set code,
  In code (retry_on_Add codes set) <->
  In code set \/
  exists name, retry_on_name code = Some name /\ In name codes.
Proof.
  induction codes as [|c codes IH]; intros set code; cbn [retry_on_Add].
  - split; [auto|]. intros [H | (n & _ & [])]. exact H.
  - rewrite IH. clear IH.
    assert (Hstep :
      forall set', (forall x, In x set' <->
                      In x set \/ (retry_on_name x = Some c)) ->
      (In code set' \/
       (exists name, retry_on_name code = Some name /\ In name codes)) <->
      (In code set \/
       (exists name, retry_on_name code = Some name /\ In name (c :: codes)))).
    { intros set' Hs. rewrite Hs. split.
      - intros [[H | H] | (n & Hn & Hin)]; auto.
        + right. exists c. split; [exact H | left; reflexivity].
        + right. exists n. split; [exact Hn | right; exact Hin].
      - intros [H | (n & Hn & [<- | Hin])]; auto.
        right. exists n. auto. }
    destruct (String.eqb c "cancelled") eqn:E1;
    [|destruct (String.eqb c "deadline-exceeded") eqn:E2;
      [|destruct (String.eqb c "internal") eqn:E3;
        [|destruct (String.eqb c "resource-exhausted") eqn:E4;
          [|destruct (String.eqb c "unavailable") eqn:E5]]]].
    1-5: apply Hstep; intros x; rewrite in_app_iff; cbn;
      match goal with
      | H : String.eqb _ _ = true |- _ => apply String.eqb_eq in H; subst
      end;
      split; (intros [H | H]; [left; exact H | right]);
      try (destruct H as [<- | []]; reflexivity);
      try (left; destruct x; cbn in H; congruence).
    apply Hstep. intros x. split; [auto|].
    intros [H | H]; [exact H|]. exfalso.
    apply String.eqb_neq in E1, E2, E3, E4, E5.
    destruct x; cbn in H; congruence.
Qed.

(** X18. The status codes that a retry policy retries on are exactly
    those whose name is one of the comma-separated elements of [retry_on]:
    "cancelled", "deadline-exceeded", "internal", "resource-exhausted" or
    "unavailable"; any other element is ignored, and [retry_on] adds no
    error. *)
Theorem RetryPolicyParse_retry_on ext retry_policy_proto errors code :
  In code (retry_on (fst (RetryPolicyParse ext retry_policy_proto errors))) <->
  exists name,
    retry_on_name code = Some name /\
    In name (StrSplit (rp_retry_on retry_policy_proto) ",").
Proof.
  unfold RetryPolicyParse. cbv [vbind vret]. cbn [fst retry_on].
  rewrite retry_on_Add_In. cbn. tauto.
Qed.

(** *** The log of calls only grows *)

Lemma appends_vret {A} (a : A) : appends (vret a).
Proof. intros errors. exists []. cbn. now rewrite app_nil_r. Qed.

Lemma appends_AddError error : appends (errors_AddError error).
Proof. intros errors. eexists. reflexivity. Qed.

Lemma appends_external {A} (r : A * list ErrorsOp) : appends (external r).
Proof. intros errors. eexists. reflexivity. Qed.

Lemma appends_destroy extension : appends (destroy_extension extension).
Proof. intros errors. eexists. reflexivity. Qed.

Lemma appends_vbind {A B} (m : V A) (k : A -> V B) :
  appends m -> (forall a, appends (k a)) -> appends (vbind m k).
Proof.
  intros Hm Hk errors. unfold vbind.
  destruct (Hm errors) as [ops1 E1].
  destruct (Hk (fst (m errors)) (snd (m errors))) as [ops2 E2].
  exists (ops1 ++ ops2). rewrite E2, E1. now rewrite app_assoc.
Qed.

Lemma appends_ScopedField {A} field (block : V A) :
  appends block -> appends (ScopedField field block).
Proof.
  intros Hb errors. unfold ScopedField. cbn.
  destruct (Hb (errors ++ [PushField field])) as [ops E].
  exists ([PushField field] ++ ops ++ [PopField]).
  rewrite E. now rewrite <- !app_assoc.
Qed.

Ltac appends_step :=
  first
    [ apply appends_vret
    | apply appends_AddError
    | apply appends_external
    | apply appends_destroy
    | apply appends_ScopedField
    | apply appends_vbind; [|intros ?]
    | match goal with
      | |- appends (match ?x with _ => _ end) => destruct x
      | |- appends (if ?x then _ else _) => destruct x
      | |- appends (let _ := _ in _) => cbv zeta
      end ].

Ltac appends_auto := repeat appends_step.

Lemma appends_RetryPolicyParse ext proto :
  appends (RetryPolicyParse ext proto).
Proof. unfold RetryPolicyParse. appends_auto. Qed.

Lemma appends_parse_hash_policies ext protos : forall i acc,
  appends (parse_hash_policies ext i protos acc).
Proof.
  induction protos as [|p protos IH]; intros i acc; cbn.
  - apply appends_vret.
  - apply appends_vbind; [|intros ?; apply IH].
    unfold parse_hash_policy. appends_auto.
Qed.

Lemma adds_error_app a b :
  adds_error (a ++ b) = adds_error a || adds_error b.
Proof. apply existsb_app. Qed.

Lemma weights_sum_bounds clusters :
  (forall c w, In c clusters -> cwp_weight c = Some w ->
               (0 <= w <= UINT32_MAX)%Z) ->
  (0 <= weights_sum clusters
   <= UINT32_MAX * Z.of_nat (List.length clusters))%Z.
Proof.
  unfold UINT32_MAX.
  induction clusters as [|c clusters IH]; intros H;
    cbn [weights_sum fold_right].
  - cbn. lia.
  - fold (weights_sum clusters).
    assert (IH' := IH (fun c w Hin => H c w (or_intror Hin))).
    cbn [List.length]. rewrite Nat2Z.inj_succ.
    destruct (cwp_weight c) as [w|] eqn:E; [|lia].
    pose proof (H c w (or_introl eq_refl) E). lia.
Qed.

(** The loop over the weighted clusters. *)
Lemma parse_cluster_weights_spec ext clusters : forall i acc total errors,
  (forall c w, In c clusters -> cwp_weight c = Some w ->
               (0 <= w <= UINT32_MAX)%Z) ->
  (forall c, In c clusters ->
     adds_error (snd (ParseTypedPerFilterConfig ext
                        (cwp_typed_per_filter_config c))) = false) ->
  (0 <= total)%Z ->
  (total + weights_sum clusters < 18446744073709551616)%Z ->
  exists ops,
    parse_cluster_weights ext i clusters (acc, total) errors =
    ((acc ++ kept_clusters ext clusters, (total + weights_sum clusters)%Z),
     errors ++ ops) /\
    (adds_error ops = false <->
     forall c, In c clusters ->
       cwp_name c <> EmptyString /\ cwp_weight c <> None).
Proof.
  induction clusters as [|c clusters IH];
    intros i acc total errors Hw Hq Ht Hfit.
  - exists []. cbn. rewrite !app_nil_r, Z.add_0_r.
    split; [reflexivity|]. split; [intros _ c []| reflexivity].
  - cbn [weights_sum fold_right] in Hfit. fold (weights_sum clusters) in Hfit.
    pose proof (weights_sum_bounds clusters
                  (fun c w Hin => Hw c w (or_intror Hin))) as [Hs _].
    pose proof (Hq c (or_introl eq_refl)) as Hqc.
    cbn [parse_cluster_weights kept_clusters flat_map weights_sum fold_right].
    fold (kept_clusters ext clusters). fold (weights_sum clusters).
    unfold vbind at 1.
    cbv [parse_cluster_weight ScopedField vbind external errors_AddError vret].
    cbn [fst snd].
    destruct (cwp_weight c) as [w|] eqn:Ew.
    + pose proof (Hw c w (or_introl eq_refl) Ew) as Hwc.
      destruct (Z.eqb_spec w 0) as [->|Hnz].
      * destruct (string_empty (cwp_name c)) eqn:En; cbn [fst snd];
          (edestruct (IH (S i) acc total) as (ops & E & Hops);
           [ intros; eapply Hw; [right|]; eauto
           | intros; apply Hq; right; auto | exact Ht | lia | ]);
          rewrite E; eexists;
          (split; [rewrite <- !app_assoc; cbn [app]; reflexivity|]);
          rewrite ?adds_error_app; cbn [adds_error existsb is_AddError];
          rewrite ?adds_error_app; cbn [adds_error existsb is_AddError];
          fold (adds_error ops);
          fold (adds_error (snd (ParseTypedPerFilterConfig ext
                                   (cwp_typed_per_filter_config c))));
          rewrite ?Hqc; cbn [orb].
        -- split; [discriminate|]. intros H.
           destruct (H c (or_introl eq_refl)) as [Hn _].
           apply string_empty_true in En. contradiction.
        -- rewrite Hops. apply string_empty_false in En.
           split.
           ++ intros H c' [<-|Hin]; [split; congruence | auto].
           ++ intros H c' Hin. apply H. right. exact Hin.
      * assert (Hw' : w <> 0%Z) by exact Hnz.
        assert (Hmod : uint64_add total w = (total + w)%Z)
          by (unfold uint64_add; apply Z.mod_small; lia).
        destruct w as [|pw|nw]; [contradiction| |lia].
        destruct (string_empty (cwp_name c)) eqn:En; cbn [fst snd];
          rewrite Hmod;
          (edestruct (IH (S i)) as (ops & E & Hops);
           [ intros; eapply Hw; [right|]; eauto
           | intros; apply Hq; right; auto | | | ]);
          try (rewrite E; eexists;
          (split; [rewrite <- !app_assoc; cbn [app];
                   rewrite ?Z.add_assoc; reflexivity|]);
          rewrite ?adds_error_app; cbn [adds_error existsb is_AddError];
          rewrite ?adds_error_app; cbn [adds_error existsb is_AddError];
          fold (adds_error ops);
          fold (adds_error (snd (ParseTypedPerFilterConfig ext
                                   (cwp_typed_per_filter_config c))));
          rewrite ?Hqc; cbn [orb]); try lia.
        -- split; [discriminate|]. intros H.
           destruct (H c (or_introl eq_refl)) as [Hn _].
           apply string_empty_true in En. contradiction.
        -- rewrite Hops. apply string_empty_false in En.
           split.
           ++ intros H c' [<-|Hin]; [split; congruence | auto].
           ++ intros H c' Hin. apply H. right. exact Hin.
    + destruct (string_empty (cwp_name c)) eqn:En; cbn [fst snd];
        (edestruct (IH (S i)) as (ops & E & Hops);
         [ intros; eapply Hw; [right|]; eauto
         | intros; apply Hq; right; auto | exact Ht | exact Hfit | ]);
        rewrite E; eexists;
        (split; [rewrite <- !app_assoc; cbn [app]; reflexivity|]);
        rewrite ?adds_error_app; cbn [adds_error existsb is_AddError];
        rewrite ?adds_error_app; cbn [adds_error existsb is_AddError];
        rewrite ?orb_true_r; cbn [orb];
        (split; [discriminate|]); intros H;
        destruct (H c (or_introl eq_refl)) as [_ Hn]; congruence.
Qed.

Lemma kept_clusters_empty ext clusters :
  kept_clusters ext clusters = [] ->
  forall c w, In c clusters -> cwp_weight c = Some w -> w <> 0%Z -> False.
Proof.
  induction clusters as [|c0 cl IH]; intros Hempty c w Hin Hc Hnz;
    [contradiction|].
  cbn in Hempty. apply app_eq_nil in Hempty. destruct Hempty as [H0 Hcl].
  destruct Hin as [->|Hin]; [|eapply IH; eauto].
  rewrite Hc in H0. destruct w; [contradiction|discriminate|discriminate].
Qed.

Lemma kept_clusters_nonempty ext clusters :
  (forall c, In c clusters ->
     cwp_name c <> EmptyString /\ cwp_weight c <> None) ->
  kept_clusters ext clusters <> [] ->
  exists c w, In c clusters /\ cwp_weight c = Some w /\ w <> 0%Z.
Proof.
  induction clusters as [|c cl IH]; intros Hall Hne; [contradiction|].
  destruct (Hall c (or_introl eq_refl)) as [_ Hwc].
  destruct (cwp_weight c) as [w|] eqn:Ew; [|contradiction].
  destruct (Z.eq_dec w 0) as [->|Hnz].
  - cbn in Hne. rewrite Ew in Hne. cbn in Hne.
    destruct IH as (c' & w' & Hin & Hc & Hw');
      [intros; apply Hall; right; auto | exact Hne |].
    exists c', w'. split; [right; exact Hin | auto].
  - exists c, w. split; [left; reflexivity | auto].
Qed.

Lemma vbind_eq {A B} (m : V A) (k : A -> V B) errors :
  vbind m k errors = k (fst (m errors)) (snd (m errors)).
Proof. reflexivity. Qed.

(** X19. Weighted clusters. [RouteActionParse] keeps the clusters whose
    weight is absent or not zero, in their order. Provided
    [ParseTypedPerFilterConfig] adds no error for any of the clusters, the
    [.weighted_clusters] field is left without an error exactly when every
    cluster has a name and a weight, some weight is not zero, and the
    weights sum up to at most the largest [uint32_t]. *)
Theorem RouteActionParse_weighted_clusters ext proto map' errors clusters :
  ra_cluster_specifier proto = ra_weighted_clusters clusters ->
  (Z.of_nat (List.length clusters) <= 4294967296)%Z ->
  (forall c w, In c clusters -> cwp_weight c = Some w ->
               (0 <= w <= UINT32_MAX)%Z) ->
  (forall c, In c clusters ->
     adds_error (snd (ParseTypedPerFilterConfig ext
                        (cwp_typed_per_filter_config c))) = false) ->
  exists route_action' before ops,
    RouteActionParse ext proto map' errors =
    (Some route_action',
     errors ++ before ++ [PushField ".weighted_clusters"] ++ ops
     ++ [PopField]) /\
    action route_action' = WeightedClusters (kept_clusters ext clusters) /\
    (adds_error ops = false <-> valid_weighted_clusters clusters).
Proof.
  intros Hspec Hlen Hw Hq.
  pose proof (weights_sum_bounds clusters Hw) as Hsum.
  unfold RouteActionParse.
  rewrite vbind_eq.
  match goal with
  | |- context [snd (?m errors)] =>
      assert (H1 : appends m) by appends_auto;
      destruct (H1 errors) as [ops1 E1]; rewrite E1; clear H1 E1;
      generalize (fst (m errors)); intros msd
  end.
  rewrite vbind_eq.
  destruct (appends_parse_hash_policies ext (ra_hash_policy proto) 0 []
              (errors ++ ops1)) as [ops2 E2].
  rewrite E2. clear E2.
  generalize (fst (parse_hash_policies ext 0 (ra_hash_policy proto) []
                     (errors ++ ops1))); intros hps.
  rewrite vbind_eq.
  match goal with
  | |- context [snd (?m ((errors ++ ops1) ++ ops2))] =>
      assert (H3 : appends m)
        by (appends_auto; apply appends_RetryPolicyParse);
      destruct (H3 ((errors ++ ops1) ++ ops2)) as [ops3 E3];
      rewrite E3; clear H3 E3;
      generalize (fst (m ((errors ++ ops1) ++ ops2))); intros rp
  end.
  cbv zeta. rewrite Hspec.
  unfold ScopedField. rewrite vbind_eq. cbn [fst snd].
  destruct (parse_cluster_weights_spec ext clusters 0 [] 0%Z
              ((((errors ++ ops1) ++ ops2) ++ ops3)
               ++ [PushField ".weighted_clusters"]) Hw Hq)
    as (ops & E & Hops); [lia | unfold UINT32_MAX in *; lia |].
  rewrite E. cbn [fst snd app]. rewrite Z.add_0_l.
  rewrite vbind_eq.
  assert (Hvalid :
    forall final,
      (final = [] /\ kept_clusters ext clusters <> [] /\
       (weights_sum clusters <= UINT32_MAX)%Z \/
       exists e, final = [AddError e] /\
         (kept_clusters ext clusters = [] \/
          (UINT32_MAX < weights_sum clusters)%Z)) ->
      (adds_error (ops ++ final) = false <->
       valid_weighted_clusters clusters)).
  { intros final Hfinal. rewrite adds_error_app. unfold valid_weighted_clusters.
    destruct Hfinal as [(-> & Hne & Hle) | (e & -> & Hbad)]; cbn.
    - rewrite orb_false_r, Hops. split.
      + intros Hall. split; [exact Hall|]. split; [|exact Hle].
        apply (kept_clusters_nonempty ext); assumption.
      + intros (Hall & _ & _). exact Hall.
    - rewrite orb_true_r. split; [discriminate|].
      intros (Hall & (c & w & Hin & Hc & Hnz) & Hle). exfalso.
      destruct Hbad as [Hempty | Hgt]; [|lia].
      apply (kept_clusters_empty ext clusters Hempty c w); assumption. }
  destruct (kept_clusters ext clusters) as [|k ks] eqn:Ek.
  - cbn [app fst snd]. cbv [errors_AddError vret vbind]. cbn [fst snd].
    eexists. exists (ops1 ++ ops2 ++ ops3).
    exists (ops ++ [AddError "no valid clusters specified"]).
    split; [f_equal; rewrite <- !app_assoc; reflexivity|].
    split; [reflexivity|].
    apply Hvalid. right. eexists. split; [reflexivity|]. left. reflexivity.
  - cbn [app fst snd]. cbv [errors_AddError vret vbind]. cbn [fst snd].
    destruct (Z.ltb_spec UINT32_MAX (weights_sum clusters)) as [Hgt|Hle];
      cbn [fst snd].
    + eexists. exists (ops1 ++ ops2 ++ ops3).
      exists (ops ++ [AddError "sum of cluster weights exceeds uint32 max"]).
      split; [f_equal; rewrite <- !app_assoc; reflexivity|].
      split; [reflexivity|].
      apply Hvalid. right. eexists. split; [reflexivity|]. right. exact Hgt.
    + eexists. exists (ops1 ++ ops2 ++ ops3). exists (ops ++ []).
      split; [f_equal; rewrite <- !app_assoc; reflexivity|].
      split; [reflexivity|].
      apply Hvalid. left. repeat split; [discriminate | exact Hle].
Qed.

Lemma RouteActionParse_weighted_clusters_witness :
  valid_weighted_clusters ex_clusters /\
  exists route_action' ops,
    RouteActionParse ex_externals
      (ex_route_action (ra_weighted_clusters ex_clusters)) [] [] =
    (Some route_action', ops) /\
    action route_action' = WeightedClusters (kept_clusters ex_externals
                                               ex_clusters).
Proof.
  assert (Hv : valid_weighted_clusters ex_clusters).
  { split; [|split].
    - intros c [<-|[<-|[<-|[]]]]; split; discriminate.
    - eexists; exists 30%Z. split; [left; reflexivity|].
      split; [reflexivity | discriminate].
    - vm_compute. discriminate. }
  split; [exact Hv|].
  destruct (RouteActionParse_weighted_clusters ex_externals
              (ex_route_action (ra_weighted_clusters ex_clusters)) [] []
              ex_clusters eq_refl)
    as (ra & before & ops & E & Ha & _).
  - vm_compute. discriminate.
  - intros c w [<-|[<-|[<-|[]]]] Hw; inversion Hw; subst;
      split; vm_compute; discriminate.
  - intros c [<-|[<-|[<-|[]]]]; reflexivity.
  - exists ra. eexists. split; [exact E | exact Ha].
Defined.

(** *** Cluster specifier plugins and the routes that use them *)

Lemma map_find_erase name unused m :
  map_find name (map_erase unused m) =
  if String.eqb unused name then None else map_find name m.
Proof.
  unfold map_erase.
  induction m as [|[k v] m IH]; cbn [filter fst map_find].
  - destruct (String.eqb unused name); reflexivity.
  - destruct (String.eqb k unused) eqn:Eku; cbn [negb map_find].
    + apply String.eqb_eq in Eku. subst k. rewrite IH.
      destruct (String.eqb unused name); reflexivity.
    + rewrite IH. destruct (String.eqb k name) eqn:Ekn; [|reflexivity].
      apply String.eqb_eq in Ekn. subst k.
      rewrite String.eqb_sym, Eku. reflexivity.
Qed.

Lemma map_find_erase_all name unused : forall m,
  map_find name (fold_left (fun m u => map_erase u m) unused m) =
  if in_dec string_dec name unused then None else map_find name m.
Proof.
  induction unused as [|u unused IH]; intros m; cbn [fold_left].
  - reflexivity.
  - rewrite IH, map_find_erase.
    destruct (in_dec string_dec name unused) as [Hin|Hnin];
      destruct (in_dec string_dec name (u :: unused)) as [Hin'|Hnin'];
      try reflexivity.
    + elim Hnin'. right. exact Hin.
    + destruct Hin' as [->|Hin']; [|contradiction].
      now rewrite String.eqb_refl.
    + destruct (String.eqb_spec u name) as [->|]; [|reflexivity].
      elim Hnin'. left. reflexivity.
Qed.

Lemma map_find_In name m cfg :
  map_find name m = Some cfg -> In name (map fst m).
Proof.
  induction m as [|[k v] m IH]; cbn; [discriminate|].
  destruct (String.eqb_spec k name) as [->|]; [left; reflexivity|].
  intros H. right. apply IH, H.
Qed.

Lemma set_erase_In n key s :
  In n (set_erase key s) <-> In n s /\ n <> key.
Proof.
  unfold set_erase. rewrite filter_In, negb_true_iff, String.eqb_neq. tauto.
Qed.

(** A route that [RouteActionParse] lets through does not use a plugin
    whose configuration is empty. *)
Lemma RouteActionParse_plugin ext proto map' errors route_action' name :
  fst (RouteActionParse ext proto map' errors) = Some route_action' ->
  action route_action' = ClusterSpecifierPluginName name ->
  map_find name map' <> Some EmptyString.
Proof.
  unfold RouteActionParse.
  rewrite vbind_eq.
  match goal with
  | |- context [snd (?m errors)] =>
      generalize (snd (m errors)); intros e1;
      generalize (fst (m errors)); intros msd
  end.
  rewrite vbind_eq.
  match goal with
  | |- context [snd (?m e1)] =>
      generalize (snd (m e1)); intros e2;
      generalize (fst (m e1)); intros hps
  end.
  rewrite vbind_eq.
  match goal with
  | |- context [snd (?m e2)] =>
      generalize (snd (m e2)); intros e3;
      generalize (fst (m e2)); intros rp
  end.
  cbv zeta.
  destruct (ra_cluster_specifier proto) as [c | cl | plugin |].
  - cbv [vbind vret]. cbn. intros H; inversion H; subst. discriminate.
  - cbv [ScopedField vbind vret]. cbn. intros H; inversion H; subst.
    discriminate.
  - destruct (XdsRlsEnabled ext); [|discriminate].
    cbv [ScopedField]. cbn [fst snd].
    destruct (string_empty plugin) eqn:Ep; [discriminate|].
    destruct (map_find plugin map') as [config|] eqn:Ef.
    + destruct (string_empty config) eqn:Ec; [discriminate|].
      cbn. intros H; inversion H; subst. cbn. intros H'; inversion H'; subst.
      rewrite Ef. intros H''; inversion H''; subst. discriminate.
    + cbv [vbind vret]. cbn. intros H; inversion H; subst. cbn.
      intros H'; inversion H'; subst. rewrite Ef. discriminate.
  - discriminate.
Qed.

(** What [ParseRoute] does to the set of plugins not seen: nothing, or
    it takes out the plugin that the route it returns uses. *)
Lemma ParseRoute_not_seen ext proto vrp map' not_seen errors :
  match fst (fst (ParseRoute ext proto vrp map' not_seen errors)) with
  | None =>
      snd (fst (ParseRoute ext proto vrp map' not_seen errors)) = not_seen
  | Some route =>
      snd (fst (ParseRoute ext proto vrp map' not_seen errors)) = not_seen \/
      exists name,
        references route name /\
        map_find name map' <> Some EmptyString /\
        snd (fst (ParseRoute ext proto vrp map' not_seen errors))
          = set_erase name not_seen
  end.
Proof.
  unfold ParseRoute. rewrite vbind_eq.
  match goal with
  | |- context [snd (?m errors)] =>
      generalize (snd (m errors)); intros e1;
      destruct (fst (m errors)) as [route|]
  end; [|reflexivity].
  rewrite vbind_eq.
  destruct (rt_action proto) as [rap | |].
  - cbv [ScopedField]. cbn [fst snd]. rewrite vbind_eq.
    destruct (fst (RouteActionParse ext rap map' (e1 ++ [PushField ".route"])))
      as [ra|] eqn:Era; [|reflexivity].
    cbn [fst snd vret]. cbv [vbind vret ScopedField external]. cbn [fst snd].
    assert (Hact : forall p,
              action (match retry_policy ra with
                      | Some _ => ra
                      | None => set_retry_policy ra p
                      end) = action ra)
      by (intros; destruct (retry_policy ra); reflexivity).
    rewrite Hact.
    destruct (action ra) as [c | cl | name] eqn:Ea; [left; reflexivity ..|].
    right. exists name. split; [|split; [|reflexivity]].
    + eexists. split; [reflexivity|]. apply Hact.
    + eapply RouteActionParse_plugin; eauto.
  - cbv [vbind vret ScopedField external]. cbn. left. reflexivity.
  - cbv [vbind vret ScopedField external]. cbn. left. reflexivity.
Qed.

Lemma ScopedField_eq {A} field (block : V A) errors :
  ScopedField field block errors =
  (fst (block (errors ++ [PushField field])),
   snd (block (errors ++ [PushField field])) ++ [PopField]).
Proof. reflexivity. Qed.

Lemma parse_domains_fst ext protos : forall j acc errors,
  fst (parse_domains ext j protos acc errors) = acc ++ protos.
Proof.
  induction protos as [|d protos IH]; intros j acc errors;
    cbn [parse_domains].
  - cbn. now rewrite app_nil_r.
  - rewrite vbind_eq, IH, <- app_assoc. reflexivity.
Qed.

(** The loop over the routes of a virtual host: it adds routes at the
    end, at most one for each route of the message; the set of plugins not
    seen shrinks, and a plugin that leaves it is used by one of the routes
    and has a configuration that is not empty. *)
Lemma parse_routes_seen ext vrp map' protos : forall j acc not_seen errors,
  let state := fst (parse_routes ext j protos vrp map' (acc, not_seen) errors)
  in
  (exists new, fst state = acc ++ new /\
               List.length new <= List.length protos) /\
  incl (snd state) not_seen /\
  (forall name, In name not_seen -> ~ In name (snd state) ->
     (exists route, In route (fst state) /\ references route name) /\
     map_find name map' <> Some EmptyString).
Proof.
  induction protos as [|proto protos IH]; intros j acc not_seen errors;
    cbn [parse_routes].
  - cbn. split; [exists []; split; [now rewrite app_nil_r | cbn; lia]|].
    split; [apply incl_refl|]. intros name Hin Hnin. contradiction.
  - cbv zeta. rewrite !vbind_eq. cbn [fst snd]. unfold ScopedField.
    cbn [fst snd].
    set (e1 := errors ++ [PushField ("[" ++ StrCat_size_t j ++ "]")]).
    pose proof (ParseRoute_not_seen ext proto vrp map' not_seen e1) as HP.
    destruct (ParseRoute ext proto vrp map' not_seen e1)
      as [[res ns1] e2] eqn:EP.
    cbn [fst snd] in *.
    destruct res as [route|].
    + specialize (IH (S j) (acc ++ [route]) ns1 (e2 ++ [PopField])).
      cbv zeta in IH. destruct IH as ((new & Enew & Hlen) & Hincl & Hseen).
      split; [|split].
      * exists (route :: new). rewrite Enew, <- app_assoc. cbn.
        split; [reflexivity | lia].
      * destruct HP as [-> | (n0 & _ & _ & ->)]; [exact Hincl|].
        intros x Hx. apply Hincl in Hx. now apply set_erase_In in Hx.
      * intros name Hin Hnin.
        destruct (in_dec string_dec name ns1) as [Hin1|Hnin1];
          [apply Hseen; assumption|].
        destruct HP as [-> | (n0 & Href & Hcfg & ->)]; [contradiction|].
        assert (name = n0).
        { destruct (string_dec name n0) as [|Hne]; [assumption|].
          elim Hnin1. apply set_erase_In. auto. }
        subst n0. split; [|exact Hcfg].
        exists route. split; [|exact Href].
        rewrite Enew. apply in_or_app. left. apply in_or_app. right.
        left. reflexivity.
    + subst ns1.
      specialize (IH (S j) acc not_seen (e2 ++ [PopField])).
      cbv zeta in IH. destruct IH as ((new & Enew & Hlen) & Hincl & Hseen).
      split; [|split; [exact Hincl | exact Hseen]].
      exists new. split; [exact Enew | cbn; lia].
Qed.

(** The body of the loop over the virtual hosts. *)
Lemma parse_virtual_host_seen ext i proto map' not_seen errors :
  let parsed := fst (parse_virtual_host ext i proto map' not_seen errors) in
  domains (fst parsed) = vh_domains proto /\
  List.length (routes (fst parsed)) <= List.length (vh_routes proto) /\
  incl (snd parsed) not_seen /\
  (forall name, In name not_seen -> ~ In name (snd parsed) ->
     (exists route, In route (routes (fst parsed)) /\ references route name)
     /\ map_find name map' <> Some EmptyString).
Proof.
  unfold parse_virtual_host. cbv zeta. rewrite ScopedField_eq. cbn [fst snd].
  rewrite vbind_eq, parse_domains_fst. cbn [app].
  match goal with
  | |- context [snd (parse_domains ?a ?b ?c ?d ?e)] =>
      generalize (snd (parse_domains a b c d e)); intros e1
  end.
  rewrite vbind_eq.
  match goal with
  | |- context [snd (?m e1)] => generalize (snd (m e1)); intros e2
  end.
  rewrite vbind_eq.
  match goal with
  | |- context [snd (?m e2)] =>
      generalize (snd (m e2)); intros e3;
      generalize (fst (m e2)); intros config
  end.
  rewrite vbind_eq.
  match goal with
  | |- context [snd (?m e3)] =>
      generalize (snd (m e3)); intros e4;
      generalize (fst (m e3)); intros vrp
  end.
  rewrite ScopedField_eq. cbn [fst snd]. rewrite vbind_eq. cbn [fst snd vret].
  pose proof (parse_routes_seen ext vrp map' (vh_routes proto) 0 [] not_seen
                (e4 ++ [PushField ".routes"])) as H.
  cbv zeta in H. destruct H as ((new & Enew & Hlen) & Hincl & Hseen).
  cbn [domains routes].
  split; [reflexivity|]. split; [|split; [exact Hincl | exact Hseen]].
  rewrite Enew. cbn. exact Hlen.
Qed.

Lemma parse_virtual_hosts_seen ext map' protos :
  forall i acc not_seen errors,
  let state :=
    fst (parse_virtual_hosts ext i protos map' (acc, not_seen) errors) in
  (exists new, fst state = acc ++ new /\
               map domains new = map vh_domains protos /\
               Forall2 (fun vhost proto =>
                          List.length (routes vhost)
                          <= List.length (vh_routes proto)) new protos) /\
  incl (snd state) not_seen /\
  (forall name, In name not_seen -> ~ In name (snd state) ->
     (exists vhost route,
        In vhost (fst state) /\ In route (routes vhost) /\
        references route name) /\
     map_find name map' <> Some EmptyString).
Proof.
  induction protos as [|proto protos IH]; intros i acc not_seen errors;
    cbn [parse_virtual_hosts].
  - cbn. split; [exists []; rewrite app_nil_r; repeat split; constructor|].
    split; [apply incl_refl|]. intros name Hin Hnin. contradiction.
  - rewrite vbind_eq. cbn [fst snd].
    pose proof (parse_virtual_host_seen ext i proto map' not_seen errors)
      as HV.
    destruct (parse_virtual_host ext i proto map' not_seen errors)
      as [[vhost ns1] e1] eqn:EV.
    cbv zeta in HV. cbn [fst snd] in *.
    destruct HV as (Hdom & Hlen & Hincl1 & Hseen1).
    specialize (IH (S i) (acc ++ [vhost]) ns1 e1). cbv zeta in IH.
    destruct IH as ((new & Enew & Hdoms & Hall) & Hincl & Hseen).
    split; [|split].
    + exists (vhost :: new). rewrite Enew, <- app_assoc. cbn.
      split; [reflexivity|]. split; [now rewrite Hdom, Hdoms|].
      constructor; assumption.
    + intros x Hx. apply Hincl1, Hincl, Hx.
    + intros name Hin Hnin.
      destruct (in_dec string_dec name ns1) as [Hin1|Hnin1];
        [apply Hseen; assumption|].
      destruct (Hseen1 name Hin Hnin1) as ((route & Hr & Href) & Hcfg).
      split; [|exact Hcfg]. exists vhost, route.
      split; [|split; assumption].
      rewrite Enew. apply in_or_app. left. apply in_or_app. right.
      left. reflexivity.
Qed.

(** X20. The plugin map of the resource is pruned: every cluster specifier
    plugin that [XdsRouteConfigResourceParse] leaves in the map of the
    resource is used by the route action of some route of the resource, and
    its configuration is not empty, so that no plugin that was optional and
    not supported is left. *)
Theorem plugin_map_pruned ext route_config errors name config :
  map_find name
    (cluster_specifier_plugin_map
       (fst (XdsRouteConfigResourceParse ext route_config errors)))
    = Some config ->
  config <> EmptyString /\
  exists vhost route,
    In vhost
      (virtual_hosts
         (fst (XdsRouteConfigResourceParse ext route_config errors))) /\
    In route (routes vhost) /\
    references route name.
Proof.
  unfold XdsRouteConfigResourceParse. rewrite vbind_eq.
  match goal with
  | |- context [snd (?m errors)] =>
      generalize (snd (m errors)); intros e1;
      generalize (fst (m errors)); intros map'
  end.
  cbv zeta. rewrite vbind_eq. cbn [fst snd vret].
  cbn [cluster_specifier_plugin_map virtual_hosts].
  pose proof (parse_virtual_hosts_seen ext map' (rc_virtual_hosts route_config)
                0 [] (map fst map') e1) as H.
  cbv zeta in H. destruct H as (_ & _ & Hseen).
  rewrite map_find_erase_all.
  match goal with
  | |- context [in_dec string_dec name ?l] =>
      destruct (in_dec string_dec name l) as [Hin|Hnin]
  end; [discriminate|].
  intros Hfind.
  destruct (Hseen name (map_find_In _ _ _ Hfind) Hnin) as (Href & Hcfg).
  split; [congruence | exact Href].
Qed.

Lemma plugin_map_pruned_witness :
  map_find "lookup"
    (cluster_specifier_plugin_map
       (fst (XdsRouteConfigResourceParse ex_externals ex_route_config [])))
    = Some "[{rls: {}}]"%string /\
  map_find "unused"
    (cluster_specifier_plugin_map
       (fst (XdsRouteConfigResourceParse ex_externals ex_route_config [])))
    = None /\
  exists vhost route,
    In vhost
      (virtual_hosts
         (fst (XdsRouteConfigResourceParse ex_externals ex_route_config [])))
    /\ In route (routes vhost) /\ references route "lookup".
Proof.
  assert (H : map_find "lookup"
                (cluster_specifier_plugin_map
                   (fst (XdsRouteConfigResourceParse ex_externals
                           ex_route_config [])))
              = Some "[{rls: {}}]"%string) by (vm_compute; reflexivity).
  split; [exact H|]. split; [vm_compute; reflexivity|].
  apply (plugin_map_pruned ex_externals ex_route_config [] _ _ H).
Defined.


(** *** The retry policy of a route *)

(** What [RetryPolicyParse] returns does not depend on the calls made on
    [errors] before. *)
Lemma RetryPolicyParse_fst ext proto errors :
  fst (RetryPolicyParse ext proto errors) =
  fst (RetryPolicyParse ext proto []).
Proof.
  unfold RetryPolicyParse.
  cbv [vbind ScopedField external errors_AddError vret]. cbn [fst snd].
  destruct (rp_retry_back_off proto) as [backoff|]; [|reflexivity].
  cbn [fst snd].
  destruct (rbo_base_interval backoff), (rbo_max_interval backoff);
    reflexivity.
Qed.

Lemma RouteActionParse_retry_policy ext proto map' errors route_action' :
  fst (RouteActionParse ext proto map' errors) = Some route_action' ->
  retry_policy route_action' =
  match ra_retry_policy proto with
  | Some retry_policy_proto =>
      Some (fst (RetryPolicyParse ext retry_policy_proto []))
  | None => None
  end.
Proof.
  unfold RouteActionParse.
  rewrite vbind_eq.
  match goal with
  | |- context [snd (?m errors)] =>
      generalize (snd (m errors)); intros e1;
      generalize (fst (m errors)); intros msd
  end.
  rewrite vbind_eq.
  match goal with
  | |- context [snd (?m e1)] =>
      generalize (snd (m e1)); intros e2;
      generalize (fst (m e1)); intros hps
  end.
  rewrite vbind_eq.
  assert (Hrp :
    fst (match ra_retry_policy proto with
         | Some retry_policy_proto =>
             ScopedField ".retry_policy"
               (vbind (RetryPolicyParse ext retry_policy_proto)
                  (fun p => vret (Some p)))
         | None => vret None
         end e2) =
    match ra_retry_policy proto with
    | Some retry_policy_proto =>
        Some (fst (RetryPolicyParse ext retry_policy_proto []))
    | None => None
    end).
  { destruct (ra_retry_policy proto) as [p|]; [|reflexivity].
    cbv [ScopedField vbind vret]. cbn [fst snd].
    now rewrite RetryPolicyParse_fst. }
  match goal with
  | |- context [snd (?m e2)] =>
      generalize (snd (m e2)); intros e3;
      revert Hrp; generalize (fst (m e2)); intros rp Hrp
  end.
  cbv zeta.
  destruct (ra_cluster_specifier proto) as [c | cl | plugin |].
  - cbv [vbind vret]. cbn. intros [= <-]. exact Hrp.
  - cbv [ScopedField vbind vret]. cbn. intros [= <-]. exact Hrp.
  - destruct (XdsRlsEnabled ext); [|discriminate].
    cbv [ScopedField]. cbn [fst snd].
    destruct (string_empty plugin) eqn:Ep; [discriminate|].
    destruct (map_find plugin map') as [config|] eqn:Ef.
    + destruct (string_empty config) eqn:Ec; [discriminate|].
      cbn. intros [= <-]. exact Hrp.
    + cbv [vbind vret]. cbn. intros [= <-]. exact Hrp.
  - discriminate.
Qed.

(** X22. The retry policy of a route that [ParseRoute] returns with a route
    action is the one parsed from the retry policy of the action, where the
    action has one, and the retry policy of the virtual host otherwise. *)
Theorem ParseRoute_retry_policy ext proto vrp map' not_seen errors
    route route_action' route_action_proto :
  fst (fst (ParseRoute ext proto vrp map' not_seen errors)) = Some route ->
  rt_action proto = route_route route_action_proto ->
  route_action route = Route_RouteAction route_action' ->
  retry_policy route_action' =
  match ra_retry_policy route_action_proto with
  | Some retry_policy_proto =>
      Some (fst (RetryPolicyParse ext retry_policy_proto []))
  | None => vrp
  end.
Proof.
  unfold ParseRoute. rewrite vbind_eq.
  match goal with
  | |- context [snd (?m errors)] =>
      generalize (snd (m errors)); intros e1;
      destruct (fst (m errors)) as [route0|]
  end; [|discriminate].
  rewrite vbind_eq. intros H Hact. rewrite Hact in H.
  rewrite ScopedField_eq in H. cbn [fst snd] in H. rewrite vbind_eq in H.
  destruct (fst (RouteActionParse ext route_action_proto map'
                   (e1 ++ [PushField ".route"]))) as [ra|] eqn:Era;
    [|discriminate H].
  pose proof (RouteActionParse_retry_policy _ _ _ _ _ Era) as Hrp.
  cbv [vbind vret ScopedField external] in H. cbn [fst snd] in H.
  inversion H; subst route. clear H. cbn [route_action set_route_action
    set_typed_per_filter_config].
  intros Hr. inversion Hr; subst route_action'. clear Hr.
  destruct (retry_policy ra) as [p|] eqn:Ep.
  - rewrite Ep. rewrite Hrp.
    destruct (ra_retry_policy route_action_proto); [reflexivity|].
    discriminate Hrp.
  - cbn [retry_policy set_retry_policy].
    destruct (ra_retry_policy route_action_proto); [discriminate Hrp|].
    reflexivity.
Qed.

Lemma ParseRoute_retry_policy_witness :
  exists route route_action',
    fst (fst (ParseRoute ex_externals ex_route (Some ex_vhost_retry_policy)
                [] [] [])) = Some route /\
    route_action route = Route_RouteAction route_action' /\
    retry_policy route_action' = Some ex_vhost_retry_policy.
Proof.
  assert (H : fst (fst (ParseRoute ex_externals ex_route
                          (Some ex_vhost_retry_policy) [] [] []))
              = Some ex_route_parsed) by (vm_compute; reflexivity).
  exists ex_route_parsed. eexists.
  split; [exact H|]. split; [reflexivity|].
  apply (ParseRoute_retry_policy ex_externals ex_route
           (Some ex_vhost_retry_policy) [] [] [] _ _ _ H eq_refl eq_refl).
Defined.

(** *** Plugins that the configuration declares *)

Lemma map_find_set_same key value m :
  map_find key (map_set key value m) = Some value.
Proof.
  induction m as [|[k v] m IH]; cbn.
  - now rewrite String.eqb_refl.
  - destruct (String.eqb k key) eqn:E; cbn; rewrite E; [reflexivity|].
    exact IH.
Qed.

Lemma map_find_set_known key key' value m :
  map_find key m <> None -> map_find key (map_set key' value m) <> None.
Proof.
  induction m as [|[k v] m IH]; cbn; [congruence|].
  destruct (String.eqb k key') eqn:E'; cbn.
  - apply String.eqb_eq in E'. subst k.
    destruct (String.eqb key' key); [discriminate | auto].
  - destruct (String.eqb k key); [discriminate | auto].
Qed.

(** One turn of the loop of [ClusterSpecifierPluginParse] keeps the names
    that the map knows, and adds the name of its plugin. *)
Lemma parse_cluster_specifier_plugin_known ext i plugin map' errors :
  (forall name, map_find name map' <> None ->
     map_find name
       (fst (parse_cluster_specifier_plugin ext i plugin map' errors))
     <> None) /\
  (forall tec, csp_extension plugin = Some tec ->
     map_find (tec_name tec)
       (fst (parse_cluster_specifier_plugin ext i plugin map' errors))
     <> None).
Proof.
  unfold parse_cluster_specifier_plugin. cbv zeta.
  rewrite ScopedField_eq. cbn [fst snd].
  destruct (csp_extension plugin) as [tec|];
    [|split; [intros name H; exact H | discriminate]].
  rewrite vbind_eq.
  set (name' := tec_name tec).
  assert (Hmap1 : forall e,
    (forall name, map_find name map' <> None ->
       map_find name
         (fst (match map_find name' map' with
               | Some _ =>
                   vbind
                     (ScopedField ".name"
                        (errors_AddError
                           ("duplicate name " ++ double_quote ++ name'
                            ++ double_quote)))
                     (fun _ => vret map')
               | None => vret (map_set name' "<sentinel>" map')
               end e)) <> None) /\
    map_find name'
      (fst (match map_find name' map' with
            | Some _ =>
                vbind
                  (ScopedField ".name"
                     (errors_AddError
                        ("duplicate name " ++ double_quote ++ name'
                         ++ double_quote)))
                  (fun _ => vret map')
            | None => vret (map_set name' "<sentinel>" map')
            end e)) <> None).
  { intros e. destruct (map_find name' map') as [v|] eqn:Ef;
      cbv [vbind ScopedField errors_AddError vret]; cbn [fst snd].
    - split; [auto | congruence].
    - split; [intros; now apply map_find_set_known|].
      rewrite map_find_set_same. discriminate. }
  match goal with
  | |- context [snd (?m ?e)] =>
      specialize (Hmap1 e); revert Hmap1;
      generalize (snd (m e)); intros e1;
      generalize (fst (m e)); intros map1 [Hkeep Hname]
  end.
  rewrite ScopedField_eq. cbn [fst snd]. rewrite vbind_eq.
  cbv [external]. cbn [fst snd].
  assert (Hend : forall map2,
            (forall name, map_find name map1 <> None ->
                          map_find name map2 <> None) ->
            (forall name, map_find name map' <> None ->
                          map_find name map2 <> None) /\
            (forall tec0, Some tec = Some tec0 ->
                          map_find (tec_name tec0) map2 <> None)).
  { intros map2 H2. split; [auto|].
    intros tec0 E; inversion E; subst tec0. apply H2, Hname. }
  destruct (fst (ExtractXdsExtension ext (tec_typed_config tec)))
    as [extension|]; [|apply Hend; auto].
  destruct (GetPluginForType ext (extension_type extension)) as [impl|].
  - cbv [vbind vret destroy_extension errors_AddError]. cbn [fst snd].
    match goal with
    | |- context [if ?c then _ else _] => destruct c
    end; [apply Hend; auto|].
    destruct (ParseLoadBalancingConfig_error ext _);
      cbn [fst snd]; apply Hend; auto.
    intros; now apply map_find_set_known.
  - destruct (csp_is_optional plugin);
      cbv [vbind vret destroy_extension errors_AddError]; cbn [fst snd];
      apply Hend; auto.
    intros; now apply map_find_set_known.
Qed.

Lemma parse_cluster_specifier_plugins_known ext plugins :
  forall i map' errors,
  (forall name, map_find name map' <> None ->
     map_find name
       (fst (parse_cluster_specifier_plugins ext i plugins map' errors))
     <> None) /\
  (forall plugin tec, In plugin plugins -> csp_extension plugin = Some tec ->
     map_find (tec_name tec)
       (fst (parse_cluster_specifier_plugins ext i plugins map' errors))
     <> None).
Proof.
  induction plugins as [|p plugins IH]; intros i map' errors;
    cbn [parse_cluster_specifier_plugins].
  - split; [auto | intros ? ? []].
  - rewrite vbind_eq.
    destruct (parse_cluster_specifier_plugin_known ext i p map' errors)
      as [Hkeep Hname].
    match goal with
    | |- context [parse_cluster_specifier_plugins ext (S i) plugins ?m ?e] =>
        destruct (IH (S i) m e) as [IHkeep IHname]
    end.
    split; [auto|].
    intros plugin tec [<-|Hin] Hext; [apply IHkeep, Hname, Hext|].
    eapply IHname; eauto.
Qed.

(** X23. A plugin that the route configuration declares with an extension
    is never reported as unknown: [ClusterSpecifierPluginParse] enters its
    name in the map whatever becomes of its configuration, so that, for a
    route action that names it, [RouteActionParse] adds no error under
    [.cluster_specifier_plugin]. *)
Theorem declared_plugin_is_known ext route_config errors plugin tec
    proto errors' :
  In plugin (rc_cluster_specifier_plugins route_config) ->
  csp_extension plugin = Some tec ->
  tec_name tec <> EmptyString ->
  XdsRlsEnabled ext = true ->
  ra_cluster_specifier proto = ra_cluster_specifier_plugin (tec_name tec) ->
  map_find (tec_name tec)
    (fst (ClusterSpecifierPluginParse ext route_config errors)) <> None /\
  exists before,
    snd (RouteActionParse ext proto
           (fst (ClusterSpecifierPluginParse ext route_config errors))
           errors') =
    errors' ++ before ++
    [PushField ".cluster_specifier_plugin"; PopField].
Proof.
  intros Hin Hext Hname Hrls Hspec.
  assert (Hknown :
    map_find (tec_name tec)
      (fst (ClusterSpecifierPluginParse ext route_config errors)) <> None).
  { unfold ClusterSpecifierPluginParse.
    eapply parse_cluster_specifier_plugins_known; eauto. }
  split; [exact Hknown|].
  revert Hknown.
  generalize (fst (ClusterSpecifierPluginParse ext route_config errors)).
  intros map' Hknown.
  unfold RouteActionParse.
  rewrite vbind_eq.
  match goal with
  | |- context [snd (?m errors')] =>
      assert (H1 : appends m) by appends_auto;
      destruct (H1 errors') as [ops1 E1]; rewrite E1; clear H1 E1;
      generalize (fst (m errors')); intros msd
  end.
  rewrite vbind_eq.
  destruct (appends_parse_hash_policies ext (ra_hash_policy proto) 0 []
              (errors' ++ ops1)) as [ops2 E2].
  rewrite E2. clear E2.
  generalize (fst (parse_hash_policies ext 0 (ra_hash_policy proto) []
                     (errors' ++ ops1))); intros hps.
  rewrite vbind_eq.
  match goal with
  | |- context [snd (?m ((errors' ++ ops1) ++ ops2))] =>
      assert (H3 : appends m)
        by (appends_auto; apply appends_RetryPolicyParse);
      destruct (H3 ((errors' ++ ops1) ++ ops2)) as [ops3 E3];
      rewrite E3; clear H3 E3;
      generalize (fst (m ((errors' ++ ops1) ++ ops2))); intros rp
  end.
  cbv zeta. rewrite Hspec, Hrls. rewrite ScopedField_eq.
  apply string_empty_false in Hname. rewrite Hname.
  exists (ops1 ++ ops2 ++ ops3).
  destruct (map_find (tec_name tec) map') as [config|]; [|congruence].
  destruct (string_empty config); cbn [fst snd vret];
    rewrite <- !app_assoc; reflexivity.
Qed.

Lemma declared_plugin_is_known_witness :
  In {| csp_is_optional := false;
        csp_extension :=
          Some {| tec_name := "lookup";
                  tec_typed_config := Some (Any_proto 0) |} |}
     (rc_cluster_specifier_plugins ex_route_config) /\
  XdsRlsEnabled ex_externals = true /\
  exists before,
    snd (RouteActionParse ex_externals
           (ex_route_action (ra_cluster_specifier_plugin "lookup"))
           (fst (ClusterSpecifierPluginParse ex_externals ex_route_config []))
           []) =
    [] ++ before ++ [PushField ".cluster_specifier_plugin"; PopField].
Proof.
  split; [left; reflexivity|]. split; [reflexivity|].
  apply (declared_plugin_is_known ex_externals ex_route_config []
           {| csp_is_optional := false;
              csp_extension :=
                Some {| tec_name := "lookup";
                        tec_typed_config := Some (Any_proto 0) |} |}
           {| tec_name := "lookup"; tec_typed_config := Some (Any_proto 0) |}
           (ex_route_action (ra_cluster_specifier_plugin "lookup")) []).
  - left. reflexivity.
  - reflexivity.
  - discriminate.
  - reflexivity.
  - reflexivity.
Defined.
